(** * Monitoring tools: block ingestion, signing monitor, price-feeder poll

    A shallow embedding of the Python scripts of the repository
    ([beacon-ingestion.py], [beacond-monitor.py],
    [umee-pricefeeder-monitor.py]) with the properties their specification
    states about them.

    Python values coming out of [response.json()] are modelled by [pyval];
    a Python exception is a [Raise] in the [result] monad, so that every
    [try ... except Exception] of the source is a [match] on a [result]. *)

From Stdlib Require Import ZArith List String Ascii Bool Lia QArith Sorted.
From stdpp Require Import base option gmap strings list fin_maps.

Set Warnings "-register-all".

Local Open Scope string_scope.
Local Open Scope Z_scope.

(** ** Python values and exceptions *)

Module Py.

Inductive exn : Set :=
| TypeError
| AttributeError
| ValueError
| KeyError
| ZeroDivisionError
| HTTPError
| ConnectionError
| JSONDecodeError
| DatabaseError.

Inductive result (A : Type) : Type :=
| Ret (a : A)
| Raise (e : exn).

Arguments Ret {A} a.
Arguments Raise {A} e.

#[export] Instance result_ret : MRet result := fun A a => Ret a.

#[export] Instance result_bind : MBind result := fun A B f m =>
  match m with
  | Ret a => f a
  | Raise e => Raise e
  end.

(** JSON-derived Python values. Numbers are the integers of the RPC schema;
    a dict keeps its items in an association list. *)
Inductive pyval : Type :=
| PNone
| PBool (b : bool)
| PInt (z : Z)
| PStr (s : string)
| PList (l : list pyval)
| PDict (d : list (string * pyval)).

Definition empty_dict : pyval := PDict [].
Definition empty_list : pyval := PList [].

Fixpoint assoc {A} (k : string) (d : list (string * A)) : option A :=
  match d with
  | [] => None
  | (k', v) :: d' => if String.eqb k k' then Some v else assoc k d'
  end.

(** [bool(v)] *)
Definition truthy (v : pyval) : bool :=
  match v with
  | PNone => false
  | PBool b => b
  | PInt z => negb (z =? 0)
  | PStr s => negb (String.eqb s "")
  | PList l => match l with [] => false | _ => true end
  | PDict d => match d with [] => false | _ => true end
  end.

Definition isinstance_dict (v : pyval) : bool :=
  match v with PDict _ => true | _ => false end.

(** [v.get(k, default)]: only a dict has the method. *)
Definition get (v : pyval) (k : string) (default : pyval) : result pyval :=
  match v with
  | PDict d => Ret (match assoc k d with Some x => x | None => default end)
  | _ => Raise AttributeError
  end.

(** [v[k]] with a string key. *)
Definition index (v : pyval) (k : string) : result pyval :=
  match v with
  | PDict d => match assoc k d with Some x => Ret x | None => Raise KeyError end
  | _ => Raise TypeError
  end.

(** [v > n] against an integer literal. *)
Definition gt (v : pyval) (n : Z) : result bool :=
  match v with
  | PInt z => Ret (n <? z)
  | PBool b => Ret (n <? (if b then 1 else 0))
  | _ => Raise TypeError
  end.

Fixpoint prefixb (p s : string) : bool :=
  match p, s with
  | EmptyString, _ => true
  | String a p', String b s' => Ascii.eqb a b && prefixb p' s'
  | String _ _, EmptyString => false
  end.

Fixpoint substringb (p s : string) : bool :=
  prefixb p s ||
  match s with
  | EmptyString => false
  | String _ s' => substringb p s'
  end.

(** [v1 == v2]; [True == 1] and [False == 0] as in Python, dicts compared
    regardless of item order. *)
Fixpoint eqb (a b : pyval) {struct a} : bool :=
  match a, b with
  | PNone, PNone => true
  | PBool x, PBool y => Bool.eqb x y
  | PBool x, PInt y => (if x then 1 else 0) =? y
  | PInt x, PBool y => x =? (if y then 1 else 0)
  | PInt x, PInt y => x =? y
  | PStr x, PStr y => String.eqb x y
  | PList l1, PList l2 =>
      (fix go (l1 l2 : list pyval) {struct l1} : bool :=
         match l1, l2 with
         | [], [] => true
         | x :: xs, y :: ys => eqb x y && go xs ys
         | _, _ => false
         end) l1 l2
  | PDict d1, PDict d2 =>
      (length d1 =? length d2)%nat &&
      (fix go (d1 : list (string * pyval)) {struct d1} : bool :=
         match d1 with
         | [] => true
         | (k, v) :: d1' =>
             match assoc k d2 with
             | Some w => eqb v w && go d1'
             | None => false
             end
         end) d1
  | _, _ => false
  end.

(** ["k" in v] *)
Definition contains (k : string) (v : pyval) : result bool :=
  match v with
  | PDict d => Ret (match assoc k d with Some _ => true | None => false end)
  | PList l => Ret (existsb (eqb (PStr k)) l)
  | PStr s => Ret (substringb k s)
  | _ => Raise TypeError
  end.

Fixpoint chars (s : string) : list pyval :=
  match s with
  | EmptyString => []
  | String a s' => PStr (String a EmptyString) :: chars s'
  end.

(** [for x in v]: the items a loop over [v] visits. *)
Definition iter (v : pyval) : result (list pyval) :=
  match v with
  | PList l => Ret l
  | PDict d => Ret (map (fun kv => PStr (fst kv)) d)
  | PStr s => Ret (chars s)
  | _ => Raise TypeError
  end.

(** [len(v)] *)
Definition len (v : pyval) : result Z :=
  match v with
  | PList l => Ret (Z.of_nat (length l))
  | PDict d => Ret (Z.of_nat (length d))
  | PStr s => Ret (Z.of_nat (String.length s))
  | _ => Raise TypeError
  end.

(** *** [int(v)] *)

Definition is_space (a : ascii) : bool :=
  let n := nat_of_ascii a in
  ((9 <=? n) && (n <=? 13) || (n =? 32) || ((28 <=? n) && (n <=? 31)))%nat.

Definition is_digit (a : ascii) : bool :=
  let n := nat_of_ascii a in ((48 <=? n) && (n <=? 57))%nat.

Definition digit_val (a : ascii) : Z := Z.of_nat (nat_of_ascii a) - 48.

Fixpoint lstrip (s : string) : string :=
  match s with
  | String a s' => if is_space a then lstrip s' else s
  | EmptyString => EmptyString
  end.

Fixpoint rev_string (acc s : string) : string :=
  match s with
  | EmptyString => acc
  | String a s' => rev_string (String a acc) s'
  end.

Definition strip (s : string) : string :=
  rev_string "" (lstrip (rev_string "" (lstrip s))).

(** Decimal digits, single underscores allowed between digits.
    [prev] tells whether the previous character was a digit. *)
Fixpoint digits_acc (prev : bool) (acc : Z) (s : string) : option Z :=
  match s with
  | EmptyString => if prev then Some acc else None
  | String a s' =>
      if is_digit a then digits_acc true (10 * acc + digit_val a) s'
      else if Ascii.eqb a "_" then
        if prev then
          match s' with
          | EmptyString => None
          | _ => digits_acc false acc s'
          end
        else None
      else None
  end.

Definition int_of_string (s : string) : option Z :=
  match strip s with
  | String "-" s' => option_map Z.opp (digits_acc false 0 s')
  | String "+" s' => digits_acc false 0 s'
  | s' => digits_acc false 0 s'
  end.

Definition int (v : pyval) : result Z :=
  match v with
  | PInt z => Ret z
  | PBool b => Ret (if b then 1 else 0)
  | PStr s => match int_of_string s with Some z => Ret z | None => Raise ValueError end
  | _ => Raise TypeError
  end.

End Py.

Import Py.

(** ** Timestamps: [CosmosDataIngestion._parse_timestamp]

    [datetime.strptime] is embedded as the ordered, backtracking match of
    the regular expression the format compiles to, followed by the range
    checks of the [datetime] constructor; strings are ASCII text. *)

Module Timestamp.

Record datetime : Set := mkDatetime {
  year : Z;
  month : Z;
  day : Z;
  hour : Z;
  minute : Z;
  second : Z;
  microsecond : Z
}.

(** *** String primitives used by the function *)

(** [s.rstrip(c)] *)
Fixpoint rstrip (c : ascii) (s : string) : string :=
  match s with
  | EmptyString => EmptyString
  | String a s' =>
      match rstrip c s' with
      | EmptyString => if Ascii.eqb a c then EmptyString else String a EmptyString
      | r => String a r
      end
  end.

(** [c in s] for a one-character [c] *)
Fixpoint mem_char (c : ascii) (s : string) : bool :=
  match s with
  | EmptyString => false
  | String a s' => Ascii.eqb a c || mem_char c s'
  end.

(** [s.split(c)] *)
Fixpoint split (c : ascii) (s : string) : list string :=
  match s with
  | EmptyString => [EmptyString]
  | String a s' =>
      if Ascii.eqb a c then EmptyString :: split c s'
      else match split c s' with
           | h :: t => String a h :: t
           | [] => [String a EmptyString]
           end
  end.

(** [s[:n]] *)
Fixpoint take (n : nat) (s : string) : string :=
  match n, s with
  | S n', String a s' => String a (take n' s')
  | _, _ => EmptyString
  end.

(** [s[:-n]] *)
Definition drop_last (n : nat) (s : string) : string :=
  take (String.length s - n) s.

(** *** The regular expression of a [strptime] format *)

Definition parser (A : Type) : Type := string -> list (A * string).

Definition pbind {A B} (p : parser A) (f : A -> parser B) : parser B :=
  fun s => flat_map (fun ar => f (fst ar) (snd ar)) (p s).

Definition pret {A} (a : A) : parser A := fun s => [(a, s)].

Definition alt {A} (p q : parser A) : parser A := fun s => (p s ++ q s)%list.

Definition in_range (lo hi : Z) (a : ascii) : bool :=
  is_digit a && (lo <=? digit_val a) && (digit_val a <=? hi).

(** Two characters of the given classes, read as a two-digit number. *)
Definition two (c1 c2 : ascii -> bool) : parser Z :=
  fun s =>
    match s with
    | String a (String b r) =>
        if c1 a && c2 b then [(10 * digit_val a + digit_val b, r)] else []
    | _ => []
    end.

Definition one (c : ascii -> bool) : parser Z :=
  fun s =>
    match s with
    | String a r => if c a then [(digit_val a, r)] else []
    | _ => []
    end.

(** A literal character of the format; the expression is compiled with
    IGNORECASE. *)
Definition lower (a : ascii) : ascii :=
  let n := nat_of_ascii a in
  if ((65 <=? n) && (n <=? 90))%nat then ascii_of_nat (n + 32) else a.

Definition lit (c : ascii) : parser unit :=
  fun s =>
    match s with
    | String a r => if Ascii.eqb (lower a) (lower c) then [(tt, r)] else []
    | _ => []
    end.

(** [%Y]: four digits *)
Definition re_Y : parser Z :=
  fun s =>
    match s with
    | String a (String b (String c (String d r))) =>
        if is_digit a && is_digit b && is_digit c && is_digit d
        then [(1000 * digit_val a + 100 * digit_val b
               + 10 * digit_val c + digit_val d, r)]
        else []
    | _ => []
    end.

(** [%m]: 1[0-2] | 0[1-9] | [1-9] *)
Definition re_m : parser Z :=
  alt (two (in_range 1 1) (in_range 0 2))
 (alt (two (in_range 0 0) (in_range 1 9))
      (one (in_range 1 9))).

(** [%d]: 3[01] | [12]\d | 0[1-9] | [1-9] | space [1-9] *)
Definition re_d : parser Z :=
  alt (two (in_range 3 3) (in_range 0 1))
 (alt (two (in_range 1 2) is_digit)
 (alt (two (in_range 0 0) (in_range 1 9))
 (alt (one (in_range 1 9))
      (fun s => match s with
                | String " " r => one (in_range 1 9) r
                | _ => []
                end)))).

(** [%H]: 2[0-3] | [0-1]\d | \d *)
Definition re_H : parser Z :=
  alt (two (in_range 2 2) (in_range 0 3))
 (alt (two (in_range 0 1) is_digit)
      (one is_digit)).

(** [%M]: [0-5]\d | \d *)
Definition re_M : parser Z :=
  alt (two (in_range 0 5) is_digit) (one is_digit).

(** [%S]: 6[0-1] | [0-5]\d | \d *)
Definition re_S : parser Z :=
  alt (two (in_range 6 6) (in_range 0 1))
 (alt (two (in_range 0 5) is_digit)
      (one is_digit)).

(** [%f]: [0-9]{1,6}, greedy. [digits_upto n] lists the matches of at most
    [n] further digits, longest first; the value is the digit string padded
    on the right with zeros to six places. *)
Fixpoint digits_upto (n : nat) (acc : Z) (s : string) : list (Z * string) :=
  match n with
  | O => [(acc, s)]
  | S n' =>
      match s with
      | String a r =>
          if is_digit a
          then (digits_upto n' (acc + digit_val a * 10 ^ Z.of_nat n') r
                ++ [(acc, s)])%list
          else [(acc, s)]
      | EmptyString => [(acc, s)]
      end
  end.

Definition re_f : parser Z :=
  fun s =>
    match s with
    | String a r =>
        if is_digit a then digits_upto 5 (digit_val a * 10 ^ 5) r else []
    | _ => []
    end.

(** [p >> q]: [p], then [q] on what [p] left. *)
Definition pthen {A B} (p : parser A) (q : parser B) : parser B :=
  pbind p (fun _ => q).

Infix ">>" := pthen (at level 61, left associativity).

(** [%Y-%m-%dT%H:%M:%S] *)
Definition re_seconds : parser datetime :=
  pbind re_Y (fun y =>
  pbind (lit "-" >> re_m) (fun m =>
  pbind (lit "-" >> re_d) (fun d =>
  pbind (lit "T" >> re_H) (fun h =>
  pbind (lit ":" >> re_M) (fun mi =>
  pbind (lit ":" >> re_S) (fun sec =>
  pret (mkDatetime y m d h mi sec 0))))))).

(** [%Y-%m-%dT%H:%M:%S.%f] *)
Definition re_micros : parser datetime :=
  pbind re_seconds (fun dt =>
  pbind (lit "." >> re_f) (fun f =>
  pret (mkDatetime (year dt) (month dt) (day dt)
                   (hour dt) (minute dt) (second dt) f))).

Definition is_leap (y : Z) : bool :=
  (y mod 4 =? 0) && (negb (y mod 100 =? 0) || (y mod 400 =? 0)).

Definition days_in_month (y m : Z) : Z :=
  if m =? 2 then (if is_leap y then 29 else 28)
  else if (m =? 4) || (m =? 6) || (m =? 9) || (m =? 11) then 30
  else 31.

(** The checks of [date(year, month, day)] and [datetime(...)]. *)
Definition valid_datetime (dt : datetime) : bool :=
  (1 <=? year dt) && (year dt <=? 9999) &&
  (1 <=? month dt) && (month dt <=? 12) &&
  (1 <=? day dt) && (day dt <=? days_in_month (year dt) (month dt)) &&
  (0 <=? hour dt) && (hour dt <=? 23) &&
  (0 <=? minute dt) && (minute dt <=? 59) &&
  (0 <=? second dt) && (second dt <=? 59) &&
  (0 <=? microsecond dt) && (microsecond dt <=? 999999).

(** [datetime.strptime(s, fmt)]: the first match of the expression must
    consume the whole string and denote a valid [datetime]. *)
Definition strptime (re : parser datetime) (s : string) : result datetime :=
  match re s with
  | (dt, EmptyString) :: _ =>
      if valid_datetime dt then Ret dt else Raise ValueError
  | _ => Raise ValueError
  end.

(** *** [strftime] *)

Definition digit_char (n : Z) : ascii := ascii_of_nat (48 + Z.to_nat n).

Definition pad2 (n : Z) : string :=
  String (digit_char (n / 10)) (String (digit_char (n mod 10)) EmptyString).

Definition pad3 (n : Z) : string :=
  String (digit_char (n / 100)) (pad2 (n mod 100)).

Definition pad4 (n : Z) : string :=
  String (digit_char (n / 1000)) (pad3 (n mod 1000)).

Definition pad6 (n : Z) : string :=
  (pad3 (n / 1000) ++ pad3 (n mod 1000))%string.

(** [%Y] as the C library of Linux writes it: the year in decimal, without
    leading zeros (a year below 1000 has fewer than four digits). *)
Definition year_text (y : Z) : string :=
  if y <? 10 then String (digit_char y) EmptyString
  else if y <? 100 then pad2 y
  else if y <? 1000 then pad3 y
  else pad4 y.

(** [dt.strftime('%Y-%m-%d %H:%M:%S.%f')] *)
Definition strftime (dt : datetime) : string :=
  (year_text (year dt) ++ "-" ++ pad2 (month dt) ++ "-" ++ pad2 (day dt) ++ " "
   ++ pad2 (hour dt) ++ ":" ++ pad2 (minute dt) ++ ":" ++ pad2 (second dt)
   ++ "." ++ pad6 (microsecond dt))%string.

(** *** The function *)

(** The body of the [try]. *)
Definition parse_body (timestamp_str : pyval) : result string :=
  match timestamp_str with
  | PStr s =>
      let timestamp_str := rstrip "Z" s in
      dt ← (if mem_char "." timestamp_str then
              match split "." timestamp_str with
              | [main_part; fractional] =>
                  let fractional := take 6 fractional in
                  strptime re_micros (main_part ++ "." ++ fractional)%string
              | _ => Raise ValueError
              end
            else strptime re_seconds timestamp_str);
      Ret (drop_last 3 (strftime dt))
  | _ => Raise AttributeError
  end.

(** [now] is what [datetime.utcnow()] reads in the handler. *)
Definition _parse_timestamp (now : datetime) (timestamp_str : pyval) : string :=
  match parse_body timestamp_str with
  | Ret s => s
  | Raise _ => drop_last 3 (strftime now)
  end.

(** *** ISO-8601 timestamps as the node writes them *)

(** The digits [ds] as text. *)
Fixpoint digits_string (ds : list Z) : string :=
  match ds with
  | [] => EmptyString
  | d :: ds' => String (digit_char d) (digits_string ds')
  end.

(** [YYYY-MM-DDTHH:MM:SS] *)
Definition iso_seconds (y m d h mi s : Z) : string :=
  (pad4 y ++ "-" ++ pad2 m ++ "-" ++ pad2 d ++ "T"
   ++ pad2 h ++ ":" ++ pad2 mi ++ ":" ++ pad2 s)%string.

(** The same with the fraction digits [frac], if any, and the zone marker
    [Z]. *)
Definition iso_timestamp (y m d h mi s : Z) (frac : list Z) : string :=
  (iso_seconds y m d h mi s
   ++ match frac with
      | [] => EmptyString
      | _ => String "." (digits_string frac)
      end
   ++ "Z")%string.

(** [Y-MM-DD HH:MM:SS.mmm], the form the store receives: the year as
    [%Y] writes it, four digits from the year 1000 on. *)
Definition mysql_timestamp (y m d h mi s ms : Z) : string :=
  (year_text y ++ "-" ++ pad2 m ++ "-" ++ pad2 d ++ " "
   ++ pad2 h ++ ":" ++ pad2 mi ++ ":" ++ pad2 s ++ "." ++ pad3 ms)%string.

(** The first three fraction digits, read as milliseconds. *)
Definition millis (frac : list Z) : Z :=
  match frac with
  | [] => 0
  | [a] => 100 * a
  | [a; b] => 100 * a + 10 * b
  | a :: b :: c :: _ => 100 * a + 10 * b + c
  end.

(** The value of [ds] as the leading digits of an [n]-digit number. *)
Fixpoint place_value (n : nat) (ds : list Z) : Z :=
  match n, ds with
  | S n', d :: ds' => d * 10 ^ Z.of_nat n' + place_value n' ds'
  | _, _ => 0
  end.

(** The number the digits [ds] write. *)
Definition digits_value (ds : list Z) : Z := place_value (length ds) ds.

Definition is_digit_value (d : Z) : Prop := 0 <= d <= 9.

(** The list a parser returns starts with the match [x]. *)
Definition starts_with {A} (l : list A) (x : A) : Prop :=
  exists tl, l = x :: tl.

End Timestamp.

(** ** Fetching a block: [CosmosDataIngestion.fetch_block_data] *)

Module Fetch.

(** What [session.get] ends with once the retry adapter has given up:
    no response at all, or a response with its status code and, when the
    body is JSON, the decoded value. *)
Inductive http_outcome : Type :=
| NoResponse
| Response (status_code : Z) (body : option pyval).

(** The remote node, by endpoint and height. *)
Record rpc : Type := mkRpc {
  block_endpoint : Z -> http_outcome;
  validators_endpoint : Z -> http_outcome
}.

Definition session_get (o : http_outcome) : result (Z * option pyval) :=
  match o with
  | NoResponse => Raise ConnectionError
  | Response st body => Ret (st, body)
  end.

(** [response.raise_for_status()] *)
Definition raise_for_status (r : Z * option pyval) : result unit :=
  if (400 <=? fst r) && (fst r <? 600) then Raise HTTPError else Ret tt.

(** [response.json()] *)
Definition json (r : Z * option pyval) : result pyval :=
  match snd r with
  | Some v => Ret v
  | None => Raise JSONDecodeError
  end.

(** The dict [fetch_block_data] returns, key by key. *)
Record block_data : Type := mkBlockData {
  height : Z;
  hash : pyval;
  time : pyval;
  proposer_address : pyval;
  chain_id : pyval;
  num_txs : Z;
  num_evidence : Z;
  total_gas_wanted : Z;
  total_gas_used : Z;
  total_fee : string;
  last_commit_round : Z;
  last_block_id : pyval;
  validators_hash : pyval;
  next_validators_hash : pyval;
  consensus_hash : pyval;
  app_hash : pyval;
  last_results_hash : pyval;
  evidence_hash : pyval;
  last_commit_hash : pyval;
  data_hash : pyval;
  valid_signatures : Z;
  total_signatures : Z;
  version : pyval;
  parts_total : pyval;
  parts_hash : pyval;
  total_voting_power : Z;
  proposer_priority : Z
}.

(** The loop over the validator set: the first entry whose address equals
    the proposer's gives both values, no entry gives zeros. *)
Fixpoint find_proposer (validators : list pyval) (proposer : pyval)
  : result (Z * Z) :=
  match validators with
  | [] => Ret (0, 0)
  | validator :: rest =>
      a ← get validator "address" PNone;
      if eqb a proposer then
        vp ← get validator "voting_power" (PInt 0);
        vp ← int vp;
        pp ← get validator "proposer_priority" (PInt 0);
        pp ← int pp;
        Ret (vp, pp)
      else find_proposer rest proposer
  end.

(** The condition of the generator expression that counts signatures. *)
Definition counts_as_valid (sig : pyval) : result bool :=
  if isinstance_dict sig then
    flag ← get sig "block_id_flag" (PInt 0);
    above ← gt flag 1;
    if (above : bool) then
      s ← get sig "signature" PNone;
      Ret (truthy s)
    else Ret false
  else Ret false.

(** [sum(1 for sig in sigs if ...)] *)
Fixpoint count_valid (sigs : list pyval) : result Z :=
  match sigs with
  | [] => Ret 0
  | sig :: rest =>
      b ← counts_as_valid sig;
      n ← count_valid rest;
      Ret (if (b : bool) then 1 + n else n)
  end.

(** The body of the [try]; [Ret None] is one of the two [return None]. *)
Definition fetch_body (node : rpc) (h : Z) : result (option block_data) :=
  response ← session_get (block_endpoint node h);
  _ ← raise_for_status response;
  res ← json response;
  has_result ← contains "result" res;
  if negb has_result then Ret None else
  inner ← index res "result";
  block ← get inner "block" PNone;
  if negb (truthy block) then Ret None else
  header ← get block "header" empty_dict;
  last_commit ← get block "last_commit" empty_dict;
  data ← get block "data" empty_dict;
  txs ← get data "txs" empty_list;
  ev ← get block "evidence" empty_dict;
  evidence ← get ev "evidence" empty_list;
  val_response ← session_get (validators_endpoint node h);
  _ ← raise_for_status val_response;
  val_result ← json val_response;
  proposer ← get header "proposer_address" (PStr "");
  has_vals ← contains "result" val_result;
  power ← (if (has_vals : bool) then
             vr ← index val_result "result";
             validators ← get vr "validators" empty_list;
             validators ← iter validators;
             find_proposer validators proposer
           else Ret (0, 0) : result (Z * Z));
  sigs ← get last_commit "signatures" empty_list;
  sig_items ← iter sigs;
  valid ← count_valid sig_items;
  hv ← get header "height" (PInt 0);
  hv ← int hv;
  block_id ← get res "block_id" empty_dict;
  bhash ← get block_id "hash" (PStr "");
  btime ← get header "time" (PStr "");
  chain ← get header "chain_id" (PStr "");
  ntxs ← len txs;
  nev ← len evidence;
  round ← get last_commit "round" (PInt 0);
  round ← int round;
  lbi ← get header "last_block_id" empty_dict;
  lbi ← get lbi "hash" (PStr "");
  vhash ← get header "validators_hash" (PStr "");
  nvhash ← get header "next_validators_hash" (PStr "");
  chash ← get header "consensus_hash" (PStr "");
  ahash ← get header "app_hash" (PStr "");
  lrhash ← get header "last_results_hash" (PStr "");
  ehash ← get header "evidence_hash" (PStr "");
  lchash ← get header "last_commit_hash" (PStr "");
  dhash ← get header "data_hash" (PStr "");
  nsigs ← len sigs;
  ver ← get header "version" empty_dict;
  ver ← get ver "block" (PStr "");
  parts ← get block_id "parts" empty_dict;
  ptotal ← get parts "total" (PInt 0);
  phash ← get parts "hash" (PStr "");
  Ret (Some (mkBlockData hv bhash btime proposer chain ntxs nev 0 0 "0"
               round lbi vhash nvhash chash ahash lrhash ehash lchash dhash
               valid nsigs ver ptotal phash (fst power) (snd power))).

(** [except Exception: ... return None] *)
Definition fetch_block_data (node : rpc) (h : Z) : option block_data :=
  match fetch_body node h with
  | Ret r => r
  | Raise _ => None
  end.

(** Whether the handler ran, which prints the error line of the unit. *)
Definition fetch_raises (node : rpc) (h : Z) : bool :=
  match fetch_body node h with
  | Ret _ => false
  | Raise _ => true
  end.

End Fetch.

(** ** The relational store behind the MySQL connection

    A row is the tuple of values bound to its [INSERT]; a table maps the
    primary key to the row, so [INSERT ... ON DUPLICATE KEY UPDATE] of every
    column is a map insert. The [evidence] and [signatures] tables have an
    AUTO_INCREMENT primary key and no other unique key. *)

Module Db.

Inductive db_type : Set := Sqlite | Mysql.

Record tables : Type := mkTables {
  cosmos_blocks : gmap Z (list pyval);
  transactions : gmap string (list pyval);
  evidence : gmap Z (list pyval);
  validators : gmap string (list pyval);
  signatures : gmap Z (list pyval);
  validator_sets : gmap (Z * string) (list pyval);
  ingestion_progress : gmap Z (Z * Z)
}.

(** The next AUTO_INCREMENT ids; a rollback does not give ids back. *)
Record counters : Set := mkCounters {
  next_evidence_id : Z;
  next_signature_id : Z
}.

(** The database server between connections. *)
Record server : Type := mkServer {
  server_tables : tables;
  server_counters : counters
}.

(** The statements the ingestion sends, with their bound parameters. *)
Inductive statement : Type :=
| UpsertBlock (height : Z) (row : list pyval)
| UpsertTransaction (hash : string) (row : list pyval)
| InsertEvidence (row : list pyval)
| InsertSignature (row : list pyval)
| UpsertValidator (address : pyval) (row : list pyval)
| UpsertValidatorSet (height : Z) (address : pyval) (row : list pyval)
| UpsertProgress (last_block_processed last_validator_update : Z).

Definition set_cosmos_blocks (t : tables) v : tables :=
  mkTables v (transactions t) (evidence t) (validators t) (signatures t)
           (validator_sets t) (ingestion_progress t).
Definition set_transactions (t : tables) v : tables :=
  mkTables (cosmos_blocks t) v (evidence t) (validators t) (signatures t)
           (validator_sets t) (ingestion_progress t).
Definition set_evidence (t : tables) v : tables :=
  mkTables (cosmos_blocks t) (transactions t) v (validators t) (signatures t)
           (validator_sets t) (ingestion_progress t).
Definition set_validators (t : tables) v : tables :=
  mkTables (cosmos_blocks t) (transactions t) (evidence t) v (signatures t)
           (validator_sets t) (ingestion_progress t).
Definition set_signatures (t : tables) v : tables :=
  mkTables (cosmos_blocks t) (transactions t) (evidence t) (validators t) v
           (validator_sets t) (ingestion_progress t).
Definition set_validator_sets (t : tables) v : tables :=
  mkTables (cosmos_blocks t) (transactions t) (evidence t) (validators t)
           (signatures t) v (ingestion_progress t).
Definition set_ingestion_progress (t : tables) v : tables :=
  mkTables (cosmos_blocks t) (transactions t) (evidence t) (validators t)
           (signatures t) (validator_sets t) v.

(** The effect of one accepted statement. A primary key column refuses
    NULL, so an address that is not a string is an error. *)
Definition apply_statement (st : statement) (s : tables * counters)
  : result (tables * counters) :=
  let (t, c) := s in
  match st with
  | UpsertBlock h row =>
      Ret (set_cosmos_blocks t (<[h := row]> (cosmos_blocks t)), c)
  | UpsertTransaction h row =>
      Ret (set_transactions t (<[h := row]> (transactions t)), c)
  | InsertEvidence row =>
      Ret (set_evidence t (<[next_evidence_id c := row]> (evidence t)),
           mkCounters (next_evidence_id c + 1) (next_signature_id c))
  | InsertSignature row =>
      Ret (set_signatures t (<[next_signature_id c := row]> (signatures t)),
           mkCounters (next_evidence_id c) (next_signature_id c + 1))
  | UpsertValidator (PStr a) row =>
      Ret (set_validators t (<[a := row]> (validators t)), c)
  | UpsertValidator _ _ => Raise DatabaseError
  | UpsertValidatorSet h (PStr a) row =>
      Ret (set_validator_sets t (<[(h, a) := row]> (validator_sets t)), c)
  | UpsertValidatorSet _ _ _ => Raise DatabaseError
  | UpsertProgress b v =>
      Ret (set_ingestion_progress t (<[1 := (b, v)]> (ingestion_progress t)), c)
  end.

(** A connection: [committed] is what every reader sees, [working] what
    this connection sees, uncommitted changes included. *)
Record connection : Type := mkConnection {
  kind : db_type;
  autocommit : bool;
  committed : tables;
  working : tables;
  auto_increment : counters
}.

(** [DatabaseConnectionPool.get_connection]: a MySQL connection is handed
    out with [conn.autocommit = True]; sqlite3 opens its transactions
    implicitly. *)
Definition get_connection (k : db_type) (t : tables) (c : counters)
  : connection :=
  match k with
  | Mysql => mkConnection Mysql true t t c
  | Sqlite => mkConnection Sqlite false t t c
  end.

(** [conn.commit()] and [conn.rollback()], as changes of the connection;
    both are taken to succeed. *)
Definition commit (c : connection) : connection :=
  mkConnection (kind c) (autocommit c) (working c) (working c)
               (auto_increment c).

Definition rollback (c : connection) : connection :=
  mkConnection (kind c) (autocommit c) (committed c) (committed c)
               (auto_increment c).

(** Code that runs on a connection: what it changed stays changed when it
    raises. *)
Definition db (A : Type) : Type := connection -> result A * connection.

#[export] Instance db_ret : MRet db := fun A a c => (Ret a, c).

#[export] Instance db_bind : MBind db := fun A B f m c =>
  match m c with
  | (Ret a, c') => f a c'
  | (Raise e, c') => (Raise e, c')
  end.

Definition lift {A} (r : result A) : db A := fun c => (r, c).

(** What holds of a connection handed out by the pool for as long as the
    ingestion uses it. *)
Definition pool_connection (c : connection) : Prop :=
  committed c = working c /\ (kind c = Mysql -> autocommit c = true).

(** Every block row readers see on [c] is still seen on [c']. *)
Definition keeps_blocks (c c' : connection) : Prop :=
  forall key, is_Some (cosmos_blocks (committed c) !! key) ->
              is_Some (cosmos_blocks (committed c') !! key).

Definition conn_commit : db unit := fun c => (Ret tt, commit c).

Section Server.

(** Statements the server refuses for a reason of its own: a value too long
    for its column, a lock wait timeout, a lost connection. *)
Variable rejects : statement -> bool.

(** [cursor.execute(sql, params)]. Every statement of the ingestion is in
    the MySQL dialect (pyformat markers, ON DUPLICATE KEY UPDATE), which
    sqlite3 does not parse. *)
Definition execute (st : statement) : db unit := fun c =>
  match kind c with
  | Sqlite => (Raise DatabaseError, c)
  | Mysql =>
      if rejects st then (Raise DatabaseError, c)
      else match apply_statement st (working c, auto_increment c) with
           | Raise e => (Raise e, c)
           | Ret (t', n') =>
               (Ret tt,
                mkConnection (kind c) (autocommit c)
                  (if autocommit c then t' else committed c) t' n')
           end
  end.

End Server.

End Db.

(** ** Storing a unit: the [_store_*] methods and [process_batch] *)

Module Store.

Import Db.

Record Transaction : Type := mkTransaction {
  tx_hash : string;
  tx_height : Z;
  tx_index : Z;
  tx_gas_wanted : Z;
  tx_gas_used : Z;
  tx_fee : string;
  tx_memo : string;
  tx_events : list pyval;
  tx_messages : list pyval;
  tx_raw_log : string
}.

Record Evidence : Type := mkEvidence {
  ev_height : Z;
  ev_type : string;
  ev_validator : string;
  ev_total_voting_power : Z;
  ev_timestamp : string;
  ev_raw_data : pyval
}.

Record ValidatorSignature : Type := mkValidatorSignature {
  sig_height : Z;
  sig_validator_address : string;
  sig_timestamp : string;
  sig_signature : string;
  sig_block_id_flag : Z;
  sig_voting_power : Z;
  sig_proposer_priority : Z
}.

Definition upper_char (a : ascii) : ascii :=
  let n := nat_of_ascii a in
  if ((97 <=? n) && (n <=? 122))%nat then ascii_of_nat (n - 32) else a.

(** [s.upper()] *)
Fixpoint upper (s : string) : string :=
  match s with
  | EmptyString => EmptyString
  | String a s' => String (upper_char a) (upper s')
  end.

(** [strftime('%Y-%m-%d %H:%M:%S')], also what [NOW()] reads. *)
Definition strftime_seconds (dt : Timestamp.datetime) : string :=
  Timestamp.drop_last 7 (Timestamp.strftime dt).

(** The two error lines the ingestion prints for a unit. *)
Inductive log_entry : Set :=
| ErrorFetching (height : Z)
| ErrorProcessing (height : Z).

(** The loop state of [process_batch]. *)
Record batch_state : Type := mkBatch {
  blocks_processed : Z;
  conn : connection;
  log : list log_entry
}.

Section Ingestion.

Variable rejects : statement -> bool.

(** [self.validator_names]: upper-case address to (name, original address) *)
Variable validator_names : gmap string (string * string).

(** [_get_validator_name], the definition in force (the later of the two) *)
Definition _get_validator_name (address : pyval) : result string :=
  if negb (truthy address) then Ret ""
  else match address with
       | PStr a =>
           match validator_names !! upper a with
           | Some (name, _) => Ret name
           | None => Ret ""
           end
       | _ => Raise AttributeError
       end.

(** The statement of [_store_block] with its parameter tuple; looking up
    the proposer's name may raise before anything is sent. *)
Definition block_statement (now : Timestamp.datetime) (b : Fetch.block_data)
  : result statement :=
  let mysql_timestamp := Timestamp._parse_timestamp now (Fetch.time b) in
  let proposer_address := Fetch.proposer_address b in
  proposer_name ← _get_validator_name proposer_address;
  Ret (UpsertBlock (Fetch.height b)
         [PInt (Fetch.height b); Fetch.hash b; PStr mysql_timestamp;
          proposer_address; PStr proposer_name; Fetch.chain_id b;
          PInt (Fetch.num_txs b); PInt (Fetch.num_evidence b);
          PInt (Fetch.total_gas_wanted b); PInt (Fetch.total_gas_used b);
          PStr (Fetch.total_fee b); PInt (Fetch.last_commit_round b);
          Fetch.last_block_id b; Fetch.validators_hash b;
          Fetch.next_validators_hash b; Fetch.consensus_hash b;
          Fetch.app_hash b; Fetch.last_results_hash b;
          Fetch.evidence_hash b; Fetch.last_commit_hash b;
          Fetch.data_hash b; PInt (Fetch.valid_signatures b);
          PInt (Fetch.total_signatures b); Fetch.version b;
          Fetch.parts_total b; Fetch.parts_hash b;
          PInt (Fetch.total_voting_power b);
          PInt (Fetch.proposer_priority b)]).

Definition _store_block (now : Timestamp.datetime) (b : Fetch.block_data)
  : db unit := fun c =>
  match kind c with
  | Mysql => (st ← lift (block_statement now b); execute rejects st) c
  | Sqlite => (Ret tt, c)
  end.

(** [for x in xs: body(x)] on a connection *)
Fixpoint for_each {A} (body : A -> db unit) (xs : list A) : db unit :=
  match xs with
  | [] => mret tt
  | x :: rest => _ ← body x; for_each body rest
  end.

Definition _store_transactions (now : Timestamp.datetime)
  (txs : list Transaction) : db unit := fun c =>
  match kind c with
  | Mysql =>
      let current_time := strftime_seconds now in
      for_each (fun tx =>
        execute rejects
          (UpsertTransaction (tx_hash tx)
             [PStr (tx_hash tx); PInt (tx_height tx); PInt (tx_index tx);
              PInt (tx_gas_wanted tx); PInt (tx_gas_used tx);
              PStr (tx_fee tx); PStr (tx_memo tx); PList (tx_events tx);
              PList (tx_messages tx); PStr (tx_raw_log tx);
              PStr current_time])) txs c
  | Sqlite => (Ret tt, c)
  end.

Definition _store_evidence (now : Timestamp.datetime)
  (evidence_list : list Evidence) : db unit := fun c =>
  match kind c with
  | Mysql =>
      for_each (fun ev =>
        let mysql_timestamp :=
          Timestamp._parse_timestamp now (PStr (ev_timestamp ev)) in
        execute rejects
          (InsertEvidence
             [PInt (ev_height ev); PStr (ev_type ev); PStr (ev_validator ev);
              PInt (ev_total_voting_power ev); PStr mysql_timestamp;
              ev_raw_data ev])) evidence_list c
  | Sqlite => (Ret tt, c)
  end.

Definition _store_signatures (now : Timestamp.datetime)
  (sigs : list ValidatorSignature) : db unit := fun c =>
  match kind c with
  | Mysql =>
      for_each (fun sig =>
        let mysql_timestamp :=
          Timestamp._parse_timestamp now (PStr (sig_timestamp sig)) in
        execute rejects
          (InsertSignature
             [PInt (sig_height sig); PStr (sig_validator_address sig);
              PStr mysql_timestamp; PStr (sig_signature sig);
              PInt (sig_block_id_flag sig); PInt (sig_voting_power sig);
              PInt (sig_proposer_priority sig)])) sigs c
  | Sqlite => (Ret tt, c)
  end.

(** [validator.get(k1, {}).get(k2)] *)
Definition get2 (v : pyval) (k1 k2 : string) : result pyval :=
  d ← get v k1 empty_dict; get d k2 PNone.

(** [_store_validator_set], the definition in force (the later of the two) *)
Definition _store_validator_set (now : Timestamp.datetime) (height : Z)
  (validator_set : list pyval) : db unit := fun c =>
  match kind c with
  | Mysql =>
      for_each (fun validator =>
        address ← lift (get validator "address" PNone);
        pubkey ← lift (get2 validator "pub_key" "value");
        moniker ← lift (get2 validator "description" "moniker");
        website ← lift (get2 validator "description" "website");
        identity ← lift (get2 validator "description" "identity");
        details ← lift (get2 validator "description" "details");
        rates ← lift (d ← get validator "commission" empty_dict;
                      get d "commission_rates" empty_dict);
        rate ← lift (get rates "rate" PNone);
        max_rate ← lift (get rates "max_rate" PNone);
        max_change_rate ← lift (get rates "max_change_rate" PNone);
        min_self_delegation ← lift (get validator "min_self_delegation" PNone);
        jailed ← lift (get validator "jailed" PNone);
        status ← lift (get validator "status" PNone);
        tokens ← lift (get validator "tokens" PNone);
        delegator_shares ← lift (get validator "delegator_shares" PNone);
        _ ← execute rejects
              (UpsertValidator address
                 [address; pubkey; moniker; website; identity; details; rate;
                  max_rate; max_change_rate; min_self_delegation; jailed;
                  status; tokens; delegator_shares;
                  PStr (strftime_seconds now)]);
        voting_power ← lift (get validator "voting_power" PNone);
        proposer_priority ← lift (get validator "proposer_priority" PNone);
        execute rejects
          (UpsertValidatorSet height address
             [PInt height; address; voting_power; proposer_priority]))
        validator_set c
  | Sqlite => (Ret tt, c)
  end.

(** The statements of one unit, as the inner [try] of [process_batch]
    issues them, ending with [conn.commit()]. *)
Definition store_unit (now : Timestamp.datetime) (height : Z)
  (b : Fetch.block_data) (txs : list Transaction) (evs : list Evidence)
  (sigs : list ValidatorSignature) (validator_set : list pyval) : db unit :=
  _ ← _store_block now b;
  _ ← _store_transactions now txs;
  _ ← _store_evidence now evs;
  _ ← _store_signatures now sigs;
  _ ← _store_validator_set now height validator_set;
  _ ← execute rejects (UpsertProgress height height);
  conn_commit.

(** [range(a, b + 1)] *)
Definition range_incl (a b : Z) : list Z :=
  map (fun i => a + Z.of_nat i) (seq 0 (Z.to_nat (b - a + 1))).

Variable node : Fetch.rpc.

(** The clock while a unit is being processed. *)
Variable clock : Z -> Timestamp.datetime.

(** One turn of the [for height in range(...)] loop. [fetch_block_data]
    never returns the four collection keys, so each
    [block_data.pop(key, [])] is []. A unit whose fetch gave nothing is
    passed over; a unit whose statements raise is logged, rolled back and
    passed over. *)
Definition process_height (st : batch_state) (height : Z) : batch_state :=
  match Fetch.fetch_block_data node height with
  | Some block_data =>
      match store_unit (clock height) height block_data [] [] [] []
                       (conn st) with
      | (Ret _, c') =>
          mkBatch (blocks_processed st + 1) c' (log st)
      | (Raise _, c') =>
          mkBatch (blocks_processed st) (rollback c')
                  (log st ++ [ErrorProcessing height])%list
      end
  | None =>
      mkBatch (blocks_processed st) (conn st)
              (if Fetch.fetch_raises node height
               then log st ++ [ErrorFetching height]
               else log st)%list
  end.

(** The loop of [process_batch] on a connection: the count it returns, the
    connection as it leaves it and what it printed. Nothing outside the
    inner [try] raises here, so the outer handler, which returns 0, is not
    reached. *)
Definition process_batch_on (c : connection) (start_height end_height : Z)
  : batch_state :=
  fold_left process_height (range_incl start_height end_height)
            (mkBatch 0 c []).

(** [process_batch], which takes its connection from the pool. *)
Definition process_batch (k : db_type) (t : tables) (n : counters)
  (start_height end_height : Z) : batch_state :=
  process_batch_on (get_connection k t n) start_height end_height.

(** What becomes of one unit taken alone, on a connection of kind [k]:
    whether it is committed, and the line it prints. *)
Definition unit_commits (k : db_type) (height : Z) : bool :=
  match Fetch.fetch_block_data node height with
  | Some block_data =>
      match fst (store_unit (clock height) height block_data [] [] [] []
                   (get_connection k (mkTables ∅ ∅ ∅ ∅ ∅ ∅ ∅)
                                   (mkCounters 1 1))) with
      | Ret _ => true
      | Raise _ => false
      end
  | None => false
  end.

Definition unit_log (k : db_type) (height : Z) : list log_entry :=
  match Fetch.fetch_block_data node height with
  | Some _ => if unit_commits k height then [] else [ErrorProcessing height]
  | None => if Fetch.fetch_raises node height then [ErrorFetching height]
            else []
  end.

(** The sub-ranges [ingest_blocks] submits for a positive batch size:
    [range(start, end + 1, batch_size)] with
    [batch_end = min(batch_start + batch_size - 1, end)]. *)
Definition batches (batch_size start_height end_height : Z) : list (Z * Z) :=
  map (fun i =>
         let batch_start := start_height + Z.of_nat i * batch_size in
         (batch_start, Z.min (batch_start + batch_size - 1) end_height))
      (seq 0 (Z.to_nat ((end_height - start_height + batch_size) / batch_size))).

(** [ingest_blocks] when the pool runs the sub-ranges one after the other
    in the order they were submitted (one worker): the total it returns
    and the server afterwards. *)
Definition ingest_blocks_in_order (k : db_type) (batch_size : Z)
  (start_height end_height : Z) (sv : server) : Z * server :=
  fold_left
    (fun acc ab =>
       let r := process_batch k (server_tables (snd acc))
                  (server_counters (snd acc)) (fst ab) (snd ab) in
       (fst acc + blocks_processed r,
        mkServer (committed (conn r)) (auto_increment (conn r))))
    (batches batch_size start_height end_height) (0, sv).

(** [get_last_processed_block] *)
Definition get_last_processed_block (k : db_type) (t : tables) : Z :=
  match k with
  | Mysql =>
      match ingestion_progress t !! 1 with
      | Some (last_block_processed, _) => last_block_processed
      | None => 0
      end
  | Sqlite => 0
  end.

End Ingestion.

End Store.

(** ** The progress loop: [main] of [beacon-ingestion.py] *)

Module ProgressLoop.

Import Db.

(** What is visible of one cycle from outside. *)
Inductive action : Set :=
| QueryHeight
| Sleep (seconds : Z)
| RunCoordinator (start_height end_height : Z).

(** SIGINT reaches the loop as [KeyboardInterrupt]; the SIGTERM handler
    calls [sys.exit(0)]. *)
Inductive signal : Set := SIGINT | SIGTERM.

(** What the outside world does during one cycle: it answers the
    [/abci_info] request, or it cancels the process. *)
Inductive event : Type :=
| Answer (abci_info : Fetch.http_outcome)
| Cancel (s : signal).

Inductive status : Set :=
| Looping
| ShutDownGracefully
| ExitedZero
| Failed (e : exn).

(** [int(response.json()["result"]["response"]["last_block_height"])] after
    [raise_for_status()] *)
Definition latest_height (o : Fetch.http_outcome) : result Z :=
  response ← Fetch.session_get o;
  _ ← Fetch.raise_for_status response;
  body ← Fetch.json response;
  r ← index body "result";
  r ← index r "response";
  h ← index r "last_block_height";
  int h.

Section Loop.

Variable k : db_type.

(** [ingestion.ingest_blocks(start, end)] as it changes the server,
    whatever order the workers finish in. *)
Variable ingest_blocks : Z -> Z -> server -> server.

Definition poll_interval : Z := 5.

(** One pass through the body of [while True]. *)
Definition cycle (ev : event) (sv : server) : list action * status * server :=
  match ev with
  | Cancel SIGINT => ([], ShutDownGracefully, sv)
  | Cancel SIGTERM => ([], ExitedZero, sv)
  | Answer o =>
      match latest_height o with
      | Raise e => ([QueryHeight], Failed e, sv)
      | Ret latest =>
          let start_height :=
            Store.get_last_processed_block k (server_tables sv) + 1 in
          if latest <? start_height
          then ([QueryHeight; Sleep poll_interval], Looping, sv)
          else ([QueryHeight; RunCoordinator start_height latest], Looping,
                ingest_blocks start_height latest sv)
      end
  end.

(** The loop against a finite prefix of what the outside world does. *)
Fixpoint run (evs : list event) (sv : server) : list action * status * server :=
  match evs with
  | [] => ([], Looping, sv)
  | ev :: rest =>
      match cycle ev sv with
      | (acts, Looping, sv') =>
          let '(acts', st, sv'') := run rest sv' in
          ((acts ++ acts')%list, st, sv'')
      | stopped => stopped
      end
  end.

End Loop.

(** An event that lets its cycle read the chain height. *)
Definition answered (ev : event) : Prop :=
  exists o latest, ev = Answer o /\ latest_height o = Ret latest.

Definition stopped_by (s : signal) : status :=
  match s with
  | SIGINT => ShutDownGracefully
  | SIGTERM => ExitedZero
  end.

(** [/abci_info] answering with the height [h]. *)
Definition abci_info (h : Z) : Fetch.http_outcome :=
  Fetch.Response 200
    (Some (PDict [("result", PDict [("response",
             PDict [("last_block_height", PInt h)])])])).

End ProgressLoop.

(** ** Polling the aggregate votes: [get_req] of
    [umee-pricefeeder-monitor.py] *)

Module Pricefeeder.

Inductive get_req_result : Type :=
| Returned (data : pyval) (depth : nat)
| ProcessExit (status_code : Z) (depth : nat)
| Raised (e : exn) (depth : nat)
| RecursionError (depth : nat).

(** [len(data['aggregate_votes']) > 0] *)
Definition has_votes (data : pyval) : result bool :=
  votes ← index data "aggregate_votes";
  n ← len votes;
  Ret (0 <? n).

(** [get_req(url)]: [responses n] is what the endpoint answers to the
    request number [n]; [depth] counts the calls of [get_req] below the
    first one. [frames] is how many nested calls of [get_req] the
    recursion limit of the interpreter still allows, about 975 under the
    default limit of 1000: the call after the last of them raises
    [RecursionError], which nothing in the script handles. *)
Fixpoint get_req (frames : nat) (responses : nat -> Fetch.http_outcome)
  (depth : nat) : get_req_result :=
  match frames with
  | O => RecursionError depth
  | S frames' =>
      match responses depth with
      | Fetch.NoResponse => Raised ConnectionError depth
      | Fetch.Response status_code body =>
          if status_code =? 200 then
            match (data ← Fetch.json (status_code, body);
                   b ← has_votes data;
                   Ret (data, b)) with
            | Raise e => Raised e depth
            | Ret (data, true) => Returned data depth
            | Ret (_, false) => get_req frames' responses (S depth)
            end
          else ProcessExit status_code depth
      end
  end.

(** A 200 answer whose vote list is empty. *)
Definition no_votes_yet (o : Fetch.http_outcome) : Prop :=
  exists data, o = Fetch.Response 200 (Some data) /\
               has_votes data = Ret false.

Definition votes_json (votes : list pyval) : pyval :=
  PDict [("aggregate_votes", PList votes)].

(** An endpoint that answers with no votes [n] times, then with one. *)
Definition votes_after (n : nat) (i : nat) : Fetch.http_outcome :=
  if (i <? n)%nat then Fetch.Response 200 (Some (votes_json []))
  else Fetch.Response 200 (Some (votes_json [PStr "vote"])).

(** An endpoint that never has votes. *)
Definition never_votes (i : nat) : Fetch.http_outcome :=
  Fetch.Response 200 (Some (votes_json [])).

(** The nested calls the default recursion limit leaves to [get_req]. *)
Definition default_frames : nat := 975.

End Pricefeeder.

(** ** The signing monitor: [ValidatorMonitor] of [beacond-monitor.py]

    A percentage is the exact quotient; Python computes it in binary
    floating point. *)

Module Monitor.

(** The three gauges, by validator address. *)
Record metrics : Type := mkMetrics {
  BLOCKS_SIGNED : gmap string Z;
  MISSED_BLOCKS : gmap string Z;
  SIGNING_PERCENTAGE : gmap string Q
}.

(** [a / b] *)
Definition true_div (a b : Z) : result Q :=
  if b =? 0 then Raise ZeroDivisionError
  else Ret (inject_Z a / inject_Z b)%Q.

(** [update_metrics]: the body of the [try], then the method with its
    handler, which prints and returns. *)
Definition update_body (addr : string) (signed total : Z) (m : metrics)
  : result metrics :=
  q ← true_div signed total;
  let percentage := (q * inject_Z 100)%Q in
  Ret (mkMetrics (<[addr := signed]> (BLOCKS_SIGNED m))
                 (<[addr := total - signed]> (MISSED_BLOCKS m))
                 (<[addr := percentage]> (SIGNING_PERCENTAGE m))).

Definition update_metrics (addr : string) (signed total : Z) (m : metrics)
  : metrics :=
  match update_body addr signed total m with
  | Ret m' => m'
  | Raise _ => m
  end.

(** The state of the scan over the window. *)
Record scan_state : Type := mkScan {
  blocks_checked : Z;
  signed_counts : gmap string Z
}.

Section Cycle.

Variable addresses : list string.

(** [self.get_block(height)] and [self.get_validator_set(height)], after
    [make_request] has tried every endpoint. *)
Variable get_block : Z -> option pyval.
Variable get_validator_set : Z -> option pyval.

Definition total_blocks : Z := 100.

(** [validator_addr in self.addresses] *)
Definition monitored (validator_addr : pyval) : option string :=
  match validator_addr with
  | PStr a => if existsb (String.eqb a) addresses then Some a else None
  | _ => None
  end.

(** The loop over the signatures inside its [try]: what was added to
    [signed_vals] before an exception stays added. *)
Fixpoint collect_signed (sigs : list pyval) (signed_vals : gset string)
  : gset string :=
  match sigs with
  | [] => signed_vals
  | sig :: rest =>
      match sig with
      | PDict d =>
          match get sig "validator_address" PNone with
          | Raise _ => signed_vals
          | Ret validator_addr =>
              match monitored validator_addr with
              | Some a =>
                  match (flag ← get sig "block_id_flag" (PInt 0); gt flag 1) with
                  | Raise _ => signed_vals
                  | Ret true => collect_signed rest ({[a]} ∪ signed_vals)
                  | Ret false => collect_signed rest signed_vals
                  end
              | None => collect_signed rest signed_vals
              end
          end
      | _ => collect_signed rest signed_vals
      end
  end.

(** [try: ... except Exception: print(...)] around the signature check *)
Definition signed_in_block (block : pyval) : gset string :=
  match (r ← index block "result";
         b ← index r "block";
         commit ← index b "last_commit";
         signatures ← get commit "signatures" empty_list;
         iter signatures) with
  | Ret sigs => collect_signed sigs ∅
  | Raise _ => ∅
  end.

(** [for addr in self.addresses: if addr in signed_vals: ... += 1] *)
Definition bump (signed_vals : gset string) (counts : gmap string Z)
  : gmap string Z :=
  fold_left (fun cs addr =>
               if decide (addr ∈ signed_vals)
               then match cs !! addr with
                    | Some n => <[addr := n + 1]> cs
                    | None => cs
                    end
               else cs) addresses counts.

(** [not val_set or 'result' not in val_set
     or 'validators' not in val_set['result']] *)
Definition unusable (val_set : option pyval) : result bool :=
  match val_set with
  | None => Ret true
  | Some v =>
      if negb (truthy v) then Ret true
      else
        has ← contains "result" v;
        if negb has then Ret true
        else
          r ← index v "result";
          has' ← contains "validators" r;
          Ret (negb has')
  end.

(** The [for height in range(...)] loop; [Ret (true, _)] is the [break]. *)
Definition scan_height (s : scan_state) (height : Z)
  : result (bool * scan_state) :=
  match get_block height with
  | None => Ret (false, s)
  | Some block =>
      if negb (truthy block) then Ret (false, s)
      else
        let checked := blocks_checked s + 1 in
        if total_blocks <? checked
        then Ret (true, mkScan checked (signed_counts s))
        else
          skip ← unusable (get_validator_set height);
          if (skip : bool) then Ret (false, mkScan checked (signed_counts s))
          else Ret (false,
                    mkScan checked
                      (bump (signed_in_block block) (signed_counts s)))
  end.

Fixpoint scan (heights : list Z) (s : scan_state) : result scan_state :=
  match heights with
  | [] => Ret s
  | h :: rest =>
      r ← scan_height s h;
      if (fst r : bool) then Ret (snd r) else scan rest (snd r)
  end.

(** One line of the printed summary. *)
Record summary_line : Type := mkLine {
  line_addr : string;
  line_signed : Z;
  line_total : Z;
  line_percentage : Q
}.

(** The summary loop: the line printed and the gauges updated for every
    address. A key absent from [signed_counts] cannot occur: the dict is
    built from [self.addresses]. *)
Fixpoint summarize (addrs : list string) (s : scan_state) (m : metrics)
  : result (list summary_line * metrics) :=
  match addrs with
  | [] => Ret ([], m)
  | addr :: rest =>
      let actual_total_blocks := Z.min (blocks_checked s) total_blocks in
      match signed_counts s !! addr with
      | None => Raise KeyError
      | Some n =>
          let signed := Z.min n actual_total_blocks in
          percentage ← (if 0 <? actual_total_blocks
                        then q ← true_div signed actual_total_blocks;
                             Ret (q * inject_Z 100)%Q
                        else Ret (inject_Z 0) : result Q);
          let m' := update_metrics addr signed actual_total_blocks m in
          r ← summarize rest s m';
          Ret (mkLine addr signed actual_total_blocks percentage :: fst r,
               snd r)
      end
  end.

(** [{addr: 0 for addr in self.addresses}] *)
Definition initial_counts : gmap string Z :=
  list_to_map (map (fun a => (a, 0)) addresses).

(** One pass through the body of [while True], from the latest block to
    the end of the summary: [Ret None] when there is no latest block (the
    loop sleeps and goes round), otherwise the final scan state, the
    printed lines and the gauges; a [Raise] is what the [except Exception]
    of the monitoring loop catches. *)
Definition monitor_cycle (latest_block : option pyval) (m : metrics)
  : result (option (scan_state * list summary_line * metrics)) :=
  match latest_block with
  | None => Ret None
  | Some latest_block =>
      if negb (truthy latest_block) then Ret None
      else
        r ← index latest_block "result";
        b ← index r "block";
        hd ← index b "header";
        hv ← index hd "height";
        latest_height ← int hv;
        let start_height := Z.max 1 (latest_height - total_blocks + 1) in
        s ← scan (Store.range_incl start_height latest_height)
                 (mkScan 0 initial_counts);
        out ← summarize addresses s m;
        Ret (Some (s, fst out, snd out))
  end.

End Cycle.

(** What the summary promises of a line, given the scan it reports on. *)
Definition line_within_bounds (s : scan_state) (l : summary_line) : Prop :=
  0 <= line_signed l /\
  line_signed l <= line_total l /\
  line_total l <= blocks_checked s /\
  (inject_Z 0 <= line_percentage l)%Q /\
  (line_percentage l <= inject_Z 100)%Q /\
  (blocks_checked s = 0 -> line_percentage l = inject_Z 0).

(** The scan state keeps its counters at or above zero. *)
Definition counters_nonnegative (s : scan_state) : Prop :=
  0 <= blocks_checked s /\
  forall addr n, signed_counts s !! addr = Some n -> 0 <= n.

End Monitor.

(** ** The progress row under a schedule of updates *)

Module Watermark.

Import Db.

Definition accept_all (st : statement) : bool := false.

(** The progress statement of [process_batch] for one unit, sent on a pool
    connection over the store [t]; the result is what readers see next. *)
Definition progress_update (t : tables) (unit : Z) : tables :=
  committed
    (snd (execute accept_all (UpsertProgress unit unit)
            (get_connection Mysql t (mkCounters 1 1)))).

(** The updates of several workers, in the order the server serves them. *)
Definition commit_units (t : tables) (units : list Z) : tables :=
  fold_left progress_update units t.

Definition watermark (t : tables) : Z :=
  Store.get_last_processed_block Mysql t.

Definition max_unit (units : list Z) : Z := fold_right Z.max 0 units.

Definition empty_tables : tables := mkTables ∅ ∅ ∅ ∅ ∅ ∅ ∅.

End Watermark.

(** ** Concrete runs used below *)

Module Scenario.

Import Db.

Definition now : Timestamp.datetime :=
  Timestamp.mkDatetime 2026 11 3 12 0 0 987654.

Definition fresh : connection :=
  get_connection Mysql Watermark.empty_tables (mkCounters 1 1).

Definition sig7 : Store.ValidatorSignature :=
  Store.mkValidatorSignature 7 "AB12" "2024-01-01T00:00:00.5Z" "c2ln" 2 10 0.

Definition ev7 : Store.Evidence :=
  Store.mkEvidence 7 "duplicate_vote" "AB12" 10 "2024-01-01T00:00:00Z"
                   empty_dict.

Definition tx7 : Store.Transaction :=
  Store.mkTransaction "F00D" 7 0 100 90 "5" "" [] [] "".

(** The block at height [h], as [/block] returns it. *)
Definition block_json (h : Z) (sigs : list pyval) : pyval :=
  PDict [("result", PDict [("block", PDict [
    ("header", PDict [("height", PInt h);
                      ("proposer_address", PStr "AB12");
                      ("time", PStr "2024-01-01T00:00:00.123456789Z")]);
    ("last_commit", PDict [("round", PInt 0);
                           ("signatures", PList sigs)])])])].

Definition validators_json : pyval :=
  PDict [("result", PDict [("validators", PList [
    PDict [("address", PStr "CD34"); ("voting_power", PStr "5");
           ("proposer_priority", PStr "1")];
    PDict [("address", PStr "AB12"); ("voting_power", PStr "9");
           ("proposer_priority", PStr "-3")]])])].

(** A node that serves every height. *)
Definition healthy_node : Fetch.rpc :=
  Fetch.mkRpc (fun h => Fetch.Response 200 (Some (block_json h [])))
              (fun _ => Fetch.Response 200 (Some validators_json)).

(** A node whose [/validators] endpoint answers 500. *)
Definition no_validators_node : Fetch.rpc :=
  Fetch.mkRpc (fun h => Fetch.Response 200 (Some (block_json h [])))
              (fun _ => Fetch.Response 500 None).

(** A node whose [/validators] answer has no ["result"]. *)
Definition empty_validators_node : Fetch.rpc :=
  Fetch.mkRpc (fun h => Fetch.Response 200 (Some (block_json h [])))
              (fun _ => Fetch.Response 200 (Some empty_dict)).

(** A server that refuses the progress statement of unit 7, say on a lock
    wait timeout on the single progress row. *)
Definition refuse_progress_7 (st : statement) : bool :=
  match st with
  | UpsertProgress b _ => b =? 7
  | _ => false
  end.

(** A server that refuses every signature row. *)
Definition refuse_signatures (st : statement) : bool :=
  match st with
  | InsertSignature _ => true
  | _ => false
  end.

Definition fixed_clock (h : Z) : Timestamp.datetime := now.

(** The coordinator over the healthy node, sub-ranges of 100 units run in
    order. *)
Definition ingest_healthy (a b : Z) (sv : server) : server :=
  snd (Store.ingest_blocks_in_order Watermark.accept_all ∅ healthy_node
         fixed_clock Mysql 100 a b sv).

Definition empty_server : server :=
  mkServer Watermark.empty_tables (mkCounters 1 1).

(** A window for the signing monitor: every block is signed by AB12 and
    carries an absent vote of CD34. *)
Definition monitored_addresses : list string := ["AB12"; "CD34"].

Definition signed_block (h : Z) : option pyval :=
  Some (block_json h
          [PDict [("validator_address", PStr "AB12"); ("block_id_flag", PInt 2)];
           PDict [("validator_address", PStr "CD34"); ("block_id_flag", PInt 1)]]).

Definition served_validators (h : Z) : option pyval := Some validators_json.

(** The same monitor when no block of the window can be fetched. *)
Definition no_block (h : Z) : option pyval := None.

Definition no_metrics : Monitor.metrics := Monitor.mkMetrics ∅ ∅ ∅.

(** A node whose block 42 carries a height that is not a number, so that
    building the payload of unit 42 raises. *)
Definition malformed_42_node : Fetch.rpc :=
  Fetch.mkRpc
    (fun h =>
       if h =? 42
       then Fetch.Response 200
              (Some (PDict [("result", PDict [("block", PDict [
                 ("header", PDict [("height", PStr "forty-two")])])])]))
       else Fetch.Response 200 (Some (block_json h [])))
    (fun _ => Fetch.Response 200 (Some validators_json)).

End Scenario.

(** ** Signature entries as the specification writes them *)

Module Signatures.

(** Following the specification, for an entry of the last commit as the
    node sends it, a JSON object with [block_id_flag], [validator_address],
    [timestamp] and [signature] or any other keys: the flag is COMMIT or
    NIL, that is greater than 1 (an absent flag reads as 0), and the
    signature value is not empty. *)
Definition spec_flag (sig : list (string * pyval)) : Z :=
  match assoc "block_id_flag" sig with
  | Some (PInt f) => f
  | Some (PBool b) => if b then 1 else 0
  | _ => 0
  end.

Definition spec_valid (sig : pyval) : bool :=
  match sig with
  | PDict d =>
      (1 <? spec_flag d) &&
      match assoc "signature" d with
      | Some s => truthy s
      | None => false
      end
  | _ => false
  end.

Definition spec_valid_count (sigs : list pyval) : Z :=
  Z.of_nat (length (List.filter spec_valid sigs)).

(** [block.get("last_commit", {}).get("signatures", [])] of a [/block]
    answer. *)
Definition last_commit_signatures (res : pyval) : result pyval :=
  inner ← index res "result";
  block ← get inner "block" PNone;
  last_commit ← get block "last_commit" empty_dict;
  get last_commit "signatures" empty_list.

(** An entry with the four keys the node sends. *)
Definition signature_entry (block_id_flag : Z) (validator_address : string)
  (timestamp : string) (signature : string) : pyval :=
  PDict [("block_id_flag", PInt block_id_flag);
         ("validator_address", PStr validator_address);
         ("timestamp", PStr timestamp);
         ("signature", PStr signature)].

(** The list of the specification's example. *)
Definition example_signatures : list pyval :=
  [signature_entry 2 "AB12" "2024-01-01T00:00:00.5Z" "a";
   signature_entry 1 "" "0001-01-01T00:00:00Z" "";
   signature_entry 3 "CD34" "2024-01-01T00:00:00.7Z" "b";
   signature_entry 2 "EF56" "2024-01-01T00:00:00.9Z" ""].

Definition example_node : Fetch.rpc :=
  Fetch.mkRpc
    (fun h => Fetch.Response 200
                (Some (Scenario.block_json h example_signatures)))
    (fun _ => Fetch.Response 200 (Some Scenario.validators_json)).

End Signatures.

(** ** The companion request of a unit *)

Module Companion.

Import Fetch.

(** The [/validators] round trip of [fetch_block_data]: the request,
    [raise_for_status()], [json()]. *)
Definition validators_answer (node : rpc) (h : Z) : result pyval :=
  val_response ← session_get (validators_endpoint node h);
  _ ← raise_for_status val_response;
  json val_response.

(** The [/block] round trip. *)
Definition block_answer (node : rpc) (h : Z) : result pyval :=
  response ← session_get (block_endpoint node h);
  _ ← raise_for_status response;
  json response.

(** The same node with another answer on [/validators]. *)
Definition with_validators (node : rpc) (o : http_outcome) : rpc :=
  mkRpc (block_endpoint node) (fun _ => o).

(** The payload with both proposer fields at zero. *)
Definition zero_power (b : block_data) : block_data :=
  mkBlockData (height b) (hash b) (time b) (proposer_address b) (chain_id b)
    (num_txs b) (num_evidence b) (total_gas_wanted b) (total_gas_used b)
    (total_fee b) (last_commit_round b) (last_block_id b)
    (validators_hash b) (next_validators_hash b) (consensus_hash b)
    (app_hash b) (last_results_hash b) (evidence_hash b)
    (last_commit_hash b) (data_hash b) (valid_signatures b)
    (total_signatures b) (version b) (parts_total b) (parts_hash b) 0 0.

End Companion.

(** * Further parts of the scripts *)

(** ** Validator-set entries as the node lists them *)

Module ValidatorSet.

(** [int(validator.get(key, 0))] *)
Definition int_field (validator : pyval) (key : string) : result Z :=
  x ← get validator key (PInt 0); int x.

(** The entry [validator] has, or has not, the address [proposer]. *)
Definition has_address (proposer : pyval) (b : bool) (validator : pyval)
  : Prop :=
  exists a, get validator "address" PNone = Ret a /\ eqb a proposer = b.

(** The entries of a [/validators] answer, with the public key and the
    powers as text, as the node sends them. *)
Definition listed : list pyval :=
  [PDict [("address", PStr "CD34");
          ("pub_key", PDict [("type", PStr "tendermint/PubKeyEd25519");
                             ("value", PStr "c2ln")]);
          ("voting_power", PStr "5"); ("proposer_priority", PStr "1")];
   PDict [("address", PStr "AB12");
          ("pub_key", PDict [("type", PStr "tendermint/PubKeyEd25519");
                             ("value", PStr "a2V5")]);
          ("voting_power", PStr "9"); ("proposer_priority", PStr "-3")];
   PDict [("address", PStr "AB12");
          ("voting_power", PStr "1"); ("proposer_priority", PStr "0")]].

End ValidatorSet.

(** ** Zone markers *)

Module Zone.

(** [n] times the letter Z. *)
Fixpoint markers (n : nat) : string :=
  match n with
  | O => EmptyString
  | S n' => String "Z" (markers n')
  end.

End Zone.

(** ** Statements that insert or update on their key *)

Module Upsert.

Import Db.

(** The statements written with ON DUPLICATE KEY UPDATE, their key being a
    value the column accepts. *)
Definition is_upsert (st : statement) : bool :=
  match st with
  | UpsertBlock _ _ | UpsertTransaction _ _ | UpsertProgress _ _ => true
  | UpsertValidator (PStr _) _ | UpsertValidatorSet _ (PStr _) _ => true
  | _ => false
  end.

(** The plain INSERTs under an AUTO_INCREMENT key. *)
Definition is_insert (st : statement) : bool :=
  match st with
  | InsertEvidence _ | InsertSignature _ => true
  | _ => false
  end.

(** What an accepted statement does to the tables. *)
Definition effect (st : statement) (t : tables) : tables :=
  match apply_statement st (t, mkCounters 0 0) with
  | Ret (t', _) => t'
  | Raise _ => t
  end.

Definition effect_all (sts : list statement) (t : tables) : tables :=
  fold_left (fun t st => effect st t) sts t.

(** A pool connection after the statements [sts] were accepted on it. *)
Definition after (sts : list statement) (c : connection) : connection :=
  mkConnection (kind c) (autocommit c) (effect_all sts (working c))
               (effect_all sts (working c)) (auto_increment c).

(** On a MySQL pool connection the program [p] ends with [r] after the
    server has accepted exactly the statements [sts], all of them upserts. *)
Definition runs_as {A} (p : db A) (sts : list statement) (r : result A)
  : Prop :=
  Forall (fun st => is_upsert st = true) sts /\
  forall c, kind c = Mysql -> pool_connection c -> p c = (r, after sts c).

Definition traced {A} (p : db A) : Prop :=
  exists sts r, runs_as p sts r.

(** Two upserts write the row of the same key in the same table. *)
Definition same_row (x y : statement) : bool :=
  match x, y with
  | UpsertBlock h1 _, UpsertBlock h2 _ => h1 =? h2
  | UpsertTransaction h1 _, UpsertTransaction h2 _ => String.eqb h1 h2
  | UpsertValidator (PStr a1) _, UpsertValidator (PStr a2) _ =>
      String.eqb a1 a2
  | UpsertValidatorSet h1 (PStr a1) _, UpsertValidatorSet h2 (PStr a2) _ =>
      (h1 =? h2) && String.eqb a1 a2
  | UpsertProgress _ _, UpsertProgress _ _ => true
  | _, _ => false
  end.

(** A server whose refusal of an upsert goes by the row it writes, not by
    the values written: a lock on the row, a key the column refuses. *)
Definition refuses_by_row (rejects : statement -> bool) : Prop :=
  forall x y, same_row x y = true -> rejects x = rejects y.

(** Two programs that end alike on a MySQL pool connection, after upserts
    of the same rows in the same order. *)
Definition runs_alike {A} (p1 p2 : db A) : Prop :=
  exists sts1 sts2 r,
    runs_as p1 sts1 r /\ runs_as p2 sts2 r /\
    Forall2 (fun x y => same_row x y = true) sts1 sts2.

(** The same rows, by key, in every table: no row more, no row less. *)
Definition same_keys (t t' : tables) : Prop :=
  dom (cosmos_blocks t) =@{gset Z} dom (cosmos_blocks t') /\
  dom (transactions t) =@{gset string} dom (transactions t') /\
  dom (evidence t) =@{gset Z} dom (evidence t') /\
  dom (validators t) =@{gset string} dom (validators t') /\
  dom (signatures t) =@{gset Z} dom (signatures t') /\
  dom (validator_sets t) =@{gset (Z * string)} dom (validator_sets t') /\
  dom (ingestion_progress t) =@{gset Z} dom (ingestion_progress t').

(** The ids the AUTO_INCREMENT counters will hand out are not in use. *)
Definition ids_fresh (c : connection) : Prop :=
  (forall i, next_signature_id (auto_increment c) <= i ->
             signatures (working c) !! i = None) /\
  (forall i, next_evidence_id (auto_increment c) <= i ->
             evidence (working c) !! i = None).

(** A store method called at [now1] and then again at [now2]. *)
Definition applied_once (m : Timestamp.datetime -> db unit)
  (now1 : Timestamp.datetime) (c : connection) : connection :=
  snd (m now1 c).

Definition applied_twice (m : Timestamp.datetime -> db unit)
  (now1 now2 : Timestamp.datetime) (c : connection) : connection :=
  snd (m now2 (snd (m now1 c))).

End Upsert.

(** ** A sub-range seen from the progress row *)

Module Resume.

(** The last unit of [l] that commits, [w] when none does. *)
Definition last_committed (commits : Z -> bool) (l : list Z) (w : Z) : Z :=
  fold_left (fun w h => if commits h then h else w) l w.

(** The units of the sub-ranges, one sub-range after the other. *)
Definition units_of (subranges : list (Z * Z)) : list Z :=
  concat (map (fun ab => Store.range_incl (fst ab) (snd ab)) subranges).

(** The tables of child rows and of validators hold the same in [t] and
    [t']. *)
Definition same_child_tables (t t' : Db.tables) : Prop :=
  Db.transactions t' = Db.transactions t /\
  Db.evidence t' = Db.evidence t /\
  Db.validators t' = Db.validators t /\
  Db.signatures t' = Db.signatures t /\
  Db.validator_sets t' = Db.validator_sets t.

(** A connection is as the pool hands it out over what it has committed. *)
Definition as_handed_out (c : Db.connection) : Prop :=
  c = Db.get_connection (Db.kind c) (Db.committed c) (Db.auto_increment c).

End Resume.

(** ** What is read off the signing monitor's state *)

Module Gauges.

Import Monitor.

(** The three gauges of one address. *)
Definition gauges_of (m : metrics) (addr : string)
  : option Z * option Z * option Q :=
  (BLOCKS_SIGNED m !! addr, MISSED_BLOCKS m !! addr,
   SIGNING_PERCENTAGE m !! addr).

(** No count is above the number of blocks checked. *)
Definition counts_within_checked (s : scan_state) : Prop :=
  forall a n, signed_counts s !! a = Some n -> n <= blocks_checked s.

End Gauges.

(** ** The validator names: [load_validator_mappings] *)

Module Mappings.

Import Store.

(** [address, name = mapping.split(':', 1)]: [None] is the [ValueError] of
    the unpacking, raised when the mapping holds no separator. *)
Fixpoint split_once (c : ascii) (s : string) : option (string * string) :=
  match s with
  | EmptyString => None
  | String a s' =>
      if Ascii.eqb a c then Some (EmptyString, s')
      else match split_once c s' with
           | Some (h, t) => Some (String a h, t)
           | None => None
           end
  end.

(** The body of [for mapping in mappings]: a mapping that is not a string,
    that has no separator or that has an empty side is passed over. *)
Definition add_mapping (validator_names : gmap string (string * string))
  (mapping : pyval) : gmap string (string * string) :=
  match mapping with
  | PStr m =>
      match split_once ":" m with
      | Some (address, name) =>
          let original_address := strip address in
          let uppercase_address := upper original_address in
          let name := strip name in
          if negb (truthy (PStr original_address)) || negb (truthy (PStr name))
          then validator_names
          else <[uppercase_address := (name, original_address)]>
                 validator_names
      | None => validator_names
      end
  | _ => validator_names
  end.

(** What is found at the path of the mappings: no file, a file that
    cannot be read as YAML, or the value [yaml.safe_load] gives. *)
Inductive mappings_file : Type :=
| Missing
| Unreadable
| Parsed (data : pyval).

Definition load_validator_mappings (file : mappings_file)
  : gmap string (string * string) :=
  match file with
  | Missing => ∅
  | Unreadable => ∅
  | Parsed data =>
      match data with
      | PDict d =>
          match assoc "validators" d with
          | Some (PList mappings) => fold_left add_mapping mappings ∅
          | _ => ∅
          end
      | _ => ∅
      end
  end.

(** What a mapping must satisfy to be kept. *)
Definition well_formed (key : string) (info : string * string) : Prop :=
  key = upper (snd info) /\ fst info <> "" /\ snd info <> "".

End Mappings.

(** ** The endpoints of the signing monitor: [make_request] and its
    helpers in [beacond-monitor.py] *)

Module Failover.

Import Fetch.

Record monitor : Type := mkMonitor {
  rpc_endpoints : list string;
  current_rpc_index : Z
}.

(** What leaves [make_request] other than through its handler. *)
Inductive raised : Set :=
| IndexError
| ZeroDivisionError
| JSONError.

Inductive outcome : Type :=
| Returned (v : pyval)
| Raised (e : raised).

(** [l[i]]: a negative index counts from the end; [None] is the
    IndexError. *)
Definition item {A} (l : list A) (i : Z) : option A :=
  let n := Z.of_nat (length l) in
  if (0 <=? i) && (i <? n) then nth_error l (Z.to_nat i)
  else if (- n <=? i) && (i <? 0) then nth_error l (Z.to_nat (n + i))
  else None.

(** [get_active_rpc] *)
Definition get_active_rpc (self : monitor) : option string :=
  item (rpc_endpoints self) (current_rpc_index self).

(** [switch_rpc]: the index is assigned before the new endpoint is read. *)
Definition switch_rpc (self : monitor) : option raised * monitor :=
  let n := Z.of_nat (length (rpc_endpoints self)) in
  if n =? 0 then (Some ZeroDivisionError, self)
  else
    let self' := mkMonitor (rpc_endpoints self)
                           ((current_rpc_index self + 1) mod n) in
    match get_active_rpc self' with
    | Some _ => (None, self')
    | None => (Some IndexError, self')
    end.

(** [s.split('/')[2]] *)
Definition host (s : string) : option string :=
  nth_error (Timestamp.split "/"%char s) 2.

(** [s.replace(old, new)] for an empty [old]: [new] goes before every
    character and after the last. *)
Fixpoint join_after (new s : string) : string :=
  match s with
  | EmptyString => EmptyString
  | String c s' => String c (new ++ join_after new s')
  end.

(** [s.replace(old, new)] for a non-empty [old], from left to right;
    [skip] characters of an occurrence just replaced are still to pass. *)
Fixpoint replace_from (old new : string) (skip : nat) (s : string)
  : string :=
  match s with
  | EmptyString => EmptyString
  | String c s' =>
      match skip with
      | S k => replace_from old new k s'
      | O =>
          if String.prefix old s
          then new ++ replace_from old new (String.length old - 1) s'
          else String c (replace_from old new 0 s')
      end
  end.

Definition replace (old new s : string) : string :=
  match old with
  | EmptyString => new ++ join_after new s
  | _ => replace_from old new 0 s
  end.

(** The number of [c] in [s]. *)
Fixpoint occurrences (c : ascii) (s : string) : nat :=
  match s with
  | EmptyString => 0
  | String a s' => (if Ascii.eqb a c then 1 else 0) + occurrences c s'
  end.

Section Requests.

(** [requests.get(url, params=params)] for the parameters of the call. *)
Variable http_get : string -> http_outcome.

(** Whether the error [response.json()] raises on a body that is not JSON
    is a [RequestException]: it is one from requests 2.27 on. *)
Variable json_error_is_request_exception : bool.

Inductive attempt : Type :=
| Got (v : pyval)
| Caught
| Uncaught (e : raised).

(** The body of the [try]. *)
Definition try_get (url : string) : attempt :=
  match (r ← session_get (http_get url);
         _ ← raise_for_status r;
         json r) with
  | Ret v => Got v
  | Raise JSONDecodeError =>
      if json_error_is_request_exception then Caught else Uncaught JSONError
  | Raise _ => Caught
  end.

(** The handler: it prints the active endpoint, switches to the next one
    and puts the host of the new endpoint in the place of the host of the
    URL. *)
Definition fail_over (url : string) (self : monitor)
  : (raised + string) * monitor :=
  match get_active_rpc self with
  | None => (inl IndexError, self)
  | Some _ =>
      match switch_rpc self with
      | (Some e, self') => (inl e, self')
      | (None, self') =>
          match host url with
          | None => (inl IndexError, self')
          | Some old =>
              match get_active_rpc self' with
              | None => (inl IndexError, self')
              | Some active =>
                  match host active with
                  | None => (inl IndexError, self')
                  | Some new => (inr (replace old new url), self')
                  end
              end
          end
      end
  end.

(** [for _ in range(len(self.rpc_endpoints))] *)
Fixpoint attempts (n : nat) (url : string) (self : monitor)
  : outcome * monitor :=
  match n with
  | O => (Returned PNone, self)
  | S n' =>
      match try_get url with
      | Got v => (Returned v, self)
      | Uncaught e => (Raised e, self)
      | Caught =>
          match fail_over url self with
          | (inl e, self') => (Raised e, self')
          | (inr url', self') => attempts n' url' self'
          end
      end
  end.

Definition make_request (url : string) (self : monitor)
  : outcome * monitor :=
  attempts (length (rpc_endpoints self)) url self.

(** [get_block] and [get_validator_set], which differ in the path. *)
Definition get_path (path : string) (self : monitor) : outcome * monitor :=
  match get_active_rpc self with
  | None => (Raised IndexError, self)
  | Some rpc => make_request (rpc ++ path) self
  end.

Definition get_block : monitor -> outcome * monitor := get_path "/block".

Definition get_validator_set : monitor -> outcome * monitor :=
  get_path "/validators".

End Requests.

(** The index points into the list. *)
Definition index_in_range (self : monitor) : Prop :=
  0 <= current_rpc_index self < Z.of_nat (length (rpc_endpoints self)).

(** [find_validator_index], over [enumerate(validators)] from [idx]. *)
Fixpoint find_validator_index_from (idx : Z) (validator_address : pyval)
  (validators : list pyval) : result (option Z) :=
  match validators with
  | [] => Ret None
  | validator :: rest =>
      a ← get validator "address" PNone;
      if eqb a validator_address then Ret (Some idx)
      else find_validator_index_from (idx + 1) validator_address rest
  end.

Definition find_validator_index (validator_address : pyval)
  (validators : list pyval) : result (option Z) :=
  find_validator_index_from 0 validator_address validators.

End Failover.

(** ** Later readings of the clock *)

Module Later.

(** A day after [Scenario.now]. *)
Definition now : Timestamp.datetime :=
  Timestamp.mkDatetime 2026 11 4 12 0 0 123456.

Definition clock (h : Z) : Timestamp.datetime := now.

(** A node whose blocks carry no time, so that the time stored for a
    block is the one the clock reads. *)
Definition timeless_node : Fetch.rpc :=
  Fetch.mkRpc
    (fun h => Fetch.Response 200
                (Some (PDict [("result", PDict [("block", PDict [
                   ("header", PDict [("height", PInt h);
                                     ("proposer_address", PStr "AB12")]);
                   ("last_commit", PDict [("round", PInt 0);
                                          ("signatures", PList [])])])])])))
    (fun _ => Fetch.Response 200 (Some Scenario.validators_json)).

End Later.

(** ** Endpoints used in the runs below *)

Module Endpoints.

Definition two_endpoints : list string :=
  ["http://alpha:26657"; "http://beta:26657"].

(** The first endpoint answers, the second is down. *)
Definition only_first_answers (url : string) : Fetch.http_outcome :=
  if String.eqb url "http://alpha:26657/block"
  then Fetch.Response 200 (Some (PDict []))
  else Fetch.NoResponse.

Definition all_down (url : string) : Fetch.http_outcome := Fetch.NoResponse.

Definition three_validators : list pyval :=
  [PDict [("address", PStr "CD34")];
   PDict [("address", PStr "AB12"); ("voting_power", PStr "9")];
   PDict [("address", PStr "AB12"); ("voting_power", PStr "1")]].

End Endpoints.
(** * Properties *)

(** ** Proof steps for chains of binds *)

(** Turns a hypothesis [H] saying that a chain of binds returned into the
    equations of its steps. *)
Ltac bind_inv H :=
  unfold mbind, result_bind in H;
  repeat match type of H with
         | (if ?b then _ else _) = _ =>
             let E := fresh "E" in
             destruct b eqn:E; [discriminate H|]
         | (match ?m with Ret _ => _ | Raise _ => _ end) = _ =>
             let E := fresh "E" in
             destruct m eqn:E; [|discriminate H]
         end.

(** Two steps that read the same expression read the same value. *)
Ltac same_reads :=
  repeat match goal with
         | H1 : ?x = Ret ?a, H2 : ?x = Ret ?b |- _ =>
             assert (a = b) by congruence; clear H2; subst
         end.

(** Replays in the goal the steps a hypothesis has already named. *)
Ltac replay :=
  repeat match goal with
         | H : ?x = Ret _ |- context [match ?x with Ret _ => _ | Raise _ => _ end] =>
             rewrite H
         | H : ?b = false |- context [if ?b then _ else _] => rewrite H
         | H : ?b = true |- context [if ?b then _ else _] => rewrite H
         end.


Section WatermarkProperties.

Import Db Watermark.

Lemma watermark_progress_update t u :
  watermark (progress_update t u) = u.
Proof.
  unfold watermark, progress_update, Store.get_last_processed_block.
  cbn. by rewrite lookup_insert_eq.
Qed.

Lemma commit_units_snoc t us u :
  commit_units t (us ++ [u])%list = progress_update (commit_units t us) u.
Proof. unfold commit_units. by rewrite fold_left_app. Qed.

Lemma max_unit_sorted_snoc us u :
  0 <= u -> Sorted.Sorted Z.le (us ++ [u])%list -> max_unit (us ++ [u])%list = u.
Proof.
  intros Hu. induction us as [|v us IH]; intros Hs; cbn.
  - lia.
  - inversion Hs as [|? ? Hs' Hhd]; subst.
    unfold max_unit in IH. rewrite (IH Hs').
    assert (v <= u); [|lia].
    clear IH. revert Hhd Hs'. destruct us as [|w us]; cbn; intros Hhd Hs'.
    + by inversion Hhd.
    + inversion Hhd; subst.
      apply Sorted.Sorted_StronglySorted in Hs'; [|intros ? ? ? ? ?; lia].
      inversion Hs' as [|? ? _ Hall]; subst.
      rewrite Forall_forall in Hall.
      assert (w <= u); [|lia].
      apply Hall. apply list_elem_of_In. apply in_or_app. right. by left.
Qed.

(** C1, as the code has it: the progress statement overwrites the row, so
    after any schedule of updates the stored value is the unit of the update
    served last; when the updates are served in non-decreasing order of
    unit, as within one sub-range, that value is the maximum committed. *)
Theorem watermark_is_last_served (t : Db.tables) (us : list Z) (u : Z) :
  watermark (commit_units t (us ++ [u])%list) = u /\
  (0 <= u -> Sorted.Sorted Z.le (us ++ [u])%list ->
   watermark (commit_units t (us ++ [u])%list) = max_unit (us ++ [u])%list).
Proof.
  rewrite commit_units_snoc, watermark_progress_update. split; [done|].
  intros Hu Hs. by rewrite max_unit_sorted_snoc.
Qed.

Lemma watermark_is_last_served_witness :
  watermark (commit_units empty_tables ([3; 4] ++ [5])%list) = 5 /\
  watermark (commit_units empty_tables ([3; 4] ++ [5])%list)
  = max_unit ([3; 4] ++ [5])%list.
Proof.
  destruct (watermark_is_last_served empty_tables [3; 4] 5) as [H1 H2].
  split; [exact H1|].
  apply H2; [lia|].
  repeat constructor; lia.
Defined.

(** C1 fails as stated: two workers commit units 5 and 3 in that order;
    the stored value ends at 3, below the maximum 5 and below what it was
    after the first update. *)
Lemma watermark_not_monotonic_max :
  watermark (commit_units empty_tables [5; 3]) = 3 /\
  max_unit [5; 3] = 5 /\
  watermark (commit_units empty_tables [5; 3])
  < watermark (commit_units empty_tables [5]).
Proof. vm_compute. repeat split. Qed.

End WatermarkProperties.

Section StoreProperties.

Import Db Store Scenario Watermark.

(** On an autocommit connection an accepted statement is visible to every
    reader at once, and [rollback] has nothing left to undo. *)
Lemma execute_autocommit_visible rejects st c r c' :
  autocommit c = true ->
  execute rejects st c = (r, c') ->
  committed c' = working c' /\ autocommit c' = true \/ c' = c.
Proof.
  intros Ha. unfold execute.
  destruct (kind c); [intros [= <- <-]; by right|].
  destruct (rejects st); [intros [= <- <-]; by right|].
  destruct (apply_statement st _) as [[t' n']|e]; intros [= <- <-];
    [left|by right].
  cbn. by rewrite Ha.
Qed.

Lemma rollback_autocommit_noop c :
  committed c = working c -> rollback c = c.
Proof. destruct c as [k a t w n]; cbn. by intros ->. Qed.

(** Without autocommit the same statement stays invisible until
    [commit], and [rollback] discards it. *)
Lemma execute_transactional_invisible rejects st c r c' :
  autocommit c = false ->
  execute rejects st c = (r, c') ->
  committed c' = committed c.
Proof.
  intros Ha. unfold execute.
  destruct (kind c); [by intros [= <- <-]|].
  destruct (rejects st); [by intros [= <- <-]|].
  destruct (apply_statement st _) as [[t' n']|e]; intros [= <- <-]; [|done].
  cbn. by rewrite Ha.
Qed.

(** The claim C2 as it is stated fails for the signature and the evidence
    rows: [_store_signatures] and [_store_evidence] are plain INSERTs under
    a fresh AUTO_INCREMENT key, so storing the same record a second time
    adds a second row, whereas the transaction of the same unit, stored
    through ON DUPLICATE KEY UPDATE, stays one row. *)
Theorem signature_evidence_rows_duplicate :
  let store_all c :=
    snd (_store_transactions accept_all now [tx7]
      (snd (_store_evidence accept_all now [ev7]
        (snd (_store_signatures accept_all now [sig7] c))))) in
  let once := committed (store_all fresh) in
  let twice := committed (store_all (store_all fresh)) in
  size (signatures once) = 1%nat /\ size (signatures twice) = 2%nat /\
  size (evidence once) = 1%nat /\ size (evidence twice) = 2%nat /\
  size (transactions once) = 1%nat /\ size (transactions twice) = 1%nat /\
  signatures twice !! 1 = signatures twice !! 2 /\
  once <> twice.
Proof.
  vm_compute. repeat split; try reflexivity.
  intros H. discriminate H.
Qed.


(** The same with child rows: the signature row is refused after the block,
    transaction and evidence rows were accepted; these stay visible. *)
Lemma failed_unit_leaves_child_rows :
  let b := Fetch.fetch_block_data healthy_node 7 in
  match b with
  | Some bd =>
      let r := store_unit refuse_signatures ∅ now 7 bd [tx7] [ev7] [sig7] []
                          fresh in
      fst r = Raise DatabaseError /\
      let t := committed (rollback (snd r)) in
      size (cosmos_blocks t) = 1%nat /\ size (transactions t) = 1%nat /\
      size (evidence t) = 1%nat /\ size (signatures t) = 0%nat /\
      size (ingestion_progress t) = 0%nat
  | None => False
  end.
Proof. vm_compute. repeat split; reflexivity. Qed.

End StoreProperties.

Section FetchProperties.

Import Fetch Signatures.

Lemma counts_as_valid_spec v b :
  counts_as_valid v = Ret b -> b = spec_valid v.
Proof.
  unfold counts_as_valid, spec_valid, spec_flag.
  destruct v as [| | | | |d]; cbn [isinstance_dict]; try by intros [= <-].
  cbn [get mbind result_bind].
  destruct (assoc "block_id_flag" d) as [[|x|f| | |]|];
    cbn [gt mbind result_bind]; try discriminate.
  - destruct x; cbn; by intros [= <-].
  - destruct (1 <? f); cbn [andb mbind result_bind].
    + destruct (assoc "signature" d); by intros [= <-].
    + by intros [= <-].
  - cbn. by intros [= <-].
Qed.

Lemma count_valid_spec sigs : forall n,
  count_valid sigs = Ret n -> n = spec_valid_count sigs.
Proof.
  unfold spec_valid_count.
  induction sigs as [|v sigs IH]; intros n; cbn [count_valid].
  - by intros [= <-].
  - intros H. bind_inv H. injection H as <-.
    match goal with Hc : counts_as_valid v = Ret ?b |- _ =>
      apply counts_as_valid_spec in Hc; subst b end.
    specialize (IH _ eq_refl). cbn [List.filter].
    destruct (spec_valid v); [|exact IH].
    cbn [length]. rewrite IH. lia.
Qed.

(** C4: the count stored for a fetched block is the number of last-commit
    entries whose flag is greater than 1 and whose signature is not empty,
    whatever other keys the entries carry; on the list of the
    specification's example the code counts 2. *)
Theorem valid_signature_count (node : rpc) (h st : Z) (res : pyval)
  (sigs : list pyval) (bd : block_data) :
  (block_endpoint node h = Response st (Some res) ->
   last_commit_signatures res = Ret (PList sigs) ->
   fetch_block_data node h = Some bd ->
   valid_signatures bd = spec_valid_count sigs) /\
  count_valid example_signatures = Ret 2.
Proof.
  split; [|reflexivity].
  intros Hb Hs Hf.
  unfold fetch_block_data in Hf.
  destruct (fetch_body node h) as [[bd'|]|] eqn:Hbody; try discriminate Hf.
  injection Hf as ->.
  unfold fetch_body in Hbody. rewrite Hb in Hbody.
  cbn [session_get] in Hbody.
  bind_inv Hbody.
  injection Hbody as <-. cbn [valid_signatures].
  unfold last_commit_signatures in Hs. bind_inv Hs.
  match goal with H : json _ = Ret _ |- _ => cbn in H; injection H as <- end.
  same_reads.
  match goal with H : iter (PList _) = Ret _ |- _ =>
    cbn in H; injection H as <- end.
  match goal with H : count_valid _ = Ret _ |- _ =>
    by apply count_valid_spec in H end.
Qed.

Lemma valid_signature_count_witness :
  exists bd, fetch_block_data example_node 7 = Some bd /\
             valid_signatures bd = 2.
Proof.
  destruct (fetch_block_data example_node 7) as [bd|] eqn:Hf;
    [|vm_compute in Hf; discriminate Hf].
  exists bd. split; [reflexivity|].
  apply (proj1 (valid_signature_count example_node 7 200
                  (Scenario.block_json 7 example_signatures)
                  example_signatures bd)); [reflexivity|reflexivity|exact Hf].
Defined.

Import Companion.

(** A failed [/validators] round trip ends the [try] of
    [fetch_block_data]: no payload. *)
Lemma validators_failure_no_payload node h e :
  validators_answer node h = Raise e ->
  fetch_block_data node h = None.
Proof.
  unfold validators_answer, fetch_block_data, fetch_body.
  unfold mbind, result_bind. intros Hv.
  repeat match goal with
         | |- match (match ?m with Ret _ => _ | Raise _ => _ end) with _ => _ end = _ =>
             destruct m; [|reflexivity]
         | |- match (if ?b then _ else _) with _ => _ end = _ =>
             destruct b; [reflexivity|]
         end.
  discriminate Hv.
Qed.

(** A [/validators] answer without ["result"] changes nothing but the two
    proposer fields, which are zero. *)
Lemma validators_without_result_zero node h bd d st :
  fetch_block_data node h = Some bd ->
  assoc "result" d = None ->
  (st <? 400) || (600 <=? st) = true ->
  fetch_block_data (with_validators node (Response st (Some (PDict d)))) h
  = Some (zero_power bd).
Proof.
  intros Hf Hd Hst.
  unfold fetch_block_data in Hf.
  destruct (fetch_body node h) as [[bd'|]|] eqn:Hbody; try discriminate Hf.
  injection Hf as ->.
  unfold fetch_body in Hbody. bind_inv Hbody. injection Hbody as <-.
  unfold fetch_block_data, fetch_body, with_validators.
  cbn [block_endpoint validators_endpoint session_get].
  unfold mbind, result_bind.
  replay.
  unfold raise_for_status, json, contains. cbn [fst snd].
  replace ((400 <=? st) && (st <? 600)) with false
    by (symmetry; apply andb_false_iff; apply orb_true_iff in Hst; lia).
  rewrite Hd. reflexivity.
Qed.

(** C6, as the code has it: both round trips sit in one [try], so a failed
    [/validators] round trip (no response, an error status, a body that is
    not JSON) leaves the unit without payload; what degrades the two
    proposer fields to zero is a [/validators] answer that arrives without
    a ["result"] key: the payload is then the one any other answer gives,
    with voting power and priority zero. *)
Theorem companion_fetch_fails_or_degrades (node : rpc) (h : Z) :
  (forall e, validators_answer node h = Raise e ->
             fetch_block_data node h = None) /\
  (forall bd d st,
     fetch_block_data node h = Some bd ->
     assoc "result" d = None ->
     (st <? 400) || (600 <=? st) = true ->
     exists bd',
       fetch_block_data
         (with_validators node (Response st (Some (PDict d)))) h = Some bd' /\
       bd' = zero_power bd /\
       total_voting_power bd' = 0 /\ proposer_priority bd' = 0).
Proof.
  split.
  - intros e. apply validators_failure_no_payload.
  - intros bd d st Hf Hd Hst. exists (zero_power bd).
    split; [by apply validators_without_result_zero|]. by repeat split.
Qed.

Lemma companion_fetch_fails_or_degrades_witness :
  fetch_block_data Scenario.no_validators_node 7 = None /\
  exists bd bd',
    fetch_block_data Scenario.healthy_node 7 = Some bd /\
    total_voting_power bd = 9 /\
    fetch_block_data
      (with_validators Scenario.healthy_node (Response 200 (Some empty_dict)))
      7 = Some bd' /\
    total_voting_power bd' = 0 /\ proposer_priority bd' = 0.
Proof.
  split.
  - apply (proj1 (companion_fetch_fails_or_degrades
                    Scenario.no_validators_node 7) HTTPError).
    reflexivity.
  - destruct (fetch_block_data Scenario.healthy_node 7) as [bd|] eqn:Hf;
      [|vm_compute in Hf; discriminate Hf].
    destruct (proj2 (companion_fetch_fails_or_degrades
                       Scenario.healthy_node 7) bd [] 200 Hf)
      as (bd' & H1 & _ & H2 & H3); [reflexivity|reflexivity|].
    exists bd, bd'. repeat split; try assumption.
    vm_compute in Hf. injection Hf as <-. reflexivity.
Defined.

(** C6 fails as stated: the node serves block 7 and answers 500 on
    [/validators]; the block round trip succeeds, the unit gets no payload,
    whereas the same block with a served validator set gets one. *)
Lemma validators_failure_fails_unit :
  block_answer Scenario.no_validators_node 7
  = Ret (Scenario.block_json 7 []) /\
  validators_answer Scenario.no_validators_node 7 = Raise HTTPError /\
  fetch_block_data Scenario.no_validators_node 7 = None /\
  is_Some (fetch_block_data Scenario.healthy_node 7).
Proof. vm_compute. repeat split. eexists; reflexivity. Qed.

End FetchProperties.

Section BatchProperties.

Import Db Store.

Variable rejects : statement -> bool.
Variable validator_names : gmap string (string * string).
Variable node : Fetch.rpc.
Variable clock : Z -> Timestamp.datetime.

#[local] Abbreviation store_unit := (store_unit rejects validator_names).
#[local] Abbreviation process_height := (process_height rejects validator_names node clock).
#[local] Abbreviation process_batch := (process_batch rejects validator_names node clock).
#[local] Abbreviation unit_commits := (unit_commits rejects validator_names node clock).
#[local] Abbreviation unit_log := (unit_log rejects validator_names node clock).

Lemma get_connection_pool k t n : pool_connection (get_connection k t n).
Proof. by destruct k. Qed.

Lemma kind_get_connection k t n : kind (get_connection k t n) = k.
Proof. by destruct k. Qed.

(** The statements of a unit without child rows, on a pool connection. *)
Lemma store_unit_sqlite now h bd c :
  kind c = Sqlite ->
  store_unit now h bd [] [] [] [] c = (Raise DatabaseError, c).
Proof.
  destruct c as [k a t w n]; cbn. intros ->. reflexivity.
Qed.

Lemma store_unit_mysql now h bd c :
  kind c = Mysql -> pool_connection c ->
  store_unit now h bd [] [] [] [] c =
  match block_statement validator_names now bd with
  | Raise e => (Raise e, c)
  | Ret st =>
      if rejects st then (Raise DatabaseError, c)
      else
        let t1 := set_cosmos_blocks (working c)
                    (<[Fetch.height bd :=
                         match st with UpsertBlock _ row => row | _ => [] end]>
                       (cosmos_blocks (working c))) in
        if rejects (UpsertProgress h h)
        then (Raise DatabaseError,
              mkConnection Mysql true t1 t1 (auto_increment c))
        else
          let t2 := set_ingestion_progress t1
                      (<[1 := (h, h)]> (ingestion_progress t1)) in
          (Ret tt, mkConnection Mysql true t2 t2 (auto_increment c))
  end.
Proof.
  destruct c as [k a t w n]. intros Hk [Hcw Ha]. cbn in Hk, Hcw, Ha.
  subst k t. rewrite (Ha eq_refl).
  unfold Store.store_unit, _store_block, _store_transactions, _store_evidence,
    _store_signatures, _store_validator_set, mbind, db_bind, lift.
  cbn [kind].
  unfold block_statement, mbind, result_bind.
  destruct (_get_validator_name validator_names _) as [name|e]; [|done].
  unfold execute at 1. cbn [kind].
  destruct (rejects (UpsertBlock _ _)); [done|].
  cbn [apply_statement kind autocommit working committed auto_increment
       for_each mret db_ret].
  unfold execute. cbn [kind autocommit working committed auto_increment].
  destruct (rejects (UpsertProgress h h)); [done|].
  reflexivity.
Qed.

Lemma is_Some_insert_keep {V} (m : gmap Z V) i j x :
  is_Some (m !! j) -> is_Some (<[i := x]> m !! j).
Proof.
  intros H. destruct (decide (i = j)) as [->|Hne].
  - rewrite lookup_insert_eq. by eexists.
  - by rewrite lookup_insert_ne.
Qed.

(** A unit on a pool connection: the connection stays a pool connection,
    no block row is lost, a committed unit has its block row, and whether
    the unit commits does not depend on what the connection went through
    before. *)
Lemma store_unit_pool now h bd c :
  pool_connection c ->
  let rc := store_unit now h bd [] [] [] [] c in
  pool_connection (snd rc) /\ kind (snd rc) = kind c /\
  keeps_blocks c (snd rc) /\
  (fst rc = Ret tt ->
   is_Some (cosmos_blocks (committed (snd rc)) !! Fetch.height bd)) /\
  fst rc = fst (store_unit now h bd [] [] [] []
                  (get_connection (kind c) (mkTables ∅ ∅ ∅ ∅ ∅ ∅ ∅)
                                  (mkCounters 1 1))).
Proof.
  intros Hp. destruct (kind c) eqn:Hk.
  - rewrite !store_unit_sqlite by done. cbn.
    split; [exact Hp|]. split; [done|]. split; [by intros ?|]. by split.
  - rewrite (store_unit_mysql now h bd c Hk Hp).
    rewrite (store_unit_mysql now h bd (get_connection Mysql _ _) eq_refl
               (get_connection_pool _ _ _)).
    pose proof Hp as [Hcw Ha].
    destruct (block_statement validator_names now bd) as [st|e].
    2:{ split; [exact Hp|]. split; [done|]. split; [by intros ?|]. by split. }
    destruct (rejects st).
    { split; [exact Hp|]. split; [done|]. split; [by intros ?|]. by split. }
    cbv zeta.
    destruct (rejects (UpsertProgress h h)); cbn.
    + split; [by split|]. split; [done|].
      split; [intros key; rewrite Hcw; apply is_Some_insert_keep|]. by split.
    + split; [by split|]. split; [done|].
      split; [intros key; rewrite Hcw; apply is_Some_insert_keep|].
      split; [|done]. intros _. rewrite lookup_insert_eq. by eexists.
Qed.

Lemma process_height_pool st h :
  pool_connection (conn st) ->
  let k := kind (conn st) in
  let st' := process_height st h in
  pool_connection (conn st') /\ kind (conn st') = k /\
  keeps_blocks (conn st) (conn st') /\
  blocks_processed st'
  = blocks_processed st + (if unit_commits k h then 1 else 0) /\
  log st' = (log st ++ unit_log k h)%list /\
  (unit_commits k h = true ->
   exists bd, Fetch.fetch_block_data node h = Some bd /\
              is_Some (cosmos_blocks (committed (conn st')) !! Fetch.height bd)).
Proof.
  intros Hp k st'. subst k st'.
  unfold Store.process_height, Store.unit_commits, Store.unit_log,
    Store.unit_commits.
  destruct (Fetch.fetch_block_data node h) as [bd|].
  - destruct (store_unit_pool (clock h) h bd (conn st) Hp)
      as (Hp' & Hk' & Hkeep & Hrow & Hsame).
    rewrite <- Hsame.
    destruct (store_unit (clock h) h bd [] [] [] [] (conn st)) as [[[]|e] c'];
      cbn [fst snd] in *; cbn [conn blocks_processed log].
    + split; [done|]. split; [done|]. split; [done|]. split; [done|].
      split; [by rewrite app_nil_r|]. intros _. exists bd. by split; [|apply Hrow].
    + rewrite (rollback_autocommit_noop c') by apply Hp'.
      split; [done|]. split; [done|]. split; [done|].
      split; [lia|]. by split.
  - cbn [conn blocks_processed log].
    split; [done|]. split; [done|]. split; [by intros ?|]. split; [lia|].
    split; [|done].
    destruct (Fetch.fetch_raises node h); [done|by rewrite app_nil_r].
Qed.

Lemma keeps_blocks_trans c1 c2 c3 :
  keeps_blocks c1 c2 -> keeps_blocks c2 c3 -> keeps_blocks c1 c3.
Proof. intros H1 H2 key Hs. by apply H2, H1. Qed.

Lemma process_heights_pool l st :
  pool_connection (conn st) ->
  let k := kind (conn st) in
  let st' := fold_left process_height l st in
  pool_connection (conn st') /\ kind (conn st') = k /\
  keeps_blocks (conn st) (conn st') /\
  blocks_processed st'
  = blocks_processed st + Z.of_nat (length (List.filter (unit_commits k) l)) /\
  log st' = (log st ++ flat_map (unit_log k) l)%list /\
  (forall h, In h l -> unit_commits k h = true ->
   exists bd, Fetch.fetch_block_data node h = Some bd /\
              is_Some (cosmos_blocks (committed (conn st')) !! Fetch.height bd)).
Proof.
  revert st. induction l as [|h l IH]; intros st Hp; cbn zeta.
  - cbn. split; [done|]. split; [done|]. split; [by intros ?|].
    split; [lia|]. split; [by rewrite app_nil_r|]. by intros ? [].
  - cbn [fold_left List.filter flat_map].
    destruct (process_height_pool st h Hp)
      as (Hp1 & Hk1 & Hkeep1 & Hcount1 & Hlog1 & Hrow1).
    destruct (IH (process_height st h) Hp1)
      as (Hp2 & Hk2 & Hkeep2 & Hcount2 & Hlog2 & Hrow2).
    rewrite Hk1 in *.
    split; [done|]. split; [done|].
    split; [by eapply keeps_blocks_trans|].
    split.
    { rewrite Hcount2, Hcount1.
      destruct (unit_commits (kind (conn st)) h); cbn [length]; lia. }
    split.
    { by rewrite Hlog2, Hlog1, <- app_assoc. }
    intros h' [<-|Hin] Hc.
    + destruct (Hrow1 Hc) as (bd & Hf & Hs). exists bd. split; [done|].
      by apply Hkeep2.
    + by apply Hrow2.
Qed.


End BatchProperties.


Section ProgressLoopProperties.

Import Db ProgressLoop.

Variable k : db_type.
Variable ingest_blocks : Z -> Z -> server -> server.

#[local] Abbreviation cycle := (cycle k ingest_blocks).
#[local] Abbreviation run := (run k ingest_blocks).

Lemma cycle_answered ev sv :
  answered ev -> exists acts sv', cycle ev sv = (acts, Looping, sv').
Proof.
  intros (o & latest & -> & Hl). unfold ProgressLoop.cycle. rewrite Hl.
  destruct (latest <? _); eauto.
Qed.

Lemma run_answered evs sv :
  Forall answered evs -> exists acts sv', run evs sv = (acts, Looping, sv').
Proof.
  revert sv. induction evs as [|ev evs IH]; intros sv Hall; [cbn; eauto|].
  inversion Hall as [|? ? Hev Hrest]; subst.
  destruct (cycle_answered ev sv Hev) as (acts & sv' & Hc).
  destruct (IH sv' Hrest) as (acts' & sv'' & Hr).
  cbn [ProgressLoop.run]. rewrite Hc, Hr. eauto.
Qed.

Lemma run_cancelled evs s rest sv acts sv' :
  run evs sv = (acts, Looping, sv') ->
  run (evs ++ Cancel s :: rest)%list sv = (acts, stopped_by s, sv').
Proof.
  revert sv acts. induction evs as [|ev evs IH]; intros sv acts Hr.
  - cbn in Hr. injection Hr as <- <-. by destruct s.
  - cbn [app ProgressLoop.run] in *.
    destruct (cycle ev sv) as [[acts1 st1] sv1].
    destruct st1; try discriminate Hr.
    destruct (run evs sv1) as [[acts2 st2] sv2] eqn:Hr2.
    injection Hr as <- -> <-.
    by rewrite (IH sv1 acts2 Hr2).
Qed.

(** A height query that raises is not handled in the loop: [main] prints
    the error and raises it again. *)
Lemma height_query_error_is_raised sv :
  cycle (Answer Fetch.NoResponse) sv
  = ([QueryHeight], Failed ConnectionError, sv).
Proof. reflexivity. Qed.


End ProgressLoopProperties.


Section PricefeederProperties.

Import Pricefeeder.

Variable responses : nat -> Fetch.http_outcome.

Lemma get_req_retries frames depth :
  no_votes_yet (responses depth) ->
  get_req (S frames) responses depth = get_req frames responses (S depth).
Proof.
  intros (data & Hr & Hv). cbn [get_req]. rewrite Hr.
  cbn [Z.eqb Pos.eqb Fetch.json snd mbind result_bind]. by rewrite Hv.
Qed.

Lemma get_req_returns frames depth data :
  responses depth = Fetch.Response 200 (Some data) ->
  has_votes data = Ret true ->
  get_req (S frames) responses depth = Returned data depth.
Proof.
  intros Hr Hv. cbn [get_req]. rewrite Hr.
  cbn [Z.eqb Pos.eqb Fetch.json snd mbind result_bind]. by rewrite Hv.
Qed.

(** After [n] answers without votes the call that returns is [n] frames
    below the first one. *)
Lemma get_req_depth n : forall frames depth data,
  (forall i, (depth <= i < depth + n)%nat -> no_votes_yet (responses i)) ->
  responses (depth + n)%nat = Fetch.Response 200 (Some data) ->
  has_votes data = Ret true ->
  (n < frames)%nat ->
  get_req frames responses depth = Returned data (depth + n)%nat.
Proof.
  induction n as [|n IH]; intros frames depth data Hempty Hr Hv Hframes.
  - destruct frames as [|frames]; [lia|]. rewrite Nat.add_0_r in *.
    by apply get_req_returns.
  - destruct frames as [|frames]; [lia|].
    rewrite get_req_retries by (apply Hempty; lia).
    replace (depth + S n)%nat with (S depth + n)%nat in * by lia.
    apply IH; try done; [|lia]. intros i Hi. apply Hempty. lia.
Qed.

(** On an answer whose status is not 200 the process exits. *)
Lemma get_req_exit n : forall frames depth st body,
  (forall i, (depth <= i < depth + n)%nat -> no_votes_yet (responses i)) ->
  responses (depth + n)%nat = Fetch.Response st body ->
  st <> 200 ->
  (n < frames)%nat ->
  get_req frames responses depth = ProcessExit st (depth + n)%nat.
Proof.
  induction n as [|n IH]; intros frames depth st body Hempty Hr Hst Hframes.
  - destruct frames as [|frames]; [lia|]. rewrite Nat.add_0_r in *.
    cbn [get_req]. rewrite Hr.
    destruct (st =? 200) eqn:E; [apply Z.eqb_eq in E; lia|done].
  - destruct frames as [|frames]; [lia|].
    rewrite get_req_retries by (apply Hempty; lia).
    replace (depth + S n)%nat with (S depth + n)%nat in * by lia.
    apply (IH frames (S depth) st body); try done; [|lia].
    intros i Hi. apply Hempty. lia.
Qed.

(** While the answers carry no votes the calls nest until the recursion
    limit, and the call that would exceed it raises. *)
Lemma get_req_hits_limit frames : forall depth,
  (forall i, (depth <= i < depth + frames)%nat ->
             no_votes_yet (responses i)) ->
  get_req frames responses depth = RecursionError (depth + frames)%nat.
Proof.
  induction frames as [|frames IH]; intros depth Hempty.
  - cbn. by rewrite Nat.add_0_r.
  - rewrite get_req_retries by (apply Hempty; lia).
    replace (depth + S frames)%nat with (S depth + frames)%nat by lia.
    apply IH. intros i Hi. apply Hempty. lia.
Qed.

(** A call that returns does so on the first answer that carries votes. *)
Lemma get_req_returned frames : forall depth data d,
  get_req frames responses depth = Returned data d ->
  (depth <= d)%nat /\
  responses d = Fetch.Response 200 (Some data) /\
  has_votes data = Ret true /\
  forall i, (depth <= i < d)%nat -> no_votes_yet (responses i).
Proof.
  induction frames as [|frames IH]; intros depth data d Hg; [discriminate Hg|].
  cbn [get_req] in Hg.
  destruct (responses depth) as [|st body] eqn:Hr; [discriminate Hg|].
  destruct (st =? 200) eqn:Hst; [|discriminate Hg].
  apply Z.eqb_eq in Hst. subst st.
  destruct body as [v|]; cbn [Fetch.json snd mbind result_bind] in Hg;
    [|discriminate Hg].
  destruct (has_votes v) as [[|]|e] eqn:Hv; cbn in Hg; try discriminate Hg.
  - injection Hg as <- <-. repeat split; try done. intros i Hi. lia.
  - destruct (IH _ _ _ Hg) as (Hle & Hd & Hvd & Hbefore).
    repeat split; try done; [lia|]. intros i Hi.
    destruct (decide (i = depth)) as [->|Hne].
    + exists v. by split.
    + apply Hbefore. lia.
Qed.

End PricefeederProperties.

(** C9: [get_req] calls itself on every 200 answer whose vote list is
    empty, with nothing between the attempts and no count of its own:
    after [n] such answers the call that returns the votes is [n] frames
    deep, for every [n] the recursion limit allows; it returns only on an
    answer that carries votes; on an answer whose status is not 200 the
    process exits. The depth is bounded all the same, by the interpreter:
    while the answers carry no votes the calls nest until the recursion
    limit, and there the script ends on an unhandled [RecursionError]. *)
Theorem get_req_recursion_ends_at_limit
  (responses : nat -> Fetch.http_outcome) :
  (forall n frames data,
     (forall i, (i < n)%nat -> Pricefeeder.no_votes_yet (responses i)) ->
     responses n = Fetch.Response 200 (Some data) ->
     Pricefeeder.has_votes data = Ret true ->
     (n < frames)%nat ->
     Pricefeeder.get_req frames responses 0 = Pricefeeder.Returned data n) /\
  (forall frames data d,
     Pricefeeder.get_req frames responses 0 = Pricefeeder.Returned data d ->
     responses d = Fetch.Response 200 (Some data) /\
     Pricefeeder.has_votes data = Ret true /\
     forall i, (i < d)%nat -> Pricefeeder.no_votes_yet (responses i)) /\
  (forall n frames st body,
     (forall i, (i < n)%nat -> Pricefeeder.no_votes_yet (responses i)) ->
     responses n = Fetch.Response st body ->
     st <> 200 ->
     (n < frames)%nat ->
     Pricefeeder.get_req frames responses 0 = Pricefeeder.ProcessExit st n) /\
  (forall frames,
     (forall i, (i < frames)%nat -> Pricefeeder.no_votes_yet (responses i)) ->
     Pricefeeder.get_req frames responses 0
     = Pricefeeder.RecursionError frames).
Proof.
  split; [|split; [|split]].
  - intros n frames data Hempty Hr Hv Hframes.
    apply (get_req_depth responses n frames 0%nat data); try done.
    intros i Hi. apply Hempty. lia.
  - intros frames data d Hg.
    destruct (get_req_returned responses frames 0%nat data d Hg)
      as (_ & Hr & Hv & Hbefore).
    repeat split; try done. intros i Hi. apply Hbefore. lia.
  - intros n frames st body Hempty Hr Hst Hframes.
    apply (get_req_exit responses n frames 0%nat st body); try done.
    intros i Hi. apply Hempty. lia.
  - intros frames Hempty.
    apply (get_req_hits_limit responses frames 0%nat).
    intros i Hi. apply Hempty. lia.
Qed.

Lemma get_req_recursion_ends_at_limit_witness :
  Pricefeeder.get_req 51 (Pricefeeder.votes_after 50) 0
  = Pricefeeder.Returned (Pricefeeder.votes_json [PStr "vote"]) 50 /\
  (Pricefeeder.votes_after 50 50
   = Fetch.Response 200 (Some (Pricefeeder.votes_json [PStr "vote"])) /\
   Pricefeeder.has_votes (Pricefeeder.votes_json [PStr "vote"]) = Ret true /\
   forall i, (i < 50)%nat ->
             Pricefeeder.no_votes_yet (Pricefeeder.votes_after 50 i)) /\
  Pricefeeder.get_req 200 Pricefeeder.never_votes 0
  = Pricefeeder.RecursionError 200.
Proof.
  assert (Hreturn :
    Pricefeeder.get_req 51 (Pricefeeder.votes_after 50) 0
    = Pricefeeder.Returned (Pricefeeder.votes_json [PStr "vote"]) 50).
  { apply (proj1 (get_req_recursion_ends_at_limit
                    (Pricefeeder.votes_after 50))).
    - intros i Hi. exists (Pricefeeder.votes_json []).
      split; [|reflexivity]. unfold Pricefeeder.votes_after.
      by apply Nat.ltb_lt in Hi as ->.
    - reflexivity.
    - reflexivity.
    - lia. }
  split; [exact Hreturn|]. split.
  - exact (proj1 (proj2 (get_req_recursion_ends_at_limit
                           (Pricefeeder.votes_after 50))) _ _ _ Hreturn).
  - apply (proj2 (proj2 (proj2 (get_req_recursion_ends_at_limit
                                  Pricefeeder.never_votes)))).
    intros i _. exists (Pricefeeder.votes_json []). by split.
Defined.

(** Under answers that never carry votes the depth does not grow without
    bound: with the frames the default recursion limit leaves, the script
    ends at depth 975 on a [RecursionError]. *)
Lemma get_req_depth_is_bounded :
  Pricefeeder.get_req Pricefeeder.default_frames Pricefeeder.never_votes 0
  = Pricefeeder.RecursionError 975.
Proof. vm_compute. reflexivity. Qed.

Section MonitorProperties.

Import Monitor Gauges.

Variable addresses : list string.
Variable get_block : Z -> option pyval.
Variable get_validator_set : Z -> option pyval.

#[local] Abbreviation scan_height :=
  (scan_height addresses get_block get_validator_set).
#[local] Abbreviation scan := (scan addresses get_block get_validator_set).
#[local] Abbreviation monitor_cycle :=
  (monitor_cycle addresses get_block get_validator_set).

Lemma percentage_bounds signed total :
  0 <= signed <= total -> 0 < total ->
  (inject_Z 0 <= inject_Z signed / inject_Z total * inject_Z 100)%Q /\
  (inject_Z signed / inject_Z total * inject_Z 100 <= inject_Z 100)%Q.
Proof.
  intros Hs Ht. destruct total as [|p|p]; try lia.
  unfold Qle, Qdiv, Qmult, Qinv, inject_Z. cbn. split; nia.
Qed.

Lemma initial_counts_zero addrs addr n :
  initial_counts addrs !! addr = Some n -> n = 0.
Proof.
  unfold initial_counts. intros H.
  apply elem_of_list_to_map_2 in H. apply list_elem_of_In in H.
  apply in_map_iff in H as (a & [= _ <-] & _). reflexivity.
Qed.

Lemma bump_nonnegative signed_vals addrs (counts : gmap string Z) :
  (forall addr n, counts !! addr = Some n -> 0 <= n) ->
  forall addr n, bump addrs signed_vals counts !! addr = Some n -> 0 <= n.
Proof.
  unfold bump. revert counts.
  induction addrs as [|a addrs IH]; intros counts Hc; [exact Hc|].
  cbn [fold_left]. apply IH.
  destruct (decide (a ∈ signed_vals)); [|exact Hc].
  destruct (counts !! a) as [k|] eqn:Hk; [|exact Hc].
  intros addr n. destruct (decide (a = addr)) as [->|Hne].
  - rewrite lookup_insert_eq. intros [= <-]. specialize (Hc _ _ Hk). lia.
  - rewrite lookup_insert_ne by done. apply Hc.
Qed.

Lemma scan_height_nonnegative s h brk s' :
  counters_nonnegative s ->
  scan_height s h = Ret (brk, s') ->
  counters_nonnegative s'.
Proof.
  intros [Hb Hc]. unfold Monitor.scan_height.
  destruct (get_block h) as [block|]; [|by intros [= <- <-]].
  destruct (negb (truthy block)); [by intros [= <- <-]|].
  destruct (total_blocks <? blocks_checked s + 1).
  { intros [= <- <-]. split; cbn; [lia|done]. }
  destruct (unusable (get_validator_set h)) as [[|]|e];
    cbn; intros [= <- <-]; (split; cbn; [lia|]); [done|].
  by apply bump_nonnegative.
Qed.

Lemma scan_nonnegative heights : forall s s',
  counters_nonnegative s ->
  scan heights s = Ret s' ->
  counters_nonnegative s'.
Proof.
  induction heights as [|h heights IH]; intros s s' Hs; cbn [Monitor.scan].
  - by intros [= <-].
  - destruct (scan_height s h) as [[brk s1]|e] eqn:Hh; [|done].
    cbn [mbind result_bind fst snd].
    pose proof (scan_height_nonnegative _ _ _ _ Hs Hh) as Hs1.
    destruct brk; [by intros [= <-]|]. by apply IH.
Qed.

Lemma summarize_bounds s addrs : forall m lines m',
  counters_nonnegative s ->
  summarize addrs s m = Ret (lines, m') ->
  Forall (line_within_bounds s) lines /\ map line_addr lines = addrs.
Proof.
  induction addrs as [|addr addrs IH]; intros m lines m' Hs; cbn [summarize].
  - intros [= <- <-]. by split.
  - destruct (signed_counts s !! addr) as [n|] eqn:Hn; [|done].
    destruct Hs as [Hb Hc]. pose proof (Hc _ _ Hn) as Hn0.
    set (total := Z.min (blocks_checked s) total_blocks).
    set (signed := Z.min n total).
    assert (Htot : 0 <= total <= blocks_checked s)
      by (unfold total, total_blocks; lia).
    assert (Hsig : 0 <= signed <= total) by (unfold signed; lia).
    destruct (0 <? total) eqn:Hpos.
    + apply Z.ltb_lt in Hpos.
      unfold true_div at 1. destruct (total =? 0) eqn:Hz; [lia|].
      cbn [mbind result_bind].
      destruct (summarize addrs s _) as [[lines1 m1]|e] eqn:Hrest; [|done].
      cbn [fst snd]. intros [= <- <-].
      destruct (IH _ _ _ (conj Hb Hc) Hrest) as [Hall Hmap].
      split; [|by cbn; rewrite Hmap].
      constructor; [|done].
      destruct (percentage_bounds signed total Hsig Hpos) as [Hlo Hhi].
      unfold line_within_bounds. cbn.
      repeat split; try lia; try done.
    + apply Z.ltb_ge in Hpos. cbn [mbind result_bind].
      destruct (summarize addrs s _) as [[lines1 m1]|e] eqn:Hrest; [|done].
      cbn [fst snd]. intros [= <- <-].
      destruct (IH _ _ _ (conj Hb Hc) Hrest) as [Hall Hmap].
      split; [|by cbn; rewrite Hmap].
      constructor; [|done].
      unfold line_within_bounds. cbn.
      repeat split; try lia; try done.
Qed.

(** Over a list of heights that fits in the window the [break] is not
    taken, and no more blocks are counted than heights were visited. *)
Lemma scan_height_checked s h brk s' :
  blocks_checked s < total_blocks ->
  scan_height s h = Ret (brk, s') ->
  brk = false /\ blocks_checked s <= blocks_checked s' <= blocks_checked s + 1.
Proof.
  intros Hlt. unfold Monitor.scan_height.
  destruct (get_block h) as [block|]; [|intros [= <- <-]; split; [done|lia]].
  destruct (negb (truthy block)); [intros [= <- <-]; split; [done|lia]|].
  destruct (total_blocks <? blocks_checked s + 1) eqn:Hb;
    [apply Z.ltb_lt in Hb; lia|].
  destruct (unusable (get_validator_set h)) as [[|]|e];
    cbn; intros [= <- <-]; cbn; split; try done; lia.
Qed.

Lemma scan_checked heights : forall s s',
  blocks_checked s + Z.of_nat (length heights) <= total_blocks ->
  scan heights s = Ret s' ->
  blocks_checked s <= blocks_checked s'
  <= blocks_checked s + Z.of_nat (length heights).
Proof.
  induction heights as [|h heights IH]; intros s s' Hlen; cbn [Monitor.scan].
  - intros [= <-]. cbn. lia.
  - rewrite length_cons, Nat2Z.inj_succ in *.
    destruct (scan_height s h) as [[brk s1]|e] eqn:Hh; [|done].
    cbn [mbind result_bind fst snd].
    assert (Hlt : blocks_checked s < total_blocks) by lia.
    destruct (scan_height_checked _ _ _ _ Hlt Hh) as [-> Hs1].
    intros Hrest. apply IH in Hrest; lia.
Qed.

Lemma window_length latest_height :
  Z.of_nat (length (Store.range_incl
                      (Z.max 1 (latest_height - total_blocks + 1))
                      latest_height)) <= total_blocks.
Proof.
  unfold Store.range_incl, total_blocks. rewrite length_map, length_seq. lia.
Qed.

Lemma summarize_totals s addrs : forall m lines m',
  summarize addrs s m = Ret (lines, m') ->
  Forall (fun l => line_total l = Z.min (blocks_checked s) total_blocks)
         lines.
Proof.
  induction addrs as [|addr addrs IH]; intros m lines m'; cbn [summarize].
  - by intros [= <- <-].
  - destruct (signed_counts s !! addr) as [n|]; [|done].
    intros H. bind_inv H.
    match type of H with Ret (_ :: fst ?out, snd ?out) = _ =>
      destruct out as [lines1 m1] eqn:Hout end.
    cbn [fst snd] in H. injection H as <- <-.
    constructor; [done|].
    match goal with Hs : summarize addrs s _ = Ret _ |- _ =>
      exact (IH _ _ _ Hs) end.
Qed.

(** The scan of one cycle, cut out of [monitor_cycle]. *)
Lemma monitor_cycle_parts latest_block m s lines m' :
  monitor_cycle latest_block m = Ret (Some (s, lines, m')) ->
  exists latest_height,
    scan (Store.range_incl (Z.max 1 (latest_height - total_blocks + 1))
                           latest_height)
         (mkScan 0 (initial_counts addresses)) = Ret s /\
    summarize addresses s m = Ret (lines, m').
Proof.
  unfold Monitor.monitor_cycle. intros H.
  destruct latest_block as [latest|]; [|discriminate H].
  bind_inv H.
  match type of H with Ret (Some (_, fst ?out, snd ?out)) = _ =>
    destruct out as [lines0 m0] eqn:Hout end.
  cbn [fst snd] in H. injection H as -> -> ->.
  eexists. split; eassumption.
Qed.

Lemma cycle_checked latest_block m s lines m' :
  monitor_cycle latest_block m = Ret (Some (s, lines, m')) ->
  0 <= blocks_checked s <= total_blocks.
Proof.
  intros H. apply monitor_cycle_parts in H as (latest_height & Hscan & _).
  apply scan_checked in Hscan; cbn [blocks_checked] in *.
  - pose proof (window_length latest_height). lia.
  - pose proof (window_length latest_height). lia.
Qed.

(** X13: the window of a cycle never holds more than 100 heights, so the
    [break] of the scan is never taken and the two [min] against 100 change
    nothing: the number of blocks checked is at most 100 and it is the
    total of every summary line. *)
Theorem window_never_exceeds_hundred (latest_block : option pyval)
  (m : metrics) (s : scan_state) (lines : list summary_line)
  (m' : metrics) :
  monitor_cycle latest_block m = Ret (Some (s, lines, m')) ->
  0 <= blocks_checked s <= 100 /\
  Forall (fun l => line_total l = blocks_checked s) lines.
Proof.
  intros H. pose proof (cycle_checked _ _ _ _ _ H) as Hc.
  unfold total_blocks in Hc. split; [exact Hc|].
  apply monitor_cycle_parts in H as (latest_height & _ & Hsum).
  apply summarize_totals in Hsum.
  eapply Forall_impl; [exact Hsum|]. cbn beta. intros l ->.
  unfold total_blocks. lia.
Qed.

(** The gauges after the summary loop: written for every address of the
    list when the total is not zero, and not touched otherwise. *)
Lemma update_metrics_zero addr signed m : update_metrics addr signed 0 m = m.
Proof. reflexivity. Qed.

Lemma update_metrics_set addr signed total m :
  total <> 0 ->
  update_metrics addr signed total m
  = mkMetrics (<[addr := signed]> (BLOCKS_SIGNED m))
              (<[addr := total - signed]> (MISSED_BLOCKS m))
              (<[addr := (inject_Z signed / inject_Z total * inject_Z 100)%Q]>
                 (SIGNING_PERCENTAGE m)).
Proof.
  intros Hne. unfold update_metrics, update_body, true_div.
  destruct (total =? 0) eqn:Hz; [lia|]. reflexivity.
Qed.

Lemma summarize_gauges s addrs : forall m lines m',
  summarize addrs s m = Ret (lines, m') ->
  let total := Z.min (blocks_checked s) total_blocks in
  (total = 0 -> m' = m) /\
  (total <> 0 -> forall addr,
     (In addr addrs ->
      exists n, signed_counts s !! addr = Some n /\
        gauges_of m' addr
        = (Some (Z.min n total), Some (total - Z.min n total),
           Some (inject_Z (Z.min n total) / inject_Z total
                 * inject_Z 100)%Q)) /\
     (~ In addr addrs -> gauges_of m' addr = gauges_of m addr)).
Proof.
  induction addrs as [|addr0 addrs IH]; intros m lines m'; cbn [summarize].
  - intros [= <- <-]. cbn zeta. split; [done|]. intros _ addr. by split.
  - destruct (signed_counts s !! addr0) as [n0|] eqn:Hn0; [|done].
    intros H. bind_inv H.
    match type of H with Ret (_ :: fst ?out, snd ?out) = _ =>
      destruct out as [lines1 m1] eqn:Hout end.
    cbn [fst snd] in H. injection H as <- <-.
    match goal with Hs : summarize addrs s _ = Ret _ |- _ =>
      destruct (IH _ _ _ Hs) as [Hzero Hset] end.
    cbn zeta in *. set (total := Z.min (blocks_checked s) total_blocks) in *.
    split.
    + intros Hz. rewrite (Hzero Hz), Hz. apply update_metrics_zero.
    + intros Hnz addr. destruct (Hset Hnz addr) as [Hin Hout'].
      split.
      * intros [<-|Hrest]; [|by apply Hin].
        destruct (in_dec string_dec addr0 addrs) as [Hi|Hni];
          [by apply Hin|].
        exists n0. split; [done|]. rewrite (Hout' Hni).
        rewrite update_metrics_set by done.
        unfold gauges_of. cbn [BLOCKS_SIGNED MISSED_BLOCKS SIGNING_PERCENTAGE].
        by rewrite !lookup_insert_eq.
      * intros Hni. rewrite Hout' by (intros Hi; apply Hni; by right).
        rewrite update_metrics_set by done.
        unfold gauges_of. cbn [BLOCKS_SIGNED MISSED_BLOCKS SIGNING_PERCENTAGE].
        assert (addr0 <> addr) by (intros ->; apply Hni; by left).
        by rewrite !lookup_insert_ne.
Qed.

(** X14: the gauges at the end of a cycle. When no block of the window
    was checked they are not touched, so they keep the values of an
    earlier cycle. Otherwise every monitored address has its three gauges
    written: signed and missed add up to the number of blocks checked, and
    the percentage is their quotient times 100. *)
Theorem gauges_after_cycle (latest_block : option pyval) (m : metrics)
  (s : scan_state) (lines : list summary_line) (m' : metrics) :
  monitor_cycle latest_block m = Ret (Some (s, lines, m')) ->
  (blocks_checked s = 0 -> m' = m) /\
  (blocks_checked s <> 0 ->
   forall addr, In addr addresses ->
     exists signed,
       0 <= signed <= blocks_checked s /\
       BLOCKS_SIGNED m' !! addr = Some signed /\
       MISSED_BLOCKS m' !! addr = Some (blocks_checked s - signed) /\
       SIGNING_PERCENTAGE m' !! addr
       = Some (inject_Z signed / inject_Z (blocks_checked s)
               * inject_Z 100)%Q).
Proof.
  intros H. pose proof (cycle_checked _ _ _ _ _ H) as Hc.
  apply monitor_cycle_parts in H as (latest_height & Hscan & Hsum).
  assert (Hs : counters_nonnegative s).
  { eapply scan_nonnegative; [|exact Hscan]. split; cbn; [lia|].
    intros addr n Hn. apply initial_counts_zero in Hn. lia. }
  destruct (summarize_gauges _ _ _ _ _ Hsum) as [Hzero Hset].
  cbn zeta in *.
  replace (Z.min (blocks_checked s) total_blocks) with (blocks_checked s)
    in * by lia.
  split; [exact Hzero|].
  intros Hnz addr Hin.
  destruct (proj1 (Hset Hnz addr) Hin) as (n & Hn & Hg).
  unfold gauges_of in Hg. injection Hg as Hb Hm Hp.
  exists (Z.min n (blocks_checked s)).
  destruct Hs as [_ Hnn]. specialize (Hnn _ _ Hn).
  split; [lia|]. by split; [|split].
Qed.

(** When no address is listed twice, one block adds at most one to a
    count. *)
Lemma bump_at_most_once signed_vals addrs : forall (counts : gmap string Z) B,
  NoDup addrs ->
  (forall a n, counts !! a = Some n ->
               n <= if decide (a ∈ addrs) then B else B + 1) ->
  forall a n, bump addrs signed_vals counts !! a = Some n -> n <= B + 1.
Proof.
  unfold bump. induction addrs as [|a0 addrs IH]; intros counts B Hnd Hc.
  - cbn [fold_left]. intros a n H. specialize (Hc _ _ H).
    destruct (decide (a ∈ [])); lia.
  - apply NoDup_cons in Hnd as [Hnotin Hnd]. cbn [fold_left].
    assert (Hweak : forall a n, counts !! a = Some n ->
                      n <= if decide (a ∈ addrs) then B else B + 1).
    { intros a n H. specialize (Hc _ _ H).
      destruct (decide (a ∈ a0 :: addrs)) as [Hi|Hi];
        destruct (decide (a ∈ addrs)) as [Hj|Hj]; try lia.
      exfalso. apply Hi. by right. }
    apply IH; [done|].
    destruct (decide (a0 ∈ signed_vals)); [|exact Hweak].
    destruct (counts !! a0) as [k|] eqn:Hk; [|exact Hweak].
    intros a n. destruct (decide (a0 = a)) as [<-|Hne].
    + rewrite lookup_insert_eq. intros [= <-]. specialize (Hc _ _ Hk).
      rewrite decide_True in Hc by (by left).
      rewrite decide_False by done. lia.
    + rewrite lookup_insert_ne by done. apply Hweak.
Qed.

Lemma scan_height_within s h brk s' :
  NoDup addresses -> counts_within_checked s ->
  scan_height s h = Ret (brk, s') -> counts_within_checked s'.
Proof.
  intros Hnd Hs. unfold Monitor.scan_height.
  destruct (get_block h) as [block|]; [|by intros [= <- <-]].
  destruct (negb (truthy block)); [by intros [= <- <-]|].
  destruct (total_blocks <? blocks_checked s + 1).
  { intros [= <- <-] a n Hn. cbn in *. specialize (Hs _ _ Hn). lia. }
  destruct (unusable (get_validator_set h)) as [[|]|e];
    cbn; intros [= <- <-] a n Hn; cbn in *.
  - specialize (Hs _ _ Hn). lia.
  - eapply bump_at_most_once; [exact Hnd| |exact Hn].
    intros a' n' Hn'. specialize (Hs _ _ Hn').
    destruct (decide (a' ∈ addresses)); lia.
Qed.

Lemma scan_within heights : forall s s',
  NoDup addresses -> counts_within_checked s ->
  scan heights s = Ret s' -> counts_within_checked s'.
Proof.
  induction heights as [|h heights IH]; intros s s' Hnd Hs;
    cbn [Monitor.scan].
  - by intros [= <-].
  - destruct (scan_height s h) as [[brk s1]|e] eqn:Hh; [|done].
    cbn [mbind result_bind fst snd].
    pose proof (scan_height_within _ _ _ _ Hnd Hs Hh) as Hs1.
    destruct brk; [by intros [= <-]|]. by apply IH.
Qed.

Lemma summarize_signed s addrs : forall m lines m',
  summarize addrs s m = Ret (lines, m') ->
  Forall (fun l => exists n,
            signed_counts s !! line_addr l = Some n /\
            line_signed l
            = Z.min n (Z.min (blocks_checked s) total_blocks)) lines.
Proof.
  induction addrs as [|addr addrs IH]; intros m lines m'; cbn [summarize].
  - by intros [= <- <-].
  - destruct (signed_counts s !! addr) as [n|] eqn:Hn; [|done].
    intros H. bind_inv H.
    match type of H with Ret (_ :: fst ?out, snd ?out) = _ =>
      destruct out as [lines1 m1] eqn:Hout end.
    cbn [fst snd] in H. injection H as <- <-.
    constructor; [by exists n|].
    match goal with Hs : summarize addrs s _ = Ret _ |- _ =>
      exact (IH _ _ _ Hs) end.
Qed.

(** X15: when no address is listed twice, a count never exceeds the
    number of blocks checked, so the [min] that caps the signed count
    changes nothing and every line shows the count as it was kept. *)
Theorem distinct_addresses_need_no_cap (latest_block : option pyval)
  (m : metrics) (s : scan_state) (lines : list summary_line)
  (m' : metrics) :
  NoDup addresses ->
  monitor_cycle latest_block m = Ret (Some (s, lines, m')) ->
  (forall addr n, signed_counts s !! addr = Some n ->
                  0 <= n <= blocks_checked s) /\
  Forall (fun l => signed_counts s !! line_addr l = Some (line_signed l))
         lines.
Proof.
  intros Hnd H. pose proof (cycle_checked _ _ _ _ _ H) as Hc.
  apply monitor_cycle_parts in H as (latest_height & Hscan & Hsum).
  assert (Hs : counters_nonnegative s).
  { eapply scan_nonnegative; [|exact Hscan]. split; cbn; [lia|].
    intros addr n Hn. apply initial_counts_zero in Hn. lia. }
  assert (Hw : counts_within_checked s).
  { eapply scan_within; [exact Hnd| |exact Hscan].
    intros a n Hn. cbn in *. apply initial_counts_zero in Hn. lia. }
  split.
  - intros addr n Hn. split; [exact (proj2 Hs _ _ Hn)|exact (Hw _ _ Hn)].
  - apply summarize_signed in Hsum.
    eapply Forall_impl; [exact Hsum|]. cbn beta.
    intros l (n & Hn & ->). rewrite Hn. f_equal.
    specialize (Hw _ _ Hn). lia.
Qed.

(** What the summary loop prints for an address: the count it kept, cut
    at the total, and the quotient of the two as a percentage. *)
Lemma summarize_lines s addrs : forall m lines m',
  summarize addrs s m = Ret (lines, m') ->
  let total := Z.min (blocks_checked s) total_blocks in
  Forall (fun l => exists n,
            signed_counts s !! line_addr l = Some n /\
            line_signed l = Z.min n total /\
            line_total l = total /\
            (0 < total ->
             line_percentage l
             = (inject_Z (Z.min n total) / inject_Z total
                * inject_Z 100)%Q)) lines.
Proof.
  induction addrs as [|addr addrs IH]; intros m lines m'; cbn [summarize].
  - by intros [= <- <-].
  - destruct (signed_counts s !! addr) as [n|] eqn:Hn; [|done].
    cbn zeta. set (total := Z.min (blocks_checked s) total_blocks).
    destruct (0 <? total) eqn:Hpos.
    + unfold true_div at 1. destruct (total =? 0) eqn:Hz;
        [apply Z.ltb_lt in Hpos; lia|].
      cbn [mbind result_bind].
      destruct (summarize addrs s _) as [[lines1 m1]|e] eqn:Hrest; [|done].
      cbn [fst snd]. intros [= <- <-].
      constructor; [|exact (IH _ _ _ Hrest)].
      exists n. by repeat split.
    + cbn [mbind result_bind].
      destruct (summarize addrs s _) as [[lines1 m1]|e] eqn:Hrest; [|done].
      cbn [fst snd]. intros [= <- <-].
      constructor; [|exact (IH _ _ _ Hrest)].
      exists n. repeat split; try done.
      intros Hlt. apply Z.ltb_ge in Hpos. lia.
Qed.

(** C10: at the end of a monitoring cycle every monitored address has its
    summary line; the signed count of a line is at most the number of
    blocks checked in the window, and at least zero; its percentage lies
    between 0 and 100, and is 0 when no block was checked. The gauges
    report the same: when a block was checked, the three gauges of every
    address hold the count, the total less the count and the percentage of
    its line; when none was, they are left as they were, because in
    [update_metrics] the division by a total of zero raises inside the
    [try] and the handler returns. *)
Theorem signing_summary_within_bounds (latest_block : option pyval)
  (m : metrics)
  (s : scan_state) (lines : list summary_line) (m' : metrics) :
  (monitor_cycle latest_block m = Ret (Some (s, lines, m')) ->
   map line_addr lines = addresses /\
   Forall (line_within_bounds s) lines /\
   (blocks_checked s = 0 -> m' = m) /\
   (blocks_checked s <> 0 ->
    Forall (fun l => gauges_of m' (line_addr l)
                     = (Some (line_signed l),
                        Some (line_total l - line_signed l),
                        Some (line_percentage l))) lines)) /\
  (forall addr signed,
     update_body addr signed 0 m = Raise ZeroDivisionError /\
     update_metrics addr signed 0 m = m).
Proof.
  split; [|by intros addr signed].
  intros H. pose proof (cycle_checked _ _ _ _ _ H) as Hc.
  apply monitor_cycle_parts in H as (latest_height & Hscan & Hsum).
  assert (Hs : counters_nonnegative s).
  { eapply scan_nonnegative; [|exact Hscan]. split; cbn; [lia|].
    intros addr n Hn. apply initial_counts_zero in Hn. lia. }
  destruct (summarize_bounds _ _ _ _ _ Hs Hsum) as [Hall Hmap].
  destruct (summarize_gauges _ _ _ _ _ Hsum) as [Hzero Hset].
  pose proof (summarize_lines _ _ _ _ _ Hsum) as Hlines.
  cbn zeta in *.
  replace (Z.min (blocks_checked s) total_blocks) with (blocks_checked s)
    in * by lia.
  split; [done|]. split; [done|]. split; [exact Hzero|].
  intros Hnz. apply Forall_forall. intros l Hl.
  rewrite Forall_forall in Hlines.
  destruct (Hlines l Hl) as (n & Hn & Hsigned & Htotal & Hperc).
  assert (Hin : In (line_addr l) addresses).
  { rewrite <- Hmap. apply in_map. by apply list_elem_of_In. }
  destruct (proj1 (Hset Hnz (line_addr l)) Hin) as (n' & Hn' & Hg).
  rewrite Hn in Hn'. injection Hn' as <-.
  rewrite Hg, Hsigned, Htotal, Hperc by lia. reflexivity.
Qed.

End MonitorProperties.

Lemma signing_summary_within_bounds_witness :
  (exists s lines m',
     Monitor.monitor_cycle Scenario.monitored_addresses Scenario.signed_block
       Scenario.served_validators (Some (Scenario.block_json 3 []))
       Scenario.no_metrics = Ret (Some (s, lines, m')) /\
     Monitor.blocks_checked s = 3 /\
     map Monitor.line_signed lines = [3; 0] /\
     map Monitor.line_addr lines = Scenario.monitored_addresses /\
     Forall (Monitor.line_within_bounds s) lines /\
     Monitor.BLOCKS_SIGNED m' !! "AB12" = Some 3 /\
     Forall (fun l => Gauges.gauges_of m' (Monitor.line_addr l)
                      = (Some (Monitor.line_signed l),
                         Some (Monitor.line_total l - Monitor.line_signed l),
                         Some (Monitor.line_percentage l))) lines) /\
  (exists s lines m',
     Monitor.monitor_cycle Scenario.monitored_addresses Scenario.no_block
       Scenario.served_validators (Some (Scenario.block_json 3 []))
       Scenario.no_metrics = Ret (Some (s, lines, m')) /\
     Monitor.blocks_checked s = 0 /\
     map Monitor.line_percentage lines = [inject_Z 0; inject_Z 0] /\
     m' = Scenario.no_metrics /\
     Forall (Monitor.line_within_bounds s) lines).
Proof.
  split.
  - destruct (Monitor.monitor_cycle Scenario.monitored_addresses
                Scenario.signed_block Scenario.served_validators
                (Some (Scenario.block_json 3 [])) Scenario.no_metrics)
      as [[[[s lines] m']|]|e] eqn:H; try (vm_compute in H; discriminate H).
    exists s, lines, m'.
    destruct (proj1 (signing_summary_within_bounds
                       Scenario.monitored_addresses Scenario.signed_block
                       Scenario.served_validators
                       (Some (Scenario.block_json 3 []))
                       Scenario.no_metrics s lines m') H)
      as (Hmap & Hall & _ & Hgauges).
    vm_compute in H. injection H as <- <- <-.
    split; [reflexivity|]. split; [reflexivity|]. split; [reflexivity|].
    split; [exact Hmap|]. split; [exact Hall|]. split; [reflexivity|].
    apply Hgauges. discriminate.
  - destruct (Monitor.monitor_cycle Scenario.monitored_addresses
                Scenario.no_block Scenario.served_validators
                (Some (Scenario.block_json 3 [])) Scenario.no_metrics)
      as [[[[s lines] m']|]|e] eqn:H; try (vm_compute in H; discriminate H).
    exists s, lines, m'.
    destruct (proj1 (signing_summary_within_bounds
                       Scenario.monitored_addresses Scenario.no_block
                       Scenario.served_validators
                       (Some (Scenario.block_json 3 []))
                       Scenario.no_metrics s lines m') H)
      as (Hmap & Hall & Hzero & _).
    assert (Hm : m' = Scenario.no_metrics).
    { apply Hzero. vm_compute in H. by injection H as <- _ _. }
    vm_compute in H. injection H as <- <- _.
    repeat split; try reflexivity; assumption.
Defined.

Section TimestampProperties.

Import Timestamp.

#[local] Arguments String.append !s1 s2 : simpl nomatch.

(** Case analysis on a number between 0 and [n]. *)
Ltac each_below v n :=
  let k := fresh "k" in
  let Hk := fresh "Hk" in
  assert (exists k : nat, v = Z.of_nat k /\ (k < n)%nat) as (k & -> & Hk)
    by (exists (Z.to_nat v); lia);
  repeat (destruct k as [|k]; [|try lia]).

Lemma digit_char_spec d :
  is_digit_value d ->
  is_digit (digit_char d) = true /\ digit_val (digit_char d) = d /\
  Ascii.eqb (digit_char d) "Z" = false /\
  Ascii.eqb (digit_char d) "." = false.
Proof.
  unfold is_digit_value. intros H.
  each_below d 10%nat; repeat split; reflexivity.
Qed.

Lemma is_digit_digit_char d :
  is_digit_value d -> is_digit (digit_char d) = true.
Proof. intros H. apply (digit_char_spec d H). Qed.

Lemma digit_val_digit_char d :
  is_digit_value d -> digit_val (digit_char d) = d.
Proof. intros H. apply (digit_char_spec d H). Qed.

(** *** The string primitives on a rendered timestamp *)

Lemma rstrip_keeps c s a :
  Ascii.eqb a c = false ->
  rstrip c (s ++ String a EmptyString) = (s ++ String a EmptyString)%string.
Proof.
  intros Ha. induction s as [|b s IH]; cbn -[Ascii.eqb].
  - by rewrite Ha.
  - rewrite IH. by destruct s.
Qed.

Lemma rstrip_snoc c s :
  rstrip c (s ++ String c EmptyString) = rstrip c s.
Proof.
  induction s as [|b s IH]; cbn -[Ascii.eqb].
  - by rewrite Ascii.eqb_refl.
  - by rewrite IH.
Qed.

Lemma mem_char_app c s1 s2 :
  mem_char c (s1 ++ s2) = mem_char c s1 || mem_char c s2.
Proof.
  induction s1 as [|a s1 IH]; cbn -[Ascii.eqb]; [done|]. rewrite IH.
  by destruct (Ascii.eqb a c).
Qed.

Lemma split_no_separator c s :
  mem_char c s = false -> split c s = [s].
Proof.
  induction s as [|a s IH]; cbn -[Ascii.eqb]; [done|].
  destruct (Ascii.eqb a c); [done|]. cbn -[Ascii.eqb]. intros H. by rewrite IH.
Qed.

Lemma split_at_separator c s1 s2 :
  mem_char c s1 = false ->
  split c (s1 ++ String c s2) = s1 :: split c s2.
Proof.
  induction s1 as [|a s1 IH]; cbn -[Ascii.eqb].
  - by rewrite Ascii.eqb_refl.
  - destruct (Ascii.eqb a c); [done|]. cbn -[Ascii.eqb]. intros H. by rewrite IH.
Qed.

Lemma mem_char_digits c ds :
  (forall d, is_digit_value d -> Ascii.eqb (digit_char d) c = false) ->
  Forall is_digit_value ds ->
  mem_char c (digits_string ds) = false.
Proof.
  intros Hc. induction 1 as [|d ds Hd _ IH]; cbn -[Ascii.eqb]; [done|].
  by rewrite (Hc d Hd), IH.
Qed.

Lemma take_digits n ds :
  take n (digits_string ds) = digits_string (firstn n ds).
Proof.
  revert ds. induction n as [|n IH]; intros [|d ds]; cbn -[Ascii.eqb]; try done.
  by rewrite IH.
Qed.

(** *** The expression on a rendered timestamp *)

Lemma starts_with_pbind {A B} (p : parser A) (f : A -> parser B) s a r y :
  starts_with (p s) (a, r) ->
  starts_with (f a r) y ->
  starts_with (pbind p f s) y.
Proof.
  intros [tl Hp] [tl' Hf]. unfold pbind. rewrite Hp. cbn. rewrite Hf.
  by eexists.
Qed.

Lemma starts_with_lit {A} c (p : parser A) s x :
  starts_with (p s) x ->
  starts_with ((lit c >> p) (String c s)) x.
Proof.
  intros [tl Hp]. unfold pthen, pbind, lit. rewrite Ascii.eqb_refl. cbn.
  rewrite Hp. by eexists.
Qed.

Lemma re_Y_pad4 y r :
  0 <= y <= 9999 -> re_Y (pad4 y ++ r) = [(y, r)].
Proof.
  intros Hy. unfold pad4, pad3, pad2. cbn [String.append]. unfold re_Y.
  assert (H1 : is_digit_value (y / 1000))
    by (unfold is_digit_value; Z.div_mod_to_equations; lia).
  assert (H2 : is_digit_value (y mod 1000 / 100))
    by (unfold is_digit_value; Z.div_mod_to_equations; lia).
  assert (H3 : is_digit_value ((y mod 1000) mod 100 / 10))
    by (unfold is_digit_value; Z.div_mod_to_equations; lia).
  assert (H4 : is_digit_value (((y mod 1000) mod 100) mod 10))
    by (unfold is_digit_value; Z.div_mod_to_equations; lia).
  rewrite !is_digit_digit_char, !digit_val_digit_char by done.
  cbn [andb]. do 2 f_equal. f_equal. Z.div_mod_to_equations. lia.
Qed.

Lemma re_m_pad2 v r :
  1 <= v <= 12 -> starts_with (re_m (pad2 v ++ r)) (v, r).
Proof.
  intros Hv. each_below v 13%nat; try lia; by eexists.
Qed.

Lemma re_d_pad2 v r :
  1 <= v <= 31 -> starts_with (re_d (pad2 v ++ r)) (v, r).
Proof.
  intros Hv. each_below v 32%nat; try lia; by eexists.
Qed.

Lemma re_H_pad2 v r :
  0 <= v <= 23 -> starts_with (re_H (pad2 v ++ r)) (v, r).
Proof.
  intros Hv. each_below v 24%nat; try lia; by eexists.
Qed.

Lemma re_M_pad2 v r :
  0 <= v <= 59 -> starts_with (re_M (pad2 v ++ r)) (v, r).
Proof.
  intros Hv. each_below v 60%nat; try lia; by eexists.
Qed.

Lemma re_S_pad2 v r :
  0 <= v <= 59 -> starts_with (re_S (pad2 v ++ r)) (v, r).
Proof.
  intros Hv. each_below v 60%nat; try lia; by eexists.
Qed.

Lemma append_assoc (a b c : string) :
  ((a ++ b) ++ c = a ++ (b ++ c))%string.
Proof. induction a as [|x a IH]; cbn; [done|]. by rewrite IH. Qed.

Lemma valid_datetime_ranges y m d h mi s us :
  valid_datetime (mkDatetime y m d h mi s us) = true ->
  1 <= y <= 9999 /\ 1 <= m <= 12 /\ 1 <= d <= 31 /\
  0 <= h <= 23 /\ 0 <= mi <= 59 /\ 0 <= s <= 59 /\ 0 <= us <= 999999.
Proof.
  unfold valid_datetime. cbn [year month day hour minute second microsecond].
  rewrite !andb_true_iff, !Z.leb_le. intros H.
  assert (days_in_month y m <= 31).
  { unfold days_in_month.
    repeat match goal with |- context [if ?b then _ else _] => destruct b end;
      lia. }
  lia.
Qed.

Lemma re_seconds_iso y m d h mi s rest :
  valid_datetime (mkDatetime y m d h mi s 0) = true ->
  starts_with (re_seconds (iso_seconds y m d h mi s ++ rest))
              (mkDatetime y m d h mi s 0, rest).
Proof.
  intros Hv. apply valid_datetime_ranges in Hv.
  unfold iso_seconds. rewrite !append_assoc. cbn [String.append].
  unfold re_seconds.
  eapply starts_with_pbind.
  { rewrite re_Y_pad4 by lia. by eexists. }
  eapply starts_with_pbind; [apply starts_with_lit, re_m_pad2; lia|].
  eapply starts_with_pbind; [apply starts_with_lit, re_d_pad2; lia|].
  eapply starts_with_pbind; [apply starts_with_lit, re_H_pad2; lia|].
  eapply starts_with_pbind; [apply starts_with_lit, re_M_pad2; lia|].
  eapply starts_with_pbind; [apply starts_with_lit, re_S_pad2; lia|].
  by eexists.
Qed.

(** *** The fraction *)

Lemma place_value_bounds n : forall ds,
  Forall is_digit_value ds ->
  0 <= place_value n ds <= 10 ^ Z.of_nat n - 1.
Proof.
  induction n as [|n IH]; intros ds Hds; [cbn; lia|].
  destruct Hds as [|d ds Hd Hds]; cbn [place_value].
  - assert (0 < 10 ^ Z.of_nat (S n)) by (apply Z.pow_pos_nonneg; lia). lia.
  - specialize (IH ds Hds). unfold is_digit_value in Hd.
    rewrite Nat2Z.inj_succ, Z.pow_succ_r by lia.
    assert (0 < 10 ^ Z.of_nat n) by (apply Z.pow_pos_nonneg; lia). nia.
Qed.

Lemma digits_upto_all n : forall acc ds,
  Forall is_digit_value ds -> (length ds <= n)%nat ->
  starts_with (digits_upto n acc (digits_string ds))
              (acc + place_value n ds, EmptyString).
Proof.
  induction n as [|n IH]; intros acc ds Hds Hlen.
  - destruct ds; [|cbn in Hlen; lia]. cbn. rewrite Z.add_0_r. by eexists.
  - destruct Hds as [|d ds Hd Hds]; cbn [digits_string digits_upto place_value].
    + rewrite Z.add_0_r. by eexists.
    + rewrite is_digit_digit_char, digit_val_digit_char by done.
      destruct (IH (acc + d * 10 ^ Z.of_nat n) ds Hds) as [tl Htl];
        [cbn in Hlen; lia|].
      rewrite Htl, Z.add_assoc. by eexists.
Qed.

Lemma re_f_digits d ds :
  Forall is_digit_value (d :: ds) -> (length ds <= 5)%nat ->
  starts_with (re_f (digits_string (d :: ds)))
              (place_value 6 (d :: ds), EmptyString).
Proof.
  intros Hds Hlen. inversion Hds as [|? ? Hd Hds']; subst.
  cbn [digits_string re_f place_value].
  rewrite is_digit_digit_char, digit_val_digit_char by done.
  exact (digits_upto_all 5 (d * 10 ^ 5) ds Hds' Hlen).
Qed.

Lemma re_micros_iso y m d h mi s f fs :
  valid_datetime (mkDatetime y m d h mi s 0) = true ->
  Forall is_digit_value (f :: fs) -> (length fs <= 5)%nat ->
  starts_with
    (re_micros (iso_seconds y m d h mi s ++ "." ++ digits_string (f :: fs)))
    (mkDatetime y m d h mi s (place_value 6 (f :: fs)), EmptyString).
Proof.
  intros Hv Hds Hlen. unfold re_micros.
  eapply starts_with_pbind; [by apply re_seconds_iso|].
  cbn [String.append].
  eapply starts_with_pbind; [by apply starts_with_lit, re_f_digits|].
  by eexists.
Qed.

Lemma valid_datetime_microsecond y m d h mi s us :
  valid_datetime (mkDatetime y m d h mi s 0) = true ->
  0 <= us <= 999999 ->
  valid_datetime (mkDatetime y m d h mi s us) = true.
Proof.
  unfold valid_datetime. cbn [year month day hour minute second microsecond].
  rewrite !andb_true_iff, !Z.leb_le. lia.
Qed.

(** [strftime] keeps the first three of the six fraction digits. *)
Lemma strftime_millis y m d h mi s us :
  drop_last 3 (strftime (mkDatetime y m d h mi s us))
  = mysql_timestamp y m d h mi s (us / 1000).
Proof.
  unfold strftime, mysql_timestamp, year_text. cbn [year].
  destruct (y <? 10); [reflexivity|].
  destruct (y <? 100); [reflexivity|].
  destruct (y <? 1000); reflexivity.
Qed.

Lemma millis_of_micros frac :
  Forall is_digit_value frac ->
  place_value 6 (firstn 6 frac) / 1000 = millis frac.
Proof.
  unfold is_digit_value. intros H.
  do 6 (destruct H as [|? ? ? H];
        [cbn -[Z.div Z.mul Z.add]; Z.div_mod_to_equations; lia|]).
  cbn -[Z.div Z.mul Z.add]. Z.div_mod_to_equations. lia.
Qed.

(** *** The function on a rendered timestamp *)

Lemma rstrip_zone s d :
  is_digit_value d ->
  rstrip "Z" ((s ++ String (digit_char d) EmptyString) ++ "Z")
  = (s ++ String (digit_char d) EmptyString)%string.
Proof.
  intros Hd. rewrite rstrip_snoc. apply rstrip_keeps.
  apply (digit_char_spec d Hd).
Qed.

Lemma digits_string_snoc ds d :
  digits_string (ds ++ [d])
  = (digits_string ds ++ String (digit_char d) EmptyString)%string.
Proof. induction ds as [|x ds IH]; cbn; [done|]. by rewrite IH. Qed.

Lemma two_digits v :
  0 <= v <= 99 -> Forall is_digit_value [v / 10; v mod 10].
Proof.
  intros Hv. repeat constructor; Z.div_mod_to_equations; lia.
Qed.

Lemma no_dot_in_digits ds :
  Forall is_digit_value ds -> mem_char "." (digits_string ds) = false.
Proof.
  apply mem_char_digits. intros d Hd. apply (digit_char_spec d Hd).
Qed.

Lemma no_dot_in_seconds y m d h mi s :
  valid_datetime (mkDatetime y m d h mi s 0) = true ->
  mem_char "." (iso_seconds y m d h mi s) = false.
Proof.
  intros Hv. apply valid_datetime_ranges in Hv.
  change (iso_seconds y m d h mi s) with
    (digits_string [y / 1000; y mod 1000 / 100; (y mod 1000) mod 100 / 10;
                    ((y mod 1000) mod 100) mod 10]
     ++ "-" ++ digits_string [m / 10; m mod 10]
     ++ "-" ++ digits_string [d / 10; d mod 10]
     ++ "T" ++ digits_string [h / 10; h mod 10]
     ++ ":" ++ digits_string [mi / 10; mi mod 10]
     ++ ":" ++ digits_string [s / 10; s mod 10])%string.
  rewrite !mem_char_app, !no_dot_in_digits; try (apply two_digits; lia).
  - reflexivity.
  - repeat constructor; Z.div_mod_to_equations; lia.
Qed.

Lemma append_empty_r (s : string) : (s ++ "")%string = s.
Proof. induction s as [|a s IH]; cbn; [done|]. by rewrite IH. Qed.

Lemma rstrip_zone_digits pre ds :
  ds <> [] -> Forall is_digit_value ds ->
  rstrip "Z" ((pre ++ digits_string ds) ++ "Z")
  = (pre ++ digits_string ds)%string.
Proof.
  intros Hne Hds.
  destruct (exists_last Hne) as (init & l & ->).
  apply Forall_app in Hds as [_ Hl]. inversion Hl as [|? ? Hd _]; subst.
  rewrite digits_string_snoc, <- append_assoc. by apply rstrip_zone.
Qed.

Lemma strptime_starts re s dt :
  starts_with (re s) (dt, EmptyString) ->
  valid_datetime dt = true ->
  strptime re s = Ret dt.
Proof. intros [tl Hre] Hv. unfold strptime. by rewrite Hre, Hv. Qed.

Lemma parse_body_iso y m d h mi s frac :
  valid_datetime (mkDatetime y m d h mi s 0) = true ->
  Forall is_digit_value frac ->
  parse_body (PStr (iso_timestamp y m d h mi s frac))
  = Ret (mysql_timestamp y m d h mi s (millis frac)).
Proof.
  intros Hv Hfrac. pose proof (valid_datetime_ranges _ _ _ _ _ _ _ Hv) as Hr.
  unfold parse_body, iso_timestamp.
  destruct frac as [|f fs].
  - (* no fraction *)
    cbn [String.append].
    assert (Hstrip : rstrip "Z" (iso_seconds y m d h mi s ++ "Z")
                     = iso_seconds y m d h mi s).
    { change (iso_seconds y m d h mi s) with
        ((pad4 y ++ "-" ++ pad2 m ++ "-" ++ pad2 d ++ "T"
          ++ pad2 h ++ ":" ++ pad2 mi ++ ":")
         ++ digits_string [s / 10; s mod 10])%string.
      apply rstrip_zone_digits; [done|]. apply two_digits. lia. }
    rewrite Hstrip, (no_dot_in_seconds _ _ _ _ _ _ Hv).
    rewrite (strptime_starts re_seconds _ (mkDatetime y m d h mi s 0)); [|
      rewrite <- (append_empty_r (iso_seconds y m d h mi s)) at 1;
      by apply re_seconds_iso | done].
    cbn [mbind result_bind]. by rewrite strftime_millis.
  - (* a fraction *)
    assert (Hstrip :
      rstrip "Z" (iso_seconds y m d h mi s
                  ++ String "." (digits_string (f :: fs)) ++ "Z")
      = (iso_seconds y m d h mi s
         ++ String "." (digits_string (f :: fs)))%string).
    { rewrite <- append_assoc.
      replace (iso_seconds y m d h mi s
               ++ String "." (digits_string (f :: fs)))%string
        with ((iso_seconds y m d h mi s ++ ".")
              ++ digits_string (f :: fs))%string
        by (by rewrite append_assoc).
      by apply rstrip_zone_digits. }
    rewrite Hstrip.
    rewrite mem_char_app. cbn [mem_char]. rewrite Ascii.eqb_refl.
    cbn [orb]. rewrite orb_true_r.
    rewrite split_at_separator by by apply no_dot_in_seconds.
    rewrite split_no_separator by by apply no_dot_in_digits.
    rewrite take_digits. cbn [firstn].
    assert (Hfs : Forall is_digit_value (f :: firstn 5 fs)).
    { inversion Hfrac; subst. constructor; [done|]. by apply Forall_take. }
    assert (Hlen : (length (firstn 5 fs) <= 5)%nat)
      by (rewrite length_take; lia).
    pose proof (place_value_bounds 6 _ Hfs) as Hus.
    rewrite (strptime_starts re_micros _
               (mkDatetime y m d h mi s (place_value 6 (f :: firstn 5 fs))));
      [|by apply re_micros_iso|apply valid_datetime_microsecond; [done|]].
    2:{ change (10 ^ Z.of_nat 6 - 1) with 999999 in Hus. exact Hus. }
    cbn [mbind result_bind]. rewrite strftime_millis.
    by rewrite <- (millis_of_micros (f :: fs) Hfrac).
Qed.

(** Keeping the first three digits is rounding down: the milliseconds are
    the integer part of the fraction times 1000. *)
Lemma millis_is_floor frac :
  Forall is_digit_value frac ->
  millis frac = digits_value frac * 1000 / 10 ^ Z.of_nat (length frac).
Proof.
  unfold is_digit_value, digits_value. intros H.
  destruct H as [|a ? Ha H]; [reflexivity|].
  destruct H as [|b ? Hb H].
  { cbn -[Z.div Z.mul Z.add]. Z.div_mod_to_equations. lia. }
  destruct H as [|c tl Hc H].
  { cbn -[Z.div Z.mul Z.add]. Z.div_mod_to_equations. lia. }
  pose proof (place_value_bounds (length tl) tl H) as HR.
  cbn [millis length place_value].
  rewrite !Nat2Z.inj_succ, !Z.pow_succ_r by lia.
  set (P := 10 ^ Z.of_nat (length tl)) in *.
  set (R := place_value (length tl) tl) in *.
  assert (0 < P) by (apply Z.pow_pos_nonneg; lia).
  apply Z.div_unique with (r := 1000 * R); [left; lia|ring].
Qed.

(** C5: on a well-formed ISO-8601 timestamp, with or without fraction
    digits and with the zone marker Z, [_parse_timestamp] gives the same
    date and time of day with three fraction digits, the first three of the
    input padded with zeros, that is, the fraction cut to the millisecond
    and not rounded; on the timestamp of the specification's example the
    milliseconds are 123; the year is written as [%Y] writes it, so that
    the year 999 comes out with three digits; and when the body of its
    [try] raises, on any input, it returns the current time in the same
    form instead. *)
Theorem parse_timestamp_truncates (now : datetime) (y m d h mi s : Z)
  (frac : list Z) :
  (valid_datetime (mkDatetime y m d h mi s 0) = true ->
   Forall is_digit_value frac ->
   _parse_timestamp now (PStr (iso_timestamp y m d h mi s frac))
   = mysql_timestamp y m d h mi s (millis frac) /\
   millis frac = digits_value frac * 1000 / 10 ^ Z.of_nat (length frac)) /\
  _parse_timestamp now (PStr "2024-01-01T00:00:00.123456789Z")
  = "2024-01-01 00:00:00.123" /\
  _parse_timestamp now (PStr "0999-01-01T00:00:00.9996Z")
  = "999-01-01 00:00:00.999" /\
  (forall v e,
     parse_body v = Raise e ->
     _parse_timestamp now v = drop_last 3 (strftime now)) /\
  parse_body (PStr "not a timestamp") = Raise ValueError /\
  parse_body (PStr "2024-02-30T00:00:00Z") = Raise ValueError /\
  parse_body (PStr "2024-01-01T00:00:00.1.2Z") = Raise ValueError /\
  parse_body PNone = Raise AttributeError.
Proof.
  split.
  { intros Hv Hfrac. split; [|by apply millis_is_floor].
    unfold _parse_timestamp. by rewrite parse_body_iso. }
  split; [reflexivity|].
  split; [reflexivity|].
  split.
  { intros v e He. unfold _parse_timestamp. by rewrite He. }
  repeat split; reflexivity.
Qed.

End TimestampProperties.

Lemma parse_timestamp_truncates_witness :
  Timestamp._parse_timestamp Scenario.now
    (PStr (Timestamp.iso_timestamp 2024 1 1 0 0 0 [1; 2; 3; 4; 5; 6; 7; 8; 9]))
  = "2024-01-01 00:00:00.123" /\
  Timestamp.millis [1; 2; 3; 4; 5; 6; 7; 8; 9] = 123 /\
  Timestamp._parse_timestamp Scenario.now (PStr "2024-02-30T00:00:00Z")
  = "2026-11-03 12:00:00.987".
Proof.
  destruct (parse_timestamp_truncates Scenario.now 2024 1 1 0 0 0
              [1; 2; 3; 4; 5; 6; 7; 8; 9])
    as (Hiso & _ & _ & Hfallback & _ & Hbad & _).
  destruct Hiso as [Hparse Hfloor].
  { reflexivity. }
  { repeat constructor; unfold Timestamp.is_digit_value; lia. }
  split; [exact Hparse|]. split; [reflexivity|].
  exact (Hfallback _ _ Hbad).
Defined.

(** * Further properties *)

Section FetchEdgeCases.

Import Fetch.

(** X1: a unit the node has not produced yet. When the [/block] answer is a
    JSON object without ["result"], or whose ["result"] holds no block,
    [fetch_block_data] returns nothing and does so without entering its
    handler, so that no error line is printed for the unit. *)
Theorem absent_unit_is_passed_over_silently (node : rpc) (h st : Z)
  (d : list (string * pyval)) :
  block_endpoint node h = Response st (Some (PDict d)) ->
  (st <? 400) || (600 <=? st) = true ->
  (assoc "result" d = None \/
   exists inner, assoc "result" d = Some (PDict inner) /\
                 truthy (match assoc "block" inner with
                         | Some block => block
                         | None => PNone
                         end) = false) ->
  fetch_block_data node h = None /\ fetch_raises node h = false.
Proof.
  intros Hb Hst Hres.
  unfold fetch_block_data, fetch_raises, fetch_body. rewrite Hb.
  cbn [session_get mbind result_bind]. unfold raise_for_status. cbn [fst].
  replace ((400 <=? st) && (st <? 600)) with false
    by (symmetry; apply andb_false_iff; apply orb_true_iff in Hst; lia).
  cbn [json snd contains mbind result_bind].
  destruct Hres as [Hnone|(inner & Hsome & Hblock)].
  - rewrite Hnone. by cbn.
  - rewrite Hsome. cbn [negb index]. rewrite Hsome.
    cbn [get mbind result_bind].
    rewrite Hblock. by cbn.
Qed.

Lemma absent_unit_is_passed_over_silently_witness :
  let node := mkRpc (fun _ => Response 200 (Some (PDict [("error", PStr "height must be less than or equal to the current blockchain height")])))
                    (fun _ => NoResponse) in
  fetch_block_data node 9 = None /\ fetch_raises node 9 = false.
Proof.
  cbn zeta.
  apply (absent_unit_is_passed_over_silently _ 9 200
           [("error", PStr "height must be less than or equal to the current blockchain height")]).
  - reflexivity.
  - reflexivity.
  - by left.
Defined.

Lemma count_valid_bounds items : forall n,
  count_valid items = Ret n -> 0 <= n <= Z.of_nat (length items).
Proof.
  induction items as [|x items IH]; intros n; cbn [count_valid].
  - intros [= <-]. cbn. lia.
  - intros H. bind_inv H. injection H as <-.
    specialize (IH _ eq_refl).
    rewrite length_cons, Nat2Z.inj_succ.
    match goal with |- context [if ?b then _ else _] => destruct b end; lia.
Qed.

Lemma length_chars s : length (chars s) = String.length s.
Proof. induction s as [|a s IH]; cbn; [done|]. by rewrite IH. Qed.

Lemma iter_len v items l :
  iter v = Ret items -> len v = Ret l -> l = Z.of_nat (length items).
Proof.
  destruct v; cbn; try discriminate; intros [= <-] [= <-].
  - by rewrite length_chars.
  - reflexivity.
  - by rewrite length_map.
Qed.

(** X2: in every payload [fetch_block_data] produces, the count of valid
    signatures lies between zero and the total number of signatures. *)
Theorem valid_signatures_at_most_total (node : rpc) (h : Z)
  (bd : block_data) :
  fetch_block_data node h = Some bd ->
  0 <= valid_signatures bd <= total_signatures bd.
Proof.
  intros Hf. unfold fetch_block_data in Hf.
  destruct (fetch_body node h) as [[bd'|]|] eqn:Hbody; try discriminate Hf.
  injection Hf as ->.
  unfold fetch_body in Hbody. bind_inv Hbody.
  injection Hbody as <-. cbn [valid_signatures total_signatures].
  match goal with
  | Hi : iter ?v = Ret ?items, Hl : len ?v = Ret ?l,
    Hc : count_valid ?items = Ret ?n |- _ =>
      rewrite (iter_len _ _ _ Hi Hl); exact (count_valid_bounds _ _ Hc)
  end.
Qed.

Lemma valid_signatures_at_most_total_witness :
  exists bd, fetch_block_data Signatures.example_node 7 = Some bd /\
             0 <= valid_signatures bd <= total_signatures bd /\
             valid_signatures bd = 2 /\ total_signatures bd = 4.
Proof.
  destruct (fetch_block_data Signatures.example_node 7) as [bd|] eqn:Hf;
    [|vm_compute in Hf; discriminate Hf].
  exists bd. split; [reflexivity|].
  split; [exact (valid_signatures_at_most_total _ _ _ Hf)|].
  vm_compute in Hf. injection Hf as <-. by split.
Defined.

(** X3: the proposer's voting power and priority are read, as integers,
    from the first entry of the validator set whose address equals the
    proposer's, whatever else the entries carry; when no entry has that
    address both are zero. *)
Theorem find_proposer_first_match (validators : list pyval)
  (proposer : pyval) (vp pp : Z) :
  find_proposer validators proposer = Ret (vp, pp) ->
  (Forall (ValidatorSet.has_address proposer false) validators /\
   vp = 0 /\ pp = 0) \/
  (exists i validator,
     validators !! i = Some validator /\
     ValidatorSet.has_address proposer true validator /\
     (forall j earlier, (j < i)%nat -> validators !! j = Some earlier ->
                        ValidatorSet.has_address proposer false earlier) /\
     ValidatorSet.int_field validator "voting_power" = Ret vp /\
     ValidatorSet.int_field validator "proposer_priority" = Ret pp).
Proof.
  revert vp pp.
  induction validators as [|v validators IH]; intros vp pp;
    cbn [find_proposer].
  - intros [= <- <-]. left. by repeat split.
  - destruct (get v "address" PNone) as [a|e] eqn:Ha; [|done].
    cbn [mbind result_bind]. destruct (eqb a proposer) eqn:Heq.
    + intros H. right. exists 0%nat, v.
      split; [done|]. split; [by exists a|].
      split; [intros j earlier Hj; lia|].
      unfold ValidatorSet.int_field.
      destruct (get v "voting_power" (PInt 0)) as [x|]; [|done].
      cbn [mbind result_bind] in *.
      destruct (int x) as [x'|]; [|done]. cbn [mbind result_bind] in *.
      destruct (get v "proposer_priority" (PInt 0)) as [y|]; [|done].
      cbn [mbind result_bind] in *.
      destruct (int y) as [y'|]; [|done]. cbn [mbind result_bind] in *.
      by injection H as <- <-.
    + intros H. destruct (IH _ _ H) as [(Hall & -> & ->)|Hfound].
      * left. split; [|done]. constructor; [by exists a|done].
      * right. destruct Hfound as (i & w & Hw & Hadr & Hbefore & Hvp & Hpp).
        exists (S i), w. split; [done|]. split; [done|].
        split; [|done]. intros [|j] earlier Hj; cbn.
        -- intros [= <-]. by exists a.
        -- apply Hbefore. lia.
Qed.

Lemma find_proposer_first_match_witness :
  find_proposer ValidatorSet.listed (PStr "AB12") = Ret (9, -3) /\
  exists i validator,
    ValidatorSet.listed !! i = Some validator /\
    ValidatorSet.has_address (PStr "AB12") true validator /\
    ValidatorSet.int_field validator "voting_power" = Ret 9.
Proof.
  split; [reflexivity|].
  destruct (find_proposer_first_match ValidatorSet.listed (PStr "AB12")
              9 (-3) eq_refl)
    as [(_ & Hzero & _)|(i & validator & Hi & Ha & _ & Hvp & _)];
    [discriminate Hzero|].
  by exists i, validator.
Defined.

End FetchEdgeCases.

Section TimestampEdgeCases.

Import Timestamp.

#[local] Arguments String.append !s1 s2 : simpl nomatch.

Lemma rstrip_markers s n :
  rstrip "Z" (s ++ Zone.markers n) = rstrip "Z" s.
Proof.
  revert s. induction n as [|n IH]; intros s; cbn [Zone.markers].
  - by rewrite append_empty_r.
  - change (String "Z" (Zone.markers n)) with ("Z" ++ Zone.markers n)%string.
    by rewrite <- append_assoc, IH, rstrip_snoc.
Qed.

(** X4: the letters Z at the end of a timestamp are stripped before
    anything else is looked at: with any number of them, one or several or
    none, the result is the same. *)
Theorem parse_timestamp_ignores_zone_markers (now : datetime) (s : string)
  (n : nat) :
  _parse_timestamp now (PStr (s ++ Zone.markers n))
  = _parse_timestamp now (PStr s).
Proof.
  unfold _parse_timestamp, parse_body. by rewrite rstrip_markers.
Qed.

Lemma strptime_valid re s dt :
  strptime re s = Ret dt -> valid_datetime dt = true.
Proof.
  unfold strptime. destruct (re s) as [|[dt' [|]] tl]; try discriminate.
  destruct (valid_datetime dt') eqn:Hv; [|discriminate]. by intros [= <-].
Qed.

(** X5: whatever it is given, [_parse_timestamp] returns a timestamp of the
    form [Y-MM-DD HH:MM:SS.mmm], the year as [%Y] writes it (four digits
    from the year 1000 on, fewer below): that of a date and time that
    [datetime] accepts, read from the input, or that of the clock. It never
    returns its input unparsed. *)
Theorem parse_timestamp_always_mysql_form (now : datetime) (v : pyval) :
  exists dt,
    (dt = now \/ valid_datetime dt = true /\ exists e, v = PStr e) /\
    _parse_timestamp now v
    = mysql_timestamp (year dt) (month dt) (day dt) (hour dt) (minute dt)
                      (second dt) (microsecond dt / 1000).
Proof.
  unfold _parse_timestamp.
  destruct (parse_body v) as [s|e] eqn:Hp.
  - unfold parse_body in Hp. destruct v as [| | |x| |]; try discriminate Hp.
    bind_inv Hp. injection Hp as <-.
    match goal with H : _ = Ret ?dt |- _ => exists dt; split end.
    + right. split; [|by eexists].
      match goal with H : _ = Ret ?dt |- _ =>
        destruct (mem_char "." (rstrip "Z" x));
          [destruct (split "." (rstrip "Z" x)) as [|? [|? [|]]];
             try discriminate H|];
          by apply strptime_valid in H end.
    + match goal with |- context [strftime ?dt] =>
        destruct dt; exact (strftime_millis _ _ _ _ _ _ _) end.
  - exists now. split; [by left|].
    destruct now. exact (strftime_millis _ _ _ _ _ _ _).
Qed.

End TimestampEdgeCases.

Section UpsertProperties.

Import Db Store Upsert.

Lemma effect_apply st t n :
  is_upsert st = true ->
  apply_statement st (t, n) = Ret (effect st t, n).
Proof.
  unfold effect.
  destruct st as [| | | |a ?|? a ?|]; try discriminate;
    try destruct a; try discriminate; reflexivity.
Qed.

Lemma after_nil c : pool_connection c -> after [] c = c.
Proof. destruct c as [k a t w n]. intros [Hcw _]. cbn in *. by subst. Qed.

Lemma after_app sts1 sts2 c :
  after (sts1 ++ sts2) c = after sts2 (after sts1 c).
Proof. unfold after, effect_all. cbn. by rewrite fold_left_app. Qed.

Lemma after_pool sts c :
  pool_connection c -> pool_connection (after sts c).
Proof. intros [_ Ha]. split; [done|]. exact Ha. Qed.

Lemma runs_as_lift {A} (r : result A) : runs_as (lift r) [] r.
Proof.
  split; [constructor|]. intros c _ Hp. unfold lift. by rewrite after_nil.
Qed.

Lemma runs_as_commit : runs_as conn_commit [] (Ret tt).
Proof.
  split; [constructor|]. intros c _ Hp. unfold conn_commit.
  rewrite after_nil by done. f_equal.
  destruct c as [k a t w n]. destruct Hp as [Hcw _]. cbn in *. by subst.
Qed.

Lemma traced_execute rejects st :
  is_insert st = false -> traced (execute rejects st).
Proof.
  intros Hi. destruct (rejects st) eqn:Hr.
  { exists [], (Raise DatabaseError). split; [constructor|].
    intros c Hk Hp. unfold execute. by rewrite Hk, Hr, after_nil. }
  destruct (is_upsert st) eqn:Hu.
  - exists [st], (Ret tt). split; [by repeat constructor|].
    intros c Hk [Hcw Ha]. unfold execute.
    rewrite Hk, Hr, (effect_apply st _ _ Hu), (Ha Hk). unfold after.
    by rewrite Hk, (Ha Hk).
  - exists [], (Raise DatabaseError). split; [constructor|].
    intros c Hk Hp. unfold execute. rewrite Hk, Hr, after_nil by done.
    destruct st as [| | | |a ?|? a ?|]; try discriminate;
      destruct a; try discriminate; reflexivity.
Qed.

Lemma traced_lift {A} (r : result A) : traced (lift r).
Proof. exists [], r. apply runs_as_lift. Qed.

Lemma traced_commit : traced conn_commit.
Proof. exists [], (Ret tt). apply runs_as_commit. Qed.

Lemma traced_bind {A B} (p : db A) (f : A -> db B) :
  traced p -> (forall a, traced (f a)) -> traced (p ≫= f).
Proof.
  intros (sts & [a|e] & Hall & Hp) Hf.
  - destruct (Hf a) as (sts' & r' & Hall' & Hfa).
    exists (sts ++ sts')%list, r'. split; [by apply Forall_app|].
    intros c Hk Hpool. unfold mbind, db_bind. rewrite (Hp c Hk Hpool).
    rewrite (Hfa (after sts c)); [by rewrite after_app|done|by apply after_pool].
  - exists sts, (Raise e). split; [done|].
    intros c Hk Hpool. unfold mbind, db_bind. by rewrite (Hp c Hk Hpool).
Qed.

Lemma traced_ret {A} (a : A) : traced (mret a : db A).
Proof. exact (traced_lift (Ret a)). Qed.

Lemma traced_for_each {A} (body : A -> db unit) xs :
  (forall x, traced (body x)) -> traced (for_each body xs).
Proof.
  intros Hb. induction xs as [|x xs IH]; cbn [for_each].
  - apply traced_ret.
  - apply traced_bind; [apply Hb|]. by intros _.
Qed.

(** A store method, which looks at the kind of the database first. *)
Lemma traced_mysql {A} (p q : db A) :
  traced p ->
  traced (fun c => match kind c with Mysql => p c | Sqlite => q c end).
Proof.
  intros (sts & r & Hall & Hp). exists sts, r. split; [done|].
  intros c Hk Hpool. rewrite Hk. by apply Hp.
Qed.

Lemma traced_bind_lift {A B} (r : result A) (f : A -> db B) :
  (forall a, r = Ret a -> traced (f a)) -> traced (lift r ≫= f).
Proof.
  intros Hf. destruct r as [a|e].
  - destruct (Hf a eq_refl) as (sts & r & Hall & Hp).
    exists sts, r. split; [done|]. intros c Hk Hpool.
    unfold mbind, db_bind, lift. by apply Hp.
  - exists [], (Raise e). split; [constructor|]. intros c Hk Hpool.
    unfold mbind, db_bind, lift. by rewrite after_nil.
Qed.

(** Two upserts either write the same row, and the later one wins, or they
    write different rows, and their order does not matter. *)
Lemma overwrite_or_commute x y :
  is_upsert x = true -> is_upsert y = true ->
  (forall t, effect x (effect y t) = effect x t) \/
  (forall t, effect x (effect y t) = effect y (effect x t)).
Proof.
  intros Hx Hy.
  destruct x as [h1 r1|h1 r1| | |a1 r1|h1 a1 r1|b1 v1]; try discriminate Hx;
    try (destruct a1 as [| | |a1| |]; try discriminate Hx);
    destruct y as [h2 r2|h2 r2| | |a2 r2|h2 a2 r2|b2 v2]; try discriminate Hy;
    try (destruct a2 as [| | |a2| |]; try discriminate Hy);
    try (right; intros t; reflexivity).
  - destruct (decide (h1 = h2)) as [->|Hne]; [left|right]; intros t;
      unfold effect; cbn; f_equal;
      [apply insert_insert_eq|by apply insert_insert_ne].
  - destruct (decide (h1 = h2)) as [->|Hne]; [left|right]; intros t;
      unfold effect; cbn; f_equal;
      [apply insert_insert_eq|by apply insert_insert_ne].
  - destruct (decide (a1 = a2)) as [->|Hne]; [left|right]; intros t;
      unfold effect; cbn; f_equal;
      [apply insert_insert_eq|by apply insert_insert_ne].
  - destruct (decide ((h1, a1) = (h2, a2))) as [[= -> ->]|Hne]; [left|right];
      intros t; unfold effect; cbn; f_equal;
      [apply insert_insert_eq|by apply insert_insert_ne].
  - left. intros t. unfold effect. cbn. f_equal. apply insert_insert_eq.
Qed.

Lemma effect_twice x t :
  is_upsert x = true -> effect x (effect x t) = effect x t.
Proof.
  intros Hx.
  destruct x as [h1 r1|h1 r1| | |a1 r1|h1 a1 r1|b1 v1]; try discriminate Hx;
    try (destruct a1 as [| | |a1| |]; try discriminate Hx);
    unfold effect; cbn; f_equal; apply insert_insert_eq.
Qed.

Lemma effect_all_snoc sts st t :
  effect_all (sts ++ [st]) t = effect st (effect_all sts t).
Proof. unfold effect_all. by rewrite fold_left_app. Qed.

(** A statement sent again after others wipes out its own earlier run. *)
Lemma effect_absorbs_earlier x sts :
  is_upsert x = true -> Forall (fun st => is_upsert st = true) sts ->
  forall t, effect x (effect_all sts (effect x t))
            = effect x (effect_all sts t).
Proof.
  intros Hx. induction sts as [|y sts IH] using rev_ind; intros Hall t.
  - cbn. by apply effect_twice.
  - apply Forall_app in Hall as [Hall Hy].
    inversion Hy as [|? ? Hy' _]; subst.
    rewrite !effect_all_snoc.
    destruct (overwrite_or_commute x y Hx Hy') as [H|H].
    + rewrite !H. by apply IH.
    + rewrite !H. f_equal. by apply IH.
Qed.

Lemma effect_all_idempotent sts :
  Forall (fun st => is_upsert st = true) sts ->
  forall t, effect_all sts (effect_all sts t) = effect_all sts t.
Proof.
  induction sts as [|x sts IH] using rev_ind; intros Hall t; [done|].
  apply Forall_app in Hall as [Hall Hx].
  inversion Hx as [|? ? Hx' _]; subst.
  rewrite !effect_all_snoc, effect_absorbs_earlier by done.
  by rewrite IH.
Qed.

Lemma after_idempotent sts c :
  Forall (fun st => is_upsert st = true) sts ->
  after sts (after sts c) = after sts c.
Proof.
  intros Hall. unfold after. cbn. by rewrite effect_all_idempotent.
Qed.

(** A traced program run a second time ends as the first time and leaves
    the connection as the first run left it. *)
Lemma traced_idempotent {A} (p : db A) c :
  traced p -> kind c = Mysql -> pool_connection c ->
  p (snd (p c)) = p c.
Proof.
  intros (sts & r & Hall & Hp) Hk Hpool.
  rewrite (Hp c Hk Hpool). cbn [snd].
  rewrite (Hp (after sts c)); [|done|by apply after_pool].
  by rewrite after_idempotent.
Qed.

(** *** The same rows written at two times *)

Lemma same_row_upserts x y :
  same_row x y = true -> is_upsert x = true /\ is_upsert y = true.
Proof.
  destruct x as [| | | |a1 ?|? a1 ?|]; destruct y as [| | | |a2 ?|? a2 ?|];
    try discriminate; try destruct a1; try discriminate;
    try destruct a2; try discriminate; by split.
Qed.

Lemma same_row_refl x : is_upsert x = true -> same_row x x = true.
Proof.
  destruct x as [| | | |a ?|? a ?|]; try discriminate;
    try destruct a; try discriminate; intros _; cbn;
    rewrite ?Z.eqb_refl, ?String.eqb_refl; reflexivity.
Qed.

(** The later of two upserts of a row is the one that stays. *)
Lemma same_row_overwrites x y t :
  same_row x y = true -> effect y (effect x t) = effect y t.
Proof.
  destruct x as [h1 r1|h1 r1| | |a1 r1|h1 a1 r1|b1 v1];
    destruct y as [h2 r2|h2 r2| | |a2 r2|h2 a2 r2|b2 v2];
    try discriminate; try destruct a1; try discriminate;
    try destruct a2; try discriminate; cbn [same_row].
  - intros ->%Z.eqb_eq. unfold effect. cbn. f_equal. apply insert_insert_eq.
  - intros ->%String.eqb_eq. unfold effect. cbn. f_equal.
    apply insert_insert_eq.
  - intros ->%String.eqb_eq. unfold effect. cbn. f_equal.
    apply insert_insert_eq.
  - intros [->%Z.eqb_eq ->%String.eqb_eq]%andb_true_iff.
    unfold effect. cbn. f_equal. apply insert_insert_eq.
  - intros _. unfold effect. cbn. f_equal. apply insert_insert_eq.
Qed.

Lemma effect_all_cons x sts t :
  effect_all (x :: sts) t = effect_all sts (effect x t).
Proof. reflexivity. Qed.

(** An upsert is wiped out by later statements among which its row is
    written again. *)
Lemma effect_absorbed x sts : forall t,
  is_upsert x = true -> Forall (fun st => is_upsert st = true) sts ->
  Exists (fun y => same_row x y = true) sts ->
  effect_all sts (effect x t) = effect_all sts t.
Proof.
  induction sts as [|z sts IH]; intros t Hx Hall Hex.
  - inversion Hex.
  - inversion Hall as [|? ? Hz Hall']; subst. rewrite !effect_all_cons.
    destruct (same_row x z) eqn:Hxz.
    + by rewrite same_row_overwrites.
    + inversion Hex as [? ? Hhere|? ? Hlater]; subst; [congruence|].
      destruct (overwrite_or_commute z x Hz Hx) as [H|H]; rewrite H;
        [done|by apply IH].
Qed.

Lemma effect_all_absorbed sts1 sts2 : forall t,
  Forall (fun st => is_upsert st = true) sts2 ->
  Forall2 (fun x y => same_row x y = true) sts1 sts2 ->
  effect_all sts2 (effect_all sts1 t) = effect_all sts2 t.
Proof.
  intros t Hall2 Hrows.
  assert (Hall1 : Forall (fun x => is_upsert x = true /\
                    Exists (fun y => same_row x y = true) sts2) sts1).
  { clear Hall2 t. induction Hrows as [|x y sts1 sts2 Hxy Hrows IH];
      [constructor|].
    constructor.
    - split; [by apply same_row_upserts in Hxy as [? _]|by left].
    - eapply Forall_impl; [exact IH|]. cbn beta.
      intros z [Hz Hex]. split; [done|by right]. }
  clear Hrows. revert t.
  induction sts1 as [|x sts1 IH]; intros t; [done|].
  inversion Hall1 as [|? ? [Hx Hex] Hall1']; subst.
  rewrite effect_all_cons, IH by done. by apply effect_absorbed.
Qed.

Lemma same_row_keys x y t t' :
  same_row x y = true -> same_keys t t' ->
  same_keys (effect x t) (effect y t').
Proof.
  unfold same_keys. intros Hxy (H1 & H2 & H3 & H4 & H5 & H6 & H7).
  destruct x as [h1 r1|h1 r1| | |a1 r1|h1 a1 r1|b1 v1];
    destruct y as [h2 r2|h2 r2| | |a2 r2|h2 a2 r2|b2 v2];
    try discriminate; try destruct a1; try discriminate;
    try destruct a2; try discriminate; cbn [same_row] in Hxy;
    unfold effect; cbn; rewrite ?dom_insert_L.
  - apply Z.eqb_eq in Hxy as ->. rewrite H1. by repeat split.
  - apply String.eqb_eq in Hxy as ->. rewrite H2. by repeat split.
  - apply String.eqb_eq in Hxy as ->. rewrite H4. by repeat split.
  - apply andb_true_iff in Hxy as [->%Z.eqb_eq ->%String.eqb_eq].
    rewrite H6. by repeat split.
  - rewrite H7. by repeat split.
Qed.

Lemma effect_all_keys sts1 sts2 :
  Forall2 (fun x y => same_row x y = true) sts1 sts2 ->
  forall t t', same_keys t t' ->
               same_keys (effect_all sts1 t) (effect_all sts2 t').
Proof.
  induction 1 as [|x y sts1 sts2 Hxy Hrows IH]; intros t t' Ht; [done|].
  rewrite !effect_all_cons. apply IH. by apply same_row_keys.
Qed.

Lemma same_keys_refl t : same_keys t t.
Proof. by repeat split. Qed.

(** What two programs that end alike leave: the second one, run after the
    first, leaves what it leaves when run alone, and that has the rows of
    the first. *)
Lemma alike_twice {A} (p1 p2 : db A) c :
  runs_alike p1 p2 -> kind c = Mysql -> pool_connection c ->
  p2 (snd (p1 c)) = p2 c /\ fst (p1 c) = fst (p2 c) /\
  same_keys (committed (snd (p1 c))) (committed (snd (p2 c))).
Proof.
  intros (sts1 & sts2 & r & [Hall1 Hp1] & [Hall2 Hp2] & Hrows) Hk Hpool.
  rewrite (Hp1 c Hk Hpool), (Hp2 c Hk Hpool). cbn [fst snd].
  rewrite (Hp2 (after sts1 c)); [|done|by apply after_pool].
  split; [|split; [done|]].
  - f_equal. unfold after. cbn. by rewrite effect_all_absorbed.
  - unfold after. cbn. apply effect_all_keys; [done|apply same_keys_refl].
Qed.

Lemma alike_same {A} (p : db A) : traced p -> runs_alike p p.
Proof.
  intros (sts & r & Hall & Hp). exists sts, sts, r.
  split; [by split|]. split; [by split|].
  clear Hp. induction Hall as [|x sts Hx Hall IH]; constructor; [|done].
  by apply same_row_refl.
Qed.

Lemma alike_ext {A} (p1 p1' p2 p2' : db A) :
  (forall c, p1 c = p1' c) -> (forall c, p2 c = p2' c) ->
  runs_alike p1' p2' -> runs_alike p1 p2.
Proof.
  intros H1 H2 (sts1 & sts2 & r & [Hall1 Hp1] & [Hall2 Hp2] & Hrows).
  exists sts1, sts2, r. split; [|split; [|done]].
  - split; [done|]. intros c Hk Hpool. rewrite H1. by apply Hp1.
  - split; [done|]. intros c Hk Hpool. rewrite H2. by apply Hp2.
Qed.

Lemma alike_bind {A B} (p1 p2 : db A) (f1 f2 : A -> db B) :
  runs_alike p1 p2 -> (forall a, runs_alike (f1 a) (f2 a)) ->
  runs_alike (p1 ≫= f1) (p2 ≫= f2).
Proof.
  intros (sts1 & sts2 & [a|e] & [Hall1 Hp1] & [Hall2 Hp2] & Hrows) Hf.
  - destruct (Hf a)
      as (sts1' & sts2' & r' & [Hall1' Hf1] & [Hall2' Hf2] & Hrows').
    exists (sts1 ++ sts1')%list, (sts2 ++ sts2')%list, r'.
    split; [|split; [|by apply Forall2_app]].
    + split; [by apply Forall_app|]. intros c Hk Hpool.
      unfold mbind, db_bind. rewrite (Hp1 c Hk Hpool).
      rewrite (Hf1 (after sts1 c));
        [by rewrite after_app|done|by apply after_pool].
    + split; [by apply Forall_app|]. intros c Hk Hpool.
      unfold mbind, db_bind. rewrite (Hp2 c Hk Hpool).
      rewrite (Hf2 (after sts2 c));
        [by rewrite after_app|done|by apply after_pool].
  - exists sts1, sts2, (Raise e). split; [|split; [|done]].
    + split; [done|]. intros c Hk Hpool.
      unfold mbind, db_bind. by rewrite (Hp1 c Hk Hpool).
    + split; [done|]. intros c Hk Hpool.
      unfold mbind, db_bind. by rewrite (Hp2 c Hk Hpool).
Qed.

Lemma alike_bind_lift {A B} (r : result A) (f1 f2 : A -> db B) :
  (forall a, r = Ret a -> runs_alike (f1 a) (f2 a)) ->
  runs_alike (lift r ≫= f1) (lift r ≫= f2).
Proof.
  intros Hf. destruct r as [a|e].
  - apply (alike_ext _ (f1 a) _ (f2 a)); [done|done|by apply Hf].
  - apply alike_same. apply traced_bind_lift. intros a Ha. discriminate Ha.
Qed.

Lemma alike_for_each {A} (body1 body2 : A -> db unit) xs :
  (forall x, runs_alike (body1 x) (body2 x)) ->
  runs_alike (for_each body1 xs) (for_each body2 xs).
Proof.
  intros Hb. induction xs as [|x xs IH]; cbn [for_each].
  - apply alike_same, traced_ret.
  - apply alike_bind; [apply Hb|]. by intros _.
Qed.

Lemma alike_mysql {A} (p1 p2 q : db A) :
  runs_alike p1 p2 ->
  runs_alike (fun c => match kind c with Mysql => p1 c | Sqlite => q c end)
             (fun c => match kind c with Mysql => p2 c | Sqlite => q c end).
Proof.
  intros (sts1 & sts2 & r & [Hall1 Hp1] & [Hall2 Hp2] & Hrows).
  exists sts1, sts2, r. split; [|split; [|done]].
  - split; [done|]. intros c Hk Hpool. rewrite Hk. by apply Hp1.
  - split; [done|]. intros c Hk Hpool. rewrite Hk. by apply Hp2.
Qed.

Lemma runs_as_accepted rejects x :
  is_upsert x = true -> rejects x = false ->
  runs_as (execute rejects x) [x] (Ret tt).
Proof.
  intros Hx Hr. split; [by repeat constructor|].
  intros c Hk [Hcw Ha]. unfold execute.
  rewrite Hk, Hr, (effect_apply x _ _ Hx), (Ha Hk). unfold after.
  by rewrite Hk, (Ha Hk).
Qed.

Lemma runs_as_rejected rejects x :
  rejects x = true ->
  runs_as (execute rejects x) [] (Raise DatabaseError).
Proof.
  intros Hr. split; [constructor|]. intros c Hk Hpool. unfold execute.
  by rewrite Hk, Hr, after_nil.
Qed.

Lemma runs_as_not_upsert rejects x :
  is_upsert x = false -> is_insert x = false ->
  runs_as (execute rejects x) [] (Raise DatabaseError).
Proof.
  intros Hx Hi. split; [constructor|]. intros c Hk Hpool. unfold execute.
  rewrite Hk, after_nil by done. destruct (rejects x); [done|].
  destruct x as [| | | |a ?|? a ?|]; try discriminate;
    destruct a; try discriminate; reflexivity.
Qed.

(** The same statement but for the values it writes, sent to a server
    that refuses by row. *)
Lemma alike_execute rejects x y :
  refuses_by_row rejects ->
  is_insert x = false -> is_insert y = false ->
  same_row x y = true \/ (is_upsert x = false /\ is_upsert y = false) ->
  runs_alike (execute rejects x) (execute rejects y).
Proof.
  intros Hrej Hix Hiy [Hxy|[Hx Hy]].
  - destruct (same_row_upserts x y Hxy) as [Hx Hy].
    pose proof (Hrej x y Hxy) as Hr.
    destruct (rejects x) eqn:Hrx; symmetry in Hr.
    + exists [], [], (Raise DatabaseError).
      split; [by apply runs_as_rejected|].
      split; [by apply runs_as_rejected|constructor].
    + exists [x], [y], (Ret tt).
      split; [by apply runs_as_accepted|].
      split; [by apply runs_as_accepted|by repeat constructor].
  - exists [], [], (Raise DatabaseError).
    split; [by apply runs_as_not_upsert|].
    split; [by apply runs_as_not_upsert|constructor].
Qed.

Section Methods.

Variable rejects : statement -> bool.
Variable validator_names : gmap string (string * string).

Lemma traced_store_block now b :
  traced (_store_block rejects validator_names now b).
Proof.
  unfold _store_block.
  apply (traced_mysql _ (fun c => (Ret tt, c))).
  apply traced_bind_lift. intros st Hst. apply traced_execute.
  unfold block_statement in Hst. bind_inv Hst. by injection Hst as <-.
Qed.

Lemma traced_store_transactions now txs :
  traced (_store_transactions rejects now txs).
Proof.
  unfold _store_transactions.
  apply (traced_mysql _ (fun c => (Ret tt, c))).
  apply traced_for_each. intros tx. by apply traced_execute.
Qed.

Lemma traced_store_validator_set now h vs :
  traced (_store_validator_set rejects now h vs).
Proof.
  unfold _store_validator_set.
  apply (traced_mysql _ (fun c => (Ret tt, c))).
  apply traced_for_each. intros v.
  repeat (apply traced_bind; [first [apply traced_lift
                                    |by apply traced_execute]|intros ?]).
  by apply traced_execute.
Qed.

Lemma traced_store_unit now h b :
  traced (store_unit rejects validator_names now h b [] [] [] []).
Proof.
  unfold store_unit.
  apply traced_bind; [apply traced_store_block|intros _].
  apply traced_bind; [apply traced_store_transactions|intros _].
  apply traced_bind.
  { unfold _store_evidence.
    apply (traced_mysql _ (fun c => (Ret tt, c))). apply traced_ret. }
  intros _. apply traced_bind.
  { unfold _store_signatures.
    apply (traced_mysql _ (fun c => (Ret tt, c))). apply traced_ret. }
  intros _.
  apply traced_bind; [apply traced_store_validator_set|intros _].
  apply traced_bind; [by apply traced_execute|intros _].
  apply traced_commit.
Qed.

Lemma store_methods_sqlite now b txs h vs c :
  kind c = Sqlite ->
  _store_block rejects validator_names now b c = (Ret tt, c) /\
  _store_transactions rejects now txs c = (Ret tt, c) /\
  _store_validator_set rejects now h vs c = (Ret tt, c).
Proof.
  intros Hk. unfold _store_block, _store_transactions, _store_validator_set.
  by rewrite Hk.
Qed.

Lemma alike_store_block now1 now2 b :
  refuses_by_row rejects ->
  runs_alike (_store_block rejects validator_names now1 b)
             (_store_block rejects validator_names now2 b).
Proof.
  intros Hrej. unfold _store_block.
  apply (alike_mysql _ _ (fun c => (Ret tt, c))).
  unfold block_statement.
  destruct (_get_validator_name validator_names (Fetch.proposer_address b))
    as [name|e]; cbn [mbind result_bind].
  - match goal with
    | |- runs_alike (lift (Ret ?st1) ≫= _) (lift (Ret ?st2) ≫= _) =>
        apply (alike_ext _ (execute rejects st1) _ (execute rejects st2));
          [done|done|]
    end.
    apply alike_execute; try done. left. cbn. apply Z.eqb_refl.
  - apply alike_same, traced_bind_lift. intros a Ha. discriminate Ha.
Qed.

Lemma alike_store_transactions now1 now2 txs :
  refuses_by_row rejects ->
  runs_alike (_store_transactions rejects now1 txs)
             (_store_transactions rejects now2 txs).
Proof.
  intros Hrej. unfold _store_transactions.
  apply (alike_mysql _ _ (fun c => (Ret tt, c))). cbn zeta.
  apply alike_for_each. intros tx.
  apply alike_execute; try done. left. cbn. apply String.eqb_refl.
Qed.

Lemma alike_store_validator_set now1 now2 h vs :
  refuses_by_row rejects ->
  runs_alike (_store_validator_set rejects now1 h vs)
             (_store_validator_set rejects now2 h vs).
Proof.
  intros Hrej. unfold _store_validator_set.
  apply (alike_mysql _ _ (fun c => (Ret tt, c))).
  apply alike_for_each. intros v.
  repeat (apply alike_bind_lift; intros ? _).
  apply alike_bind.
  { apply alike_execute; try done.
    match goal with |- context [UpsertValidator ?a _] => destruct a end;
      first [by right|left; cbn; apply String.eqb_refl]. }
  intros _. repeat (apply alike_bind_lift; intros ? _).
  apply alike_execute; try done.
  match goal with |- context [UpsertValidatorSet _ ?a _] => destruct a end;
    first [by right|left; cbn; by rewrite Z.eqb_refl, String.eqb_refl].
Qed.

Lemma alike_store_unit now1 now2 h b :
  refuses_by_row rejects ->
  runs_alike (store_unit rejects validator_names now1 h b [] [] [] [])
             (store_unit rejects validator_names now2 h b [] [] [] []).
Proof.
  intros Hrej. unfold store_unit.
  apply alike_bind; [by apply alike_store_block|intros _].
  apply alike_bind; [by apply alike_store_transactions|intros _].
  apply alike_bind.
  { unfold _store_evidence.
    apply (alike_mysql _ _ (fun c => (Ret tt, c))).
    apply alike_same, traced_ret. }
  intros _. apply alike_bind.
  { unfold _store_signatures.
    apply (alike_mysql _ _ (fun c => (Ret tt, c))).
    apply alike_same, traced_ret. }
  intros _.
  apply alike_bind; [by apply alike_store_validator_set|intros _].
  apply alike_bind; [|intros _; apply alike_same, traced_commit].
  apply alike_execute; try done. by left.
Qed.

(** X6: storing the same block, the same transactions or the same
    validator set again, at the same or at a later time, ends as storing
    them once at the time of the second call and leaves the store as that
    would: no row is added, and the rows written the first time are
    written over, with the time the second call reads. This holds on a
    pool connection to a server that refuses by row, also when a
    statement is refused on the way. *)
Theorem upsert_methods_idempotent (now1 now2 : Timestamp.datetime)
  (b : Fetch.block_data) (txs : list Transaction) (h : Z)
  (vs : list pyval) (c : connection) :
  refuses_by_row rejects -> pool_connection c ->
  let store_block now := _store_block rejects validator_names now b in
  let store_transactions now := _store_transactions rejects now txs in
  let store_validator_set now := _store_validator_set rejects now h vs in
  store_block now2 (snd (store_block now1 c)) = store_block now2 c /\
  store_transactions now2 (snd (store_transactions now1 c))
  = store_transactions now2 c /\
  store_validator_set now2 (snd (store_validator_set now1 c))
  = store_validator_set now2 c.
Proof.
  intros Hrej Hpool. cbn zeta. destruct (kind c) eqn:Hk.
  - destruct (store_methods_sqlite now1 b txs h vs c Hk) as (H1 & H2 & H3).
    rewrite H1, H2, H3. cbn [snd].
    destruct (store_methods_sqlite now2 b txs h vs c Hk) as (H4 & H5 & H6).
    by rewrite H4, H5, H6.
  - split; [|split].
    + by apply (alike_twice _ _ c (alike_store_block now1 now2 b Hrej)).
    + by apply (alike_twice _ _ c
                  (alike_store_transactions now1 now2 txs Hrej)).
    + by apply (alike_twice _ _ c
                  (alike_store_validator_set now1 now2 h vs Hrej)).
Qed.

(** Rows inserted under a fresh AUTO_INCREMENT id: every accepted row is
    one row more. *)
Lemma inserts_append_signatures {A} (body : A -> db unit) xs :
  (forall x, exists row, body x = execute rejects (InsertSignature row)) ->
  (forall row, rejects (InsertSignature row) = false) ->
  forall c, kind c = Mysql -> pool_connection c -> ids_fresh c ->
    let rc := for_each body xs c in
    fst rc = Ret tt /\ kind (snd rc) = Mysql /\
    pool_connection (snd rc) /\ ids_fresh (snd rc) /\
    size (signatures (committed (snd rc)))
    = (size (signatures (committed c)) + length xs)%nat.
Proof.
  intros Hbody Hacc. induction xs as [|x xs IH]; intros c Hk Hpool Hfresh.
  - cbn. by rewrite Nat.add_0_r.
  - destruct (Hbody x) as [row Hx].
    destruct Hpool as [Hcw Ha]. destruct Hfresh as [Hsig Hev].
    set (t1 := set_signatures (working c)
                (<[next_signature_id (auto_increment c) := row]>
                   (signatures (working c)))).
    set (n1 := mkCounters (next_evidence_id (auto_increment c))
                           (next_signature_id (auto_increment c) + 1)).
    assert (Hexec : body x c = (Ret tt, mkConnection Mysql true t1 t1 n1)).
    { rewrite Hx. unfold execute. rewrite Hk, Hacc. cbn [apply_statement].
      by rewrite (Ha Hk). }
    cbn [for_each]. unfold mbind, db_bind. rewrite Hexec.
    destruct (IH (mkConnection Mysql true t1 t1 n1))
      as (Hr & Hk' & Hp' & Hf' & Hsize).
    + reflexivity.
    + by split.
    + unfold t1, n1. split; cbn.
      * intros i Hi. rewrite lookup_insert_ne by lia. apply Hsig. lia.
      * exact Hev.
    + cbn zeta in *. split; [done|]. split; [done|]. split; [done|].
      split; [done|]. rewrite Hsize. cbn [committed t1 signatures set_signatures].
      rewrite map_size_insert_None by (apply Hsig; lia).
      rewrite Hcw, length_cons. lia.
Qed.

Lemma inserts_append_evidence {A} (body : A -> db unit) xs :
  (forall x, exists row, body x = execute rejects (InsertEvidence row)) ->
  (forall row, rejects (InsertEvidence row) = false) ->
  forall c, kind c = Mysql -> pool_connection c -> ids_fresh c ->
    let rc := for_each body xs c in
    fst rc = Ret tt /\ kind (snd rc) = Mysql /\
    pool_connection (snd rc) /\ ids_fresh (snd rc) /\
    size (evidence (committed (snd rc)))
    = (size (evidence (committed c)) + length xs)%nat.
Proof.
  intros Hbody Hacc. induction xs as [|x xs IH]; intros c Hk Hpool Hfresh.
  - cbn. by rewrite Nat.add_0_r.
  - destruct (Hbody x) as [row Hx].
    destruct Hpool as [Hcw Ha]. destruct Hfresh as [Hsig Hev].
    set (t1 := set_evidence (working c)
                (<[next_evidence_id (auto_increment c) := row]>
                   (evidence (working c)))).
    set (n1 := mkCounters (next_evidence_id (auto_increment c) + 1)
                           (next_signature_id (auto_increment c))).
    assert (Hexec : body x c = (Ret tt, mkConnection Mysql true t1 t1 n1)).
    { rewrite Hx. unfold execute. rewrite Hk, Hacc. cbn [apply_statement].
      by rewrite (Ha Hk). }
    cbn [for_each]. unfold mbind, db_bind. rewrite Hexec.
    destruct (IH (mkConnection Mysql true t1 t1 n1))
      as (Hr & Hk' & Hp' & Hf' & Hsize).
    + reflexivity.
    + by split.
    + unfold t1, n1. split; cbn.
      * exact Hsig.
      * intros i Hi. rewrite lookup_insert_ne by lia. apply Hev. lia.
    + cbn zeta in *. split; [done|]. split; [done|]. split; [done|].
      split; [done|]. rewrite Hsize. cbn [committed t1 evidence set_evidence].
      rewrite map_size_insert_None by (apply Hev; lia).
      rewrite Hcw, length_cons. lia.
Qed.

(** C2: what applying the same record twice leaves, by row kind, on a
    MySQL pool connection. For the kinds stored under their own key, the
    block, the transaction and the validator-set entry, the second call
    adds no row and removes none, and when the clock reads the same it
    leaves the store exactly as the first call left it. For the kinds
    stored under a surrogate key, the signature and the evidence, every
    call inserts its rows under fresh ids: after two calls each row is
    stored twice. *)
Theorem upsert_twice_by_row_kind (now1 now2 : Timestamp.datetime)
  (b : Fetch.block_data) (txs : list Transaction) (h : Z)
  (vs : list pyval) (sigs : list ValidatorSignature) (evs : list Evidence)
  (c : connection) :
  kind c = Mysql -> pool_connection c -> refuses_by_row rejects ->
  (forall m,
     m = (fun now => _store_block rejects validator_names now b) \/
     m = (fun now => _store_transactions rejects now txs) \/
     m = (fun now => _store_validator_set rejects now h vs) ->
     same_keys (committed (applied_once m now1 c))
               (committed (applied_twice m now1 now2 c)) /\
     applied_twice m now1 now1 c = applied_once m now1 c) /\
  (ids_fresh c ->
   (forall st, is_insert st = true -> rejects st = false) ->
   size (signatures
           (committed (applied_twice (fun now => _store_signatures rejects
                                                   now sigs) now1 now2 c)))
   = (size (signatures (committed c)) + 2 * length sigs)%nat /\
   size (evidence
           (committed (applied_twice (fun now => _store_evidence rejects
                                                   now evs) now1 now2 c)))
   = (size (evidence (committed c)) + 2 * length evs)%nat).
Proof.
  intros Hk Hpool Hrej. split.
  - intros m Hm.
    assert (Halike : runs_alike (m now1) (m now2) /\ traced (m now1)).
    { destruct Hm as [-> | [-> | ->]]; split.
      - by apply alike_store_block.
      - apply traced_store_block.
      - by apply alike_store_transactions.
      - apply traced_store_transactions.
      - by apply alike_store_validator_set.
      - apply traced_store_validator_set. }
    destruct Halike as [Halike Htraced].
    destruct (alike_twice _ _ c Halike Hk Hpool) as (Htwice & _ & Hkeys).
    unfold applied_once, applied_twice. split.
    + by rewrite Htwice.
    + by rewrite (traced_idempotent (m now1) c Htraced Hk Hpool).
  - intros Hfresh Hacc. unfold applied_twice. split.
    + unfold _store_signatures. rewrite Hk.
      match goal with |- context [for_each ?f sigs c] =>
        destruct (inserts_append_signatures f sigs) with (c := c)
          as (_ & Hk1 & Hp1 & Hf1 & Hs1); try done;
          [intros x; eexists; reflexivity|by intros row; apply Hacc|];
        set (c1 := snd (for_each f sigs c)) in *
      end.
      rewrite Hk1.
      match goal with |- context [for_each ?f sigs c1] =>
        destruct (inserts_append_signatures f sigs) with (c := c1)
          as (_ & _ & _ & _ & Hs2); try done;
          [intros x; eexists; reflexivity|by intros row; apply Hacc|]
      end.
      cbn zeta in *. rewrite Hs2, Hs1. lia.
    + unfold _store_evidence. rewrite Hk.
      match goal with |- context [for_each ?f evs c] =>
        destruct (inserts_append_evidence f evs) with (c := c)
          as (_ & Hk1 & Hp1 & Hf1 & Hs1); try done;
          [intros x; eexists; reflexivity|by intros row; apply Hacc|];
        set (c1 := snd (for_each f evs c)) in *
      end.
      rewrite Hk1.
      match goal with |- context [for_each ?f evs c1] =>
        destruct (inserts_append_evidence f evs) with (c := c1)
          as (_ & _ & _ & _ & Hs2); try done;
          [intros x; eexists; reflexivity|by intros row; apply Hacc|]
      end.
      cbn zeta in *. rewrite Hs2, Hs1. lia.
Qed.

(** Two runs of a sub-range, at different times and over different
    stores, get statements for the same rows accepted, commit the same
    units and print the same lines. *)
Lemma batch_alike node clock1 clock2 l :
  refuses_by_row rejects ->
  exists sts1 sts2,
    Forall (fun st => is_upsert st = true) sts2 /\
    Forall2 (fun x y => same_row x y = true) sts1 sts2 /\
    forall c1 c2 cnt lg,
      kind c1 = Mysql -> pool_connection c1 ->
      kind c2 = Mysql -> pool_connection c2 ->
      let r1 := fold_left (process_height rejects validator_names node clock1)
                  l (mkBatch cnt c1 lg) in
      let r2 := fold_left (process_height rejects validator_names node clock2)
                  l (mkBatch cnt c2 lg) in
      conn r1 = after sts1 c1 /\ conn r2 = after sts2 c2 /\
      blocks_processed r1 = blocks_processed r2 /\ log r1 = log r2.
Proof.
  intros Hrej. induction l as [|h l (sts1 & sts2 & Hall & Hrows & IH)].
  - exists [], []. split; [constructor|]. split; [constructor|].
    intros c1 c2 cnt lg _ Hp1 _ Hp2. cbn. by rewrite !after_nil.
  - destruct (Fetch.fetch_block_data node h) as [bd|] eqn:Hf.
    + destruct (alike_store_unit (clock1 h) (clock2 h) h bd Hrej)
        as (sh1 & sh2 & r & [Hall1 Hp1] & [Hall2 Hp2] & Hrows_h).
      exists (sh1 ++ sts1)%list, (sh2 ++ sts2)%list.
      split; [by apply Forall_app|]. split; [by apply Forall2_app|].
      intros c1 c2 cnt lg Hk1 Hpool1 Hk2 Hpool2.
      assert (E1 : process_height rejects validator_names node clock1
                     (mkBatch cnt c1 lg) h
                   = match r with
                     | Ret _ => mkBatch (cnt + 1) (after sh1 c1) lg
                     | Raise _ => mkBatch cnt (after sh1 c1)
                                    (lg ++ [ErrorProcessing h])%list
                     end).
      { unfold process_height. rewrite Hf. cbn [conn blocks_processed log].
        rewrite (Hp1 c1 Hk1 Hpool1). by destruct r. }
      assert (E2 : process_height rejects validator_names node clock2
                     (mkBatch cnt c2 lg) h
                   = match r with
                     | Ret _ => mkBatch (cnt + 1) (after sh2 c2) lg
                     | Raise _ => mkBatch cnt (after sh2 c2)
                                    (lg ++ [ErrorProcessing h])%list
                     end).
      { unfold process_height. rewrite Hf. cbn [conn blocks_processed log].
        rewrite (Hp2 c2 Hk2 Hpool2). by destruct r. }
      cbn zeta. cbn [fold_left]. rewrite E1, E2, !after_app.
      destruct r; apply IH; first [done|by apply after_pool].
    + exists sts1, sts2. split; [done|]. split; [done|].
      intros c1 c2 cnt lg Hk1 Hpool1 Hk2 Hpool2.
      assert (E : forall clock c,
                process_height rejects validator_names node clock
                  (mkBatch cnt c lg) h
                = mkBatch cnt c
                    (if Fetch.fetch_raises node h
                     then lg ++ [ErrorFetching h] else lg)%list).
      { intros clock c. unfold process_height. by rewrite Hf. }
      cbn zeta. cbn [fold_left]. rewrite !E. by apply IH.
Qed.

End Methods.

End UpsertProperties.

Lemma accept_all_by_row : Upsert.refuses_by_row Watermark.accept_all.
Proof. by intros x y _. Qed.

Section SubRanges.

Import Store.

Lemma range_incl_empty a b : b < a -> range_incl a b = [].
Proof.
  intros H. unfold range_incl. by replace (Z.to_nat (b - a + 1)) with 0%nat by lia.
Qed.

Lemma map_seq_shift {A} (f : nat -> A) s n :
  map f (seq s n) = map (fun i => f (s + i)%nat) (seq 0 n).
Proof.
  revert f s. induction n as [|n IH]; intros f s; [done|].
  cbn [seq map]. rewrite Nat.add_0_r. f_equal.
  rewrite (IH f (S s)), (IH (fun i => f (s + i)%nat) 1%nat).
  apply map_ext. intros i. f_equal. lia.
Qed.

Lemma range_incl_split a m b :
  a <= m + 1 -> m <= b ->
  range_incl a b = (range_incl a m ++ range_incl (m + 1) b)%list.
Proof.
  intros H1 H2. unfold range_incl.
  replace (Z.to_nat (b - a + 1))
    with (Z.to_nat (m - a + 1) + Z.to_nat (b - (m + 1) + 1))%nat by lia.
  rewrite seq_app, map_app. f_equal.
  rewrite map_seq_shift. apply map_ext. intros i. lia.
Qed.

Lemma batches_empty bs a b : 0 < bs -> b < a -> batches bs a b = [].
Proof.
  intros Hbs H. unfold batches.
  assert ((b - a + bs) / bs <= 0); [|by replace (Z.to_nat _) with 0%nat by lia].
  assert ((b - a + bs) / bs < 1); [|lia].
  apply Z.div_lt_upper_bound; lia.
Qed.

Lemma batches_step bs a b :
  0 < bs -> a <= b ->
  batches bs a b = (a, Z.min (a + bs - 1) b) :: batches bs (a + bs) b.
Proof.
  intros Hbs H. unfold batches.
  replace (b - a + bs) with ((b - (a + bs) + bs) + 1 * bs) by lia.
  rewrite Z.div_add by lia.
  assert (0 <= (b - (a + bs) + bs) / bs) by (apply Z.div_pos; lia).
  replace (Z.to_nat ((b - (a + bs) + bs) / bs + 1))
    with (S (Z.to_nat ((b - (a + bs) + bs) / bs))) by lia.
  cbn [seq map]. f_equal; [f_equal; lia|].
  rewrite map_seq_shift. apply map_ext. intros i.
  f_equal; [lia|f_equal; lia].
Qed.

Lemma batches_partition bs b n : forall a,
  0 < bs -> (Z.to_nat (b - a + 1) <= n)%nat ->
  Resume.units_of (batches bs a b) = range_incl a b /\
  Forall (fun ab => a <= fst ab /\ fst ab <= snd ab /\ snd ab <= b /\
                    snd ab - fst ab < bs) (batches bs a b).
Proof.
  induction n as [|n IH]; intros a Hbs Hn.
  - rewrite batches_empty, range_incl_empty by lia. by split.
  - destruct (Z.lt_ge_cases b a) as [Hlt|Hge].
    { rewrite batches_empty, range_incl_empty by lia. by split. }
    rewrite batches_step by lia.
    destruct (IH (a + bs) Hbs) as [Hunits Hall]; [lia|].
    split.
    + unfold Resume.units_of in *. cbn [map concat fst snd]. rewrite Hunits.
      destruct (Z.le_gt_cases (a + bs - 1) b) as [Hle|Hgt].
      * rewrite Z.min_l by lia.
        rewrite (range_incl_split a (a + bs - 1) b) by lia.
        do 2 f_equal. lia.
      * rewrite Z.min_r by lia.
        rewrite (range_incl_empty (a + bs) b) by lia. by rewrite app_nil_r.
    + constructor; [cbn [fst snd]; lia|].
      eapply Forall_impl; [exact Hall|]. cbn beta. intros ab. lia.
Qed.

(** X11: for a positive batch size the sub-ranges [ingest_blocks] submits
    cut the range [start, end] into consecutive pieces: taken in order
    their units are exactly the units of the range, each once, and every
    sub-range is non-empty, inside the range and at most a batch long. *)
Theorem batches_cut_the_range (batch_size start_height end_height : Z) :
  0 < batch_size ->
  Resume.units_of (batches batch_size start_height end_height)
  = range_incl start_height end_height /\
  Forall (fun ab => start_height <= fst ab /\ fst ab <= snd ab /\
                    snd ab <= end_height /\ snd ab - fst ab < batch_size)
         (batches batch_size start_height end_height).
Proof.
  intros Hbs.
  by apply (batches_partition batch_size end_height
              (Z.to_nat (end_height - start_height + 1))).
Qed.

Lemma batches_cut_the_range_witness :
  batches 100 1 250 = [(1, 100); (101, 200); (201, 250)] /\
  Resume.units_of (batches 100 1 250) = range_incl 1 250.
Proof.
  split; [reflexivity|].
  apply (batches_cut_the_range 100 1 250). lia.
Defined.

End SubRanges.

Section BatchExtras.

Import Db Store Upsert.

Variable rejects : statement -> bool.
Variable validator_names : gmap string (string * string).
Variable node : Fetch.rpc.
Variable clock : Z -> Timestamp.datetime.

#[local] Abbreviation ph := (process_height rejects validator_names node clock).
#[local] Abbreviation pb := (process_batch rejects validator_names node clock).
#[local] Abbreviation commits := (unit_commits rejects validator_names node clock).
#[local] Abbreviation ulog := (unit_log rejects validator_names node clock).

(** What one turn of the loop adds does not depend on the count and the
    log so far. *)
Lemma process_height_shift c h :
  exists d c' dl, forall cnt lg,
    ph (mkBatch cnt c lg) h = mkBatch (cnt + d) c' (lg ++ dl)%list.
Proof.
  unfold process_height.
  destruct (Fetch.fetch_block_data node h) as [bd|].
  - cbn [conn blocks_processed log].
    destruct (store_unit _ _ _ _ _ _ _ _ _ c) as [[[]|e] c'].
    + exists 1, c', []. intros. by rewrite app_nil_r.
    + exists 0, (rollback c'), [ErrorProcessing h]. intros. by rewrite Z.add_0_r.
  - cbn [conn blocks_processed log].
    destruct (Fetch.fetch_raises node h).
    + exists 0, c, [ErrorFetching h]. intros. by rewrite Z.add_0_r.
    + exists 0, c, []. intros. by rewrite Z.add_0_r, app_nil_r.
Qed.

Lemma process_heights_shift l : forall c,
  exists d c' dl, forall cnt lg,
    fold_left ph l (mkBatch cnt c lg) = mkBatch (cnt + d) c' (lg ++ dl)%list.
Proof.
  induction l as [|h l IH]; intros c.
  - exists 0, c, []. intros. cbn. by rewrite Z.add_0_r, app_nil_r.
  - destruct (process_height_shift c h) as (d1 & c1 & dl1 & H1).
    destruct (IH c1) as (d2 & c2 & dl2 & H2).
    exists (d1 + d2), c2, (dl1 ++ dl2)%list. intros cnt lg.
    cbn [fold_left]. rewrite H1, H2. f_equal; [lia|by rewrite app_assoc].
Qed.

(** Two sub-ranges on one connection, one after the other. *)
Lemma process_batch_on_app c l1 l2 :
  let r1 := fold_left ph l1 (mkBatch 0 c []) in
  let r2 := fold_left ph l2 (mkBatch 0 (conn r1) []) in
  fold_left ph (l1 ++ l2) (mkBatch 0 c [])
  = mkBatch (blocks_processed r1 + blocks_processed r2) (conn r2)
            (log r1 ++ log r2)%list.
Proof.
  cbn zeta. rewrite fold_left_app.
  destruct (process_heights_shift l1 c) as (d1 & c1 & dl1 & H1).
  rewrite !H1. cbn [conn blocks_processed log].
  destruct (process_heights_shift l2 c1) as (d2 & c2 & dl2 & H2).
  rewrite !H2. cbn [conn blocks_processed log]. f_equal.
Qed.

Lemma as_handed_out_pool c : Resume.as_handed_out c -> pool_connection c.
Proof.
  unfold Resume.as_handed_out. intros ->. apply get_connection_pool.
Qed.

Lemma get_connection_as_handed_out k t n :
  Resume.as_handed_out (get_connection k t n).
Proof. by destruct k. Qed.

Lemma process_height_as_handed_out st h :
  Resume.as_handed_out (conn st) ->
  Resume.as_handed_out (conn (ph st h)) /\
  kind (conn (ph st h)) = kind (conn st).
Proof.
  intros Hc. pose proof (as_handed_out_pool _ Hc) as Hp.
  unfold process_height.
  destruct (Fetch.fetch_block_data node h) as [bd|]; [|done].
  destruct (kind (conn st)) eqn:Hk.
  - rewrite store_unit_sqlite by done. cbn [conn].
    rewrite rollback_autocommit_noop by apply Hp. by rewrite Hk.
  - rewrite (store_unit_mysql rejects validator_names _ _ _ _ Hk Hp).
    destruct (block_statement validator_names (clock h) bd) as [stm|e].
    2:{ cbn [conn]. rewrite rollback_autocommit_noop by apply Hp.
        by rewrite Hk. }
    destruct (rejects stm).
    { cbn [conn]. rewrite rollback_autocommit_noop by apply Hp.
      by rewrite Hk. }
    cbv zeta. destruct (rejects (UpsertProgress h h)); cbn [conn]; by split.
Qed.

Lemma process_heights_as_handed_out l : forall st,
  Resume.as_handed_out (conn st) ->
  Resume.as_handed_out (conn (fold_left ph l st)) /\
  kind (conn (fold_left ph l st)) = kind (conn st).
Proof.
  induction l as [|h l IH]; intros st Hc; [done|].
  cbn [fold_left].
  destruct (process_height_as_handed_out st h Hc) as [Hc1 Hk1].
  destruct (IH _ Hc1) as [Hc2 Hk2]. split; [done|]. by rewrite Hk2.
Qed.

(** On sqlite no unit commits and nothing changes. *)
Lemma sqlite_unit_never_commits h : commits Sqlite h = false.
Proof.
  unfold unit_commits. destruct (Fetch.fetch_block_data node h); [|done].
  by rewrite store_unit_sqlite.
Qed.

Lemma sqlite_heights_unchanged l : forall st,
  kind (conn st) = Sqlite -> pool_connection (conn st) ->
  conn (fold_left ph l st) = conn st.
Proof.
  induction l as [|h l IH]; intros st Hk Hp; [done|].
  cbn [fold_left].
  assert (Hc : conn (ph st h) = conn st).
  { unfold process_height.
    destruct (Fetch.fetch_block_data node h) as [bd|]; [|done].
    rewrite store_unit_sqlite by done. cbn [conn].
    by rewrite rollback_autocommit_noop by apply Hp. }
  rewrite IH; rewrite Hc; done.
Qed.

(** One turn of the loop on a MySQL pool connection: no child row is
    written, and the progress row is written exactly when the unit
    commits. *)
Lemma process_height_tables st h :
  Resume.as_handed_out (conn st) -> kind (conn st) = Mysql ->
  let t := committed (conn st) in
  let t' := committed (conn (ph st h)) in
  Resume.same_child_tables t t' /\
  ingestion_progress t'
  = if commits Mysql h then <[1 := (h, h)]> (ingestion_progress t)
    else ingestion_progress t.
Proof.
  intros Hc Hk. pose proof (as_handed_out_pool _ Hc) as Hp. cbn zeta.
  unfold process_height, unit_commits.
  destruct (Fetch.fetch_block_data node h) as [bd|];
    [|by repeat split].
  rewrite (store_unit_mysql rejects validator_names _ _ _ _ Hk Hp).
  rewrite (store_unit_mysql rejects validator_names _ _ _
             (get_connection Mysql _ _) eq_refl (get_connection_pool _ _ _)).
  destruct Hp as [Hcw _].
  destruct (block_statement validator_names (clock h) bd) as [stm|e].
  2:{ cbn [conn fst]. rewrite rollback_autocommit_noop by done.
      by repeat split. }
  destruct (rejects stm).
  { cbn [conn fst]. rewrite rollback_autocommit_noop by done.
    by repeat split. }
  cbv zeta. destruct (rejects (UpsertProgress h h)); cbn; rewrite Hcw;
    by repeat split.
Qed.

Lemma same_child_tables_trans t1 t2 t3 :
  Resume.same_child_tables t1 t2 -> Resume.same_child_tables t2 t3 ->
  Resume.same_child_tables t1 t3.
Proof.
  unfold Resume.same_child_tables.
  intros (H1 & H2 & H3 & H4 & H5) (G1 & G2 & G3 & G4 & G5).
  repeat split; congruence.
Qed.

Lemma process_heights_tables l : forall st,
  Resume.as_handed_out (conn st) -> kind (conn st) = Mysql ->
  let t := committed (conn st) in
  let t' := committed (conn (fold_left ph l st)) in
  Resume.same_child_tables t t' /\
  get_last_processed_block Mysql t'
  = Resume.last_committed (commits Mysql) l (get_last_processed_block Mysql t).
Proof.
  induction l as [|h l IH]; intros st Hc Hk; cbn zeta.
  - by repeat split.
  - cbn [fold_left Resume.last_committed].
    destruct (process_height_as_handed_out st h Hc) as [Hc1 Hk1].
    rewrite Hk in Hk1.
    destruct (process_height_tables st h Hc Hk) as [Hsame1 Hprog1].
    destruct (IH (ph st h) Hc1 Hk1) as [Hsame2 Hw2].
    split; [by eapply same_child_tables_trans|].
    rewrite Hw2. f_equal. unfold get_last_processed_block at 1.
    rewrite Hprog1. destruct (commits Mysql h); [|done].
    by rewrite lookup_insert_eq.
Qed.

(** X8: with the sqlite database type nothing is ever ingested: whatever
    the node answers, [process_batch] returns 0 and leaves the store as it
    was, every unit that was fetched prints its error line, and the last
    processed block reads 0. *)
Theorem sqlite_ingests_nothing (t : tables) (n : counters) (a b : Z) :
  let r := pb Sqlite t n a b in
  blocks_processed r = 0 /\
  committed (conn r) = t /\
  get_last_processed_block Sqlite (committed (conn r)) = 0 /\
  forall h bd, In h (range_incl a b) ->
               Fetch.fetch_block_data node h = Some bd ->
               In (ErrorProcessing h) (log r).
Proof.
  cbn zeta. unfold process_batch, process_batch_on.
  destruct (process_heights_pool rejects validator_names node clock
              (range_incl a b) (mkBatch 0 (get_connection Sqlite t n) []))
    as (_ & _ & _ & Hcount & Hlog & _); [apply get_connection_pool|].
  cbn [conn blocks_processed log kind get_connection] in *.
  split.
  { rewrite Hcount. clear.
    induction (range_incl a b) as [|h l IH]; [done|].
    cbn [List.filter]. by rewrite sqlite_unit_never_commits. }
  split.
  { rewrite sqlite_heights_unchanged;
      first [done|apply (get_connection_pool Sqlite)]. }
  split; [done|].
  intros h bd Hin Hf. rewrite Hlog. cbn [app].
  apply in_flat_map. exists h. split; [done|].
  unfold unit_log. rewrite Hf, sqlite_unit_never_commits. by left.
Qed.

(** X9: [process_batch] writes block rows and the progress row only:
    whatever the node answers, the transactions, evidence, signatures,
    validators and validator-set tables are after a sub-range as they were
    before it. *)
Theorem process_batch_writes_no_child_rows (k : db_type) (t : tables)
  (n : counters) (a b : Z) :
  Resume.same_child_tables t (committed (conn (pb k t n a b))).
Proof.
  unfold process_batch, process_batch_on. destruct k.
  - rewrite sqlite_heights_unchanged;
      first [done|by repeat split|apply (get_connection_pool Sqlite)].
  - exact (proj1 (process_heights_tables (range_incl a b)
                    (mkBatch 0 (get_connection Mysql t n) [])
                    (get_connection_as_handed_out Mysql t n) eq_refl)).
Qed.

(** X10: after a sub-range on MySQL the last processed block is the last
    unit of the sub-range that committed; when none did it is what it was
    before. *)
Theorem progress_after_subrange (t : tables) (n : counters) (a b : Z) :
  get_last_processed_block Mysql (committed (conn (pb Mysql t n a b)))
  = Resume.last_committed (commits Mysql) (range_incl a b)
                          (get_last_processed_block Mysql t).
Proof.
  unfold process_batch, process_batch_on.
  exact (proj2 (process_heights_tables (range_incl a b)
                  (mkBatch 0 (get_connection Mysql t n) [])
                  (get_connection_as_handed_out Mysql t n) eq_refl)).
Qed.

Lemma ingest_blocks_over (k : db_type) subranges : forall acc sv,
  let r := fold_left ph (Resume.units_of subranges)
             (mkBatch 0 (get_connection k (server_tables sv)
                                        (server_counters sv)) []) in
  fold_left
    (fun acc ab =>
       let r := pb k (server_tables (snd acc)) (server_counters (snd acc))
                   (fst ab) (snd ab) in
       (fst acc + blocks_processed r,
        mkServer (committed (conn r)) (auto_increment (conn r))))
    subranges (acc, sv)
  = (acc + blocks_processed r,
     if subranges is [] then sv
     else mkServer (committed (conn r)) (auto_increment (conn r))).
Proof.
  induction subranges as [|[a b] rest IH]; intros acc sv; cbn zeta.
  - cbn. by rewrite Z.add_0_r.
  - cbn [fold_left fst snd]. rewrite IH. cbn [server_tables server_counters].
    change (Resume.units_of ((a, b) :: rest))
      with (range_incl a b ++ Resume.units_of rest)%list.
    unfold process_batch, process_batch_on.
    set (c0 := get_connection k (server_tables sv) (server_counters sv)).
    set (r1 := fold_left ph (range_incl a b) (mkBatch 0 c0 [])).
    assert (Hc1 : get_connection k (committed (conn r1))
                                 (auto_increment (conn r1)) = conn r1).
    { destruct (process_heights_as_handed_out (range_incl a b)
                  (mkBatch 0 c0 []) (get_connection_as_handed_out _ _ _))
        as [Hh Hk].
      cbn [conn] in Hh, Hk. fold r1 in Hh, Hk.
      assert (Hk0 : kind c0 = k) by apply kind_get_connection.
      rewrite Hk0 in Hk. unfold Resume.as_handed_out in Hh.
      by rewrite Hk in Hh. }
    rewrite Hc1.
    pose proof (process_batch_on_app c0 (range_incl a b)
                  (Resume.units_of rest)) as Happ.
    cbn zeta in Happ. fold r1 in Happ. rewrite Happ.
    cbn [conn blocks_processed log].
    f_equal; [lia|].
    by destruct rest as [|ab rest'].
Qed.

(** X12: when the sub-ranges run one after the other, [ingest_blocks] over
    a non-empty range does what one worker would do over the whole range
    in one go: it returns the same count and leaves the same store,
    whatever the positive batch size. *)
Theorem ingest_in_order_is_one_subrange (k : db_type) (batch_size a b : Z)
  (sv : server) :
  0 < batch_size -> a <= b ->
  let r := pb k (server_tables sv) (server_counters sv) a b in
  ingest_blocks_in_order rejects validator_names node clock k batch_size
                         a b sv
  = (blocks_processed r,
     mkServer (committed (conn r)) (auto_increment (conn r))).
Proof.
  intros Hbs Hab. cbn zeta. unfold ingest_blocks_in_order.
  etransitivity;
    [exact (ingest_blocks_over k (batches batch_size a b) 0 sv)|].
  cbn zeta.
  rewrite (proj1 (batches_partition batch_size b (Z.to_nat (b - a + 1)) a
                    Hbs (Nat.le_refl _))).
  rewrite (batches_step batch_size a b Hbs Hab). by rewrite Z.add_0_l.
Qed.

Lemma ingest_in_order_whole (k : db_type) (batch_size a b : Z)
  (sv : server) :
  0 < batch_size -> a <= b ->
  snd (ingest_blocks_in_order rejects validator_names node clock k
         batch_size a b sv)
  = let r := pb k (server_tables sv) (server_counters sv) a b in
    mkServer (committed (conn r)) (auto_increment (conn r)).
Proof.
  intros Hbs Hab. unfold ingest_blocks_in_order.
  match goal with |- snd ?x = _ =>
    replace x with
      (let r := fold_left ph (Resume.units_of (batches batch_size a b))
                  (mkBatch 0 (get_connection k (server_tables sv)
                                             (server_counters sv)) []) in
       (0 + blocks_processed r,
        if batches batch_size a b is [] then sv
        else mkServer (committed (conn r)) (auto_increment (conn r))))
      by (symmetry;
          exact (ingest_blocks_over k (batches batch_size a b) 0 sv))
  end.
  cbn zeta. cbn [snd].
  rewrite (proj1 (batches_partition batch_size b (Z.to_nat (b - a + 1)) a
                    Hbs (Nat.le_refl _))).
  by rewrite (batches_step batch_size a b Hbs Hab).
Qed.

Lemma range_incl_ge a b : Forall (fun h => a <= h) (range_incl a b).
Proof.
  apply Forall_forall. intros h Hin. apply list_elem_of_In in Hin.
  unfold range_incl in Hin. apply in_map_iff in Hin as (i & <- & _). lia.
Qed.

Lemma range_incl_cons a b :
  a <= b -> range_incl a b = a :: range_incl (a + 1) b.
Proof.
  intros Hab. rewrite (range_incl_split a a b) by lia.
  assert (Hone : range_incl a a = [a]).
  { unfold range_incl. replace (Z.to_nat (a - a + 1)) with 1%nat by lia.
    cbn [seq map]. f_equal. lia. }
  by rewrite Hone.
Qed.

Lemma last_committed_lower cm h' l : forall w,
  h' <= w -> Forall (fun h => h' <= h) l ->
  h' <= Resume.last_committed cm l w.
Proof.
  unfold Resume.last_committed.
  induction l as [|h l IH]; intros w Hw Hall; [done|].
  inversion Hall as [|? ? Hh Hl]; subst. cbn [fold_left].
  apply IH; [|done]. by destruct (cm h).
Qed.

Lemma last_committed_reaches cm a b h' w :
  a <= h' <= b -> cm h' = true ->
  h' <= Resume.last_committed cm (range_incl a b) w.
Proof.
  intros Hh Hc.
  rewrite (range_incl_split a (h' - 1) b) by lia.
  replace (h' - 1 + 1) with h' by lia.
  rewrite (range_incl_cons h' b) by lia.
  unfold Resume.last_committed. rewrite fold_left_app. cbn [fold_left].
  rewrite Hc. apply last_committed_lower; [lia|].
  eapply Forall_impl; [apply range_incl_ge|]. cbn beta. intros h. lia.
Qed.

(** X21: on MySQL the progress row ends a run of the coordinator at or
    above every unit of the range that committed. The next cycle of the
    main loop therefore starts above such a unit, and a unit below it that
    failed in this run is not tried again. *)
Theorem units_behind_progress_are_left (batch_size a b h' : Z)
  (sv : server) :
  0 < batch_size -> a <= h' <= b -> commits Mysql h' = true ->
  let sv' := snd (ingest_blocks_in_order rejects validator_names node clock
                    Mysql batch_size a b sv) in
  h' <= get_last_processed_block Mysql (server_tables sv') /\
  forall ingest o s e,
    In (ProgressLoop.RunCoordinator s e)
       (fst (fst (ProgressLoop.cycle Mysql ingest (ProgressLoop.Answer o)
                    sv'))) ->
    h' < s.
Proof.
  intros Hbs Hh Hc. cbn zeta.
  rewrite ingest_in_order_whole by lia. cbn zeta. cbn [server_tables].
  assert (Hw : h' <= get_last_processed_block Mysql
                       (committed (conn (pb Mysql (server_tables sv)
                                            (server_counters sv) a b)))).
  { unfold process_batch, process_batch_on.
    rewrite (proj2 (process_heights_tables (range_incl a b)
                      (mkBatch 0 (get_connection Mysql (server_tables sv)
                                                 (server_counters sv)) [])
                      (get_connection_as_handed_out Mysql _ _) eq_refl)).
    by apply last_committed_reaches. }
  split; [exact Hw|].
  intros ingest o s e. unfold ProgressLoop.cycle.
  destruct (ProgressLoop.latest_height o) as [latest|err]; cbn [fst].
  - cbn [server_tables].
    match goal with |- context [if ?c then _ else _] => destruct c end;
      cbn [fst]; intros [Hin|[Hin|[]]]; try discriminate Hin.
    injection Hin as <- _. eapply Z.le_lt_trans; [exact Hw|].
    by apply Z.lt_add_pos_r.
  - intros [Hin|[]]. discriminate Hin.
Qed.

(** X22: with the sqlite database type the main loop never gets anywhere:
    as soon as the chain has a block, every cycle calls the coordinator
    from height 1 again, without sleeping, and leaves the store as it
    was. *)
Theorem sqlite_loop_restarts_from_one (batch_size latest : Z)
  (o : Fetch.http_outcome) (sv : server) :
  0 < batch_size -> ProgressLoop.latest_height o = Ret latest ->
  1 <= latest ->
  let ingest := fun a b sv =>
    snd (ingest_blocks_in_order rejects validator_names node clock Sqlite
           batch_size a b sv) in
  exists sv',
    ProgressLoop.cycle Sqlite ingest (ProgressLoop.Answer o) sv
    = ([ProgressLoop.QueryHeight; ProgressLoop.RunCoordinator 1 latest],
       ProgressLoop.Looping, sv') /\
    server_tables sv' = server_tables sv.
Proof.
  intros Hbs Hl Hpos. cbn zeta. unfold ProgressLoop.cycle. rewrite Hl.
  cbn [get_last_processed_block]. rewrite Z.add_0_l.
  destruct (latest <? 1) eqn:Hlt; [apply Z.ltb_lt in Hlt; lia|].
  eexists. split; [reflexivity|].
  rewrite ingest_in_order_whole by lia. cbn zeta. cbn [server_tables].
  unfold process_batch, process_batch_on.
  rewrite sqlite_heights_unchanged;
    first [done|apply (get_connection_pool Sqlite)].
Qed.

End BatchExtras.

Section Reingestion.

Import Db Store Upsert.

Variable rejects : statement -> bool.
Variable validator_names : gmap string (string * string).
Variable node : Fetch.rpc.

(** On sqlite the clock plays no part: no statement is accepted. *)
Lemma sqlite_heights_clock clock1 clock2 l : forall st,
  kind (conn st) = Sqlite -> pool_connection (conn st) ->
  fold_left (process_height rejects validator_names node clock1) l st
  = fold_left (process_height rejects validator_names node clock2) l st.
Proof.
  induction l as [|h l IH]; intros st Hk Hp; [done|].
  cbn [fold_left].
  assert (Hsame : process_height rejects validator_names node clock1 st h
                  = process_height rejects validator_names node clock2 st h).
  { unfold process_height.
    destruct (Fetch.fetch_block_data node h) as [bd|]; [|done].
    by rewrite !store_unit_sqlite. }
  rewrite Hsame. apply IH.
  - by destruct (process_height_pool rejects validator_names node clock2
                   st h Hp) as (_ & -> & _).
  - by destruct (process_height_pool rejects validator_names node clock2
                   st h Hp) as (? & _).
Qed.

(** X7: a sub-range that is ingested again, at a later time, over what
    its first ingestion left and from the same answers of the node,
    commits the same units and prints the same error lines, and leaves the
    committed rows as one ingestion at the later time would: no row is
    added, and a block row is rewritten with the later time where its time
    is read off the clock. This holds for a server that refuses by row. *)
Theorem reingesting_a_subrange_changes_nothing
  (clock1 clock2 : Z -> Timestamp.datetime) (k : db_type) (t : tables)
  (n : counters) (a b : Z) :
  refuses_by_row rejects ->
  let r1 := process_batch rejects validator_names node clock1 k t n a b in
  let r2 := process_batch rejects validator_names node clock2 k
              (committed (conn r1)) (auto_increment (conn r1)) a b in
  let r := process_batch rejects validator_names node clock2 k t n a b in
  committed (conn r2) = committed (conn r) /\
  same_keys (committed (conn r1)) (committed (conn r2)) /\
  blocks_processed r2 = blocks_processed r1 /\
  log r2 = log r1.
Proof.
  intros Hrej. cbn zeta. unfold process_batch, process_batch_on.
  set (l := range_incl a b). destruct k.
  - rewrite (sqlite_heights_clock clock1 clock2 l
               (mkBatch 0 (get_connection Sqlite t n) []))
      by first [done|apply (get_connection_pool Sqlite)].
    assert (Hc : conn (fold_left
                         (process_height rejects validator_names node clock2)
                         l (mkBatch 0 (get_connection Sqlite t n) []))
                 = get_connection Sqlite t n).
    { rewrite sqlite_heights_unchanged;
        first [done|apply (get_connection_pool Sqlite)]. }
    rewrite Hc.
    change (get_connection Sqlite (committed (get_connection Sqlite t n))
                           (auto_increment (get_connection Sqlite t n)))
      with (get_connection Sqlite t n).
    rewrite ?Hc. split; [done|]. split; [apply same_keys_refl|by split].
  - destruct (batch_alike rejects validator_names node clock1 clock2 l Hrej)
      as (sts1 & sts2 & Hall & Hrows & Halike).
    set (c0 := get_connection Mysql t n).
    assert (Hp0 : pool_connection c0) by apply (get_connection_pool Mysql).
    destruct (Halike c0 c0 0 [] eq_refl Hp0 eq_refl Hp0)
      as (Hc1 & Hc & _ & _).
    cbn zeta in Hc1, Hc. rewrite Hc1, Hc.
    change (get_connection Mysql (committed (after sts1 c0))
                           (auto_increment (after sts1 c0)))
      with (after sts1 c0).
    destruct (Halike c0 (after sts1 c0) 0 [] eq_refl Hp0 eq_refl
                (after_pool sts1 c0 Hp0)) as (_ & Hc2 & Hcount & Hlog).
    cbn zeta in Hc2, Hcount, Hlog. rewrite Hc2, <- Hcount, <- Hlog.
    split; [|split; [|by split]].
    + unfold after. cbn. by apply effect_all_absorbed.
    + unfold after. cbn. rewrite effect_all_absorbed by done.
      apply effect_all_keys; [done|apply same_keys_refl].
Qed.

End Reingestion.

Lemma reingesting_a_subrange_changes_nothing_witness :
  let first := Store.process_batch Watermark.accept_all ∅ Later.timeless_node
                 Scenario.fixed_clock Db.Mysql Watermark.empty_tables
                 (Db.mkCounters 1 1) 1 3 in
  let second := Store.process_batch Watermark.accept_all ∅
                  Later.timeless_node Later.clock Db.Mysql
                  (Db.committed (Store.conn first))
                  (Db.auto_increment (Store.conn first)) 1 3 in
  Store.blocks_processed first = 3 /\
  Store.blocks_processed second = Store.blocks_processed first /\
  Upsert.same_keys (Db.committed (Store.conn first))
                   (Db.committed (Store.conn second)) /\
  Db.committed (Store.conn second) <> Db.committed (Store.conn first).
Proof.
  destruct (reingesting_a_subrange_changes_nothing Watermark.accept_all ∅
              Later.timeless_node Scenario.fixed_clock Later.clock Db.Mysql
              Watermark.empty_tables (Db.mkCounters 1 1) 1 3
              accept_all_by_row) as (_ & Hkeys & Hcount & _).
  split; [reflexivity|]. split; [exact Hcount|]. split; [exact Hkeys|].
  vm_compute. intros H. discriminate H.
Defined.

Lemma upsert_methods_idempotent_witness :
  match Fetch.fetch_block_data Scenario.healthy_node 7 with
  | Some b =>
      let store_block now :=
        Store._store_block Watermark.accept_all ∅ now b in
      let store_transactions now :=
        Store._store_transactions Watermark.accept_all now [Scenario.tx7] in
      store_block Later.now (snd (store_block Scenario.now Scenario.fresh))
      = store_block Later.now Scenario.fresh /\
      store_transactions Later.now
        (snd (store_transactions Scenario.now Scenario.fresh))
      = store_transactions Later.now Scenario.fresh
  | None => False
  end.
Proof.
  destruct (Fetch.fetch_block_data Scenario.healthy_node 7) as [b|] eqn:Hf;
    [|vm_compute in Hf; discriminate Hf].
  destruct (upsert_methods_idempotent Watermark.accept_all ∅ Scenario.now
              Later.now b [Scenario.tx7] 7 [] Scenario.fresh
              accept_all_by_row (get_connection_pool _ _ _))
    as (Hb & Ht & _).
  by split.
Defined.

Lemma upsert_twice_by_row_kind_witness :
  let store_transactions now :=
    Store._store_transactions Watermark.accept_all now [Scenario.tx7] in
  let store_signatures now :=
    Store._store_signatures Watermark.accept_all now [Scenario.sig7] in
  Upsert.same_keys
    (Db.committed (Upsert.applied_once store_transactions Scenario.now
                     Scenario.fresh))
    (Db.committed (Upsert.applied_twice store_transactions Scenario.now
                     Later.now Scenario.fresh)) /\
  size (Db.signatures
          (Db.committed (Upsert.applied_twice store_signatures Scenario.now
                           Later.now Scenario.fresh))) = 2%nat.
Proof.
  destruct (upsert_twice_by_row_kind Watermark.accept_all ∅ Scenario.now
              Later.now
              (Fetch.mkBlockData 7 PNone PNone PNone PNone 0 0 0 0 "0" 0
                 PNone PNone PNone PNone PNone PNone PNone PNone PNone 0 0
                 PNone PNone PNone 0 0)
              [Scenario.tx7] 7 [] [Scenario.sig7] [Scenario.ev7]
              Scenario.fresh eq_refl (get_connection_pool _ _ _)
              accept_all_by_row) as [Hkeyed Hsurrogate].
  split.
  - apply Hkeyed. right. by left.
  - destruct Hsurrogate as [Hs _].
    + split; intros i _; apply lookup_empty.
    + by intros st _.
    + exact Hs.
Defined.

Lemma ingest_in_order_is_one_subrange_witness :
  let r := Store.process_batch Watermark.accept_all ∅ Scenario.healthy_node
             Scenario.fixed_clock Db.Mysql Watermark.empty_tables
             (Db.mkCounters 1 1) 1 5 in
  Store.batches 2 1 5 = [(1, 2); (3, 4); (5, 5)] /\
  Store.ingest_blocks_in_order Watermark.accept_all ∅ Scenario.healthy_node
    Scenario.fixed_clock Db.Mysql 2 1 5 Scenario.empty_server
  = (Store.blocks_processed r,
     Db.mkServer (Db.committed (Store.conn r))
                 (Db.auto_increment (Store.conn r))).
Proof.
  split; [reflexivity|].
  apply (ingest_in_order_is_one_subrange Watermark.accept_all ∅
           Scenario.healthy_node Scenario.fixed_clock Db.Mysql 2 1 5
           Scenario.empty_server); lia.
Defined.


Lemma window_never_exceeds_hundred_witness :
  exists s lines m',
    Monitor.monitor_cycle Scenario.monitored_addresses Scenario.signed_block
      Scenario.served_validators (Some (Scenario.block_json 250 []))
      Scenario.no_metrics = Ret (Some (s, lines, m')) /\
    Monitor.blocks_checked s = 100 /\
    0 <= Monitor.blocks_checked s <= 100 /\
    Forall (fun l => Monitor.line_total l = Monitor.blocks_checked s) lines.
Proof.
  destruct (Monitor.monitor_cycle Scenario.monitored_addresses
              Scenario.signed_block Scenario.served_validators
              (Some (Scenario.block_json 250 [])) Scenario.no_metrics)
    as [[[[s lines] m']|]|e] eqn:H; try (vm_compute in H; discriminate H).
  exists s, lines, m'.
  pose proof (window_never_exceeds_hundred Scenario.monitored_addresses
                Scenario.signed_block Scenario.served_validators
                (Some (Scenario.block_json 250 [])) Scenario.no_metrics
                s lines m' H) as Hw.
  vm_compute in H. injection H as <- <- <-.
  split; [reflexivity|]. split; [reflexivity|]. exact Hw.
Defined.

Lemma gauges_after_cycle_witness :
  exists s lines m',
    Monitor.monitor_cycle Scenario.monitored_addresses Scenario.signed_block
      Scenario.served_validators (Some (Scenario.block_json 3 []))
      Scenario.no_metrics = Ret (Some (s, lines, m')) /\
    Monitor.blocks_checked s = 3 /\
    exists signed,
      0 <= signed <= Monitor.blocks_checked s /\
      Monitor.BLOCKS_SIGNED m' !! "CD34" = Some signed /\
      Monitor.MISSED_BLOCKS m' !! "CD34"
      = Some (Monitor.blocks_checked s - signed) /\
      Monitor.SIGNING_PERCENTAGE m' !! "CD34"
      = Some (inject_Z signed / inject_Z (Monitor.blocks_checked s)
              * inject_Z 100)%Q.
Proof.
  destruct (Monitor.monitor_cycle Scenario.monitored_addresses
              Scenario.signed_block Scenario.served_validators
              (Some (Scenario.block_json 3 [])) Scenario.no_metrics)
    as [[[[s lines] m']|]|e] eqn:H; try (vm_compute in H; discriminate H).
  exists s, lines, m'.
  pose proof (proj2 (gauges_after_cycle Scenario.monitored_addresses
                       Scenario.signed_block Scenario.served_validators
                       (Some (Scenario.block_json 3 [])) Scenario.no_metrics
                       s lines m' H)) as Hg.
  vm_compute in H. injection H as <- <- <-.
  split; [reflexivity|]. split; [reflexivity|].
  apply Hg; [discriminate|]. right. by left.
Defined.

Lemma distinct_addresses_need_no_cap_witness :
  exists s lines m',
    Monitor.monitor_cycle Scenario.monitored_addresses Scenario.signed_block
      Scenario.served_validators (Some (Scenario.block_json 3 []))
      Scenario.no_metrics = Ret (Some (s, lines, m')) /\
    map Monitor.line_signed lines = [3; 0] /\
    Forall (fun l => Monitor.signed_counts s !! Monitor.line_addr l
                     = Some (Monitor.line_signed l)) lines.
Proof.
  destruct (Monitor.monitor_cycle Scenario.monitored_addresses
              Scenario.signed_block Scenario.served_validators
              (Some (Scenario.block_json 3 [])) Scenario.no_metrics)
    as [[[[s lines] m']|]|e] eqn:H; try (vm_compute in H; discriminate H).
  exists s, lines, m'.
  assert (Hnd : NoDup Scenario.monitored_addresses).
  { apply (bool_decide_unpack _). reflexivity. }
  pose proof (proj2 (distinct_addresses_need_no_cap
                       Scenario.monitored_addresses Scenario.signed_block
                       Scenario.served_validators
                       (Some (Scenario.block_json 3 [])) Scenario.no_metrics
                       s lines m' Hnd H)) as Hl.
  vm_compute in H. injection H as <- <- <-.
  split; [reflexivity|]. split; [reflexivity|]. exact Hl.
Defined.

Section MappingsProperties.

Import Store Mappings.

#[local] Arguments String.append !s1 s2 : simpl nomatch.

Lemma add_mapping_well_formed names mapping :
  (forall k info, names !! k = Some info -> well_formed k info) ->
  forall k info, add_mapping names mapping !! k = Some info ->
                 well_formed k info.
Proof.
  intros Hn k info. unfold add_mapping.
  destruct mapping as [| | |m| |]; try apply Hn.
  destruct (split_once ":" m) as [[address name]|]; [|apply Hn].
  cbn [truthy]. rewrite !negb_involutive.
  destruct (String.eqb (strip address) "") eqn:Ha; [apply Hn|].
  destruct (String.eqb (strip name) "") eqn:Hb; [apply Hn|].
  cbn [orb]. destruct (decide (upper (strip address) = k)) as [<-|Hne].
  - rewrite lookup_insert_eq. intros [= <-].
    apply String.eqb_neq in Ha, Hb. by repeat split.
  - rewrite lookup_insert_ne by done. apply Hn.
Qed.

Lemma fold_add_mapping_well_formed mappings : forall names,
  (forall k info, names !! k = Some info -> well_formed k info) ->
  forall k info, fold_left add_mapping mappings names !! k = Some info ->
                 well_formed k info.
Proof.
  induction mappings as [|mapping mappings IH]; intros names Hn; [exact Hn|].
  cbn [fold_left]. apply IH. by apply add_mapping_well_formed.
Qed.

(** X16: every entry [load_validator_mappings] returns is filed under the
    upper-case form of the original address it holds, and neither its name
    nor its original address is empty. *)
Theorem loaded_names_well_formed (file : mappings_file) (key name
  original_address : string) :
  load_validator_mappings file !! key = Some (name, original_address) ->
  key = upper original_address /\ name <> "" /\ original_address <> "".
Proof.
  intros H.
  change (well_formed key (name, original_address)).
  revert H. unfold load_validator_mappings.
  destruct file as [| |data]; try by rewrite lookup_empty.
  destruct data as [| | | | |d]; try by rewrite lookup_empty.
  destruct (assoc "validators" d) as [[| | | |mappings|]|];
    try by rewrite lookup_empty.
  apply fold_add_mapping_well_formed. intros k info.
  by rewrite lookup_empty.
Qed.

Lemma split_once_at_separator c s1 s2 :
  Timestamp.mem_char c s1 = false ->
  split_once c (s1 ++ String c s2) = Some (s1, s2).
Proof.
  induction s1 as [|a s1 IH]; cbn.
  - by rewrite Ascii.eqb_refl.
  - intros H. apply orb_false_iff in H as [Ha Hs].
    rewrite Ha. by rewrite (IH Hs).
Qed.

Lemma upper_empty s : upper s = "" -> s = "".
Proof. by destruct s. Qed.

(** X17: a mapping is found again under its address in any case of the
    letters. When the last mapping of the file reads [address:name], with
    neither side empty once the blanks around it are dropped, then
    [_get_validator_name] gives the stripped name for every address whose
    upper-case form is that of the stripped address. *)
Theorem last_mapping_is_found (d : list (string * pyval))
  (earlier : list pyval) (address name a : string) :
  assoc "validators" d
  = Some (PList (earlier ++ [PStr (address ++ ":" ++ name)])) ->
  Timestamp.mem_char ":" address = false ->
  strip address <> "" -> strip name <> "" ->
  upper a = upper (strip address) ->
  _get_validator_name (load_validator_mappings (Parsed (PDict d))) (PStr a)
  = Ret (strip name).
Proof.
  intros Hd Hsep Ha Hn Hup.
  unfold load_validator_mappings. rewrite Hd.
  rewrite fold_left_app. cbn [fold_left]. unfold add_mapping at 1.
  change (address ++ ":" ++ name) with (address ++ String ":" name).
  rewrite (split_once_at_separator _ _ _ Hsep).
  cbn [truthy]. rewrite !negb_involutive.
  apply String.eqb_neq in Ha as Ha', Hn as Hn'. rewrite Ha', Hn'.
  cbn [orb]. unfold _get_validator_name. cbn [truthy].
  assert (Hne : a <> "").
  { intros ->. cbn in Hup. symmetry in Hup. by apply upper_empty in Hup. }
  apply String.eqb_neq in Hne. rewrite Hne. cbn [negb].
  by rewrite Hup, lookup_insert_eq.
Qed.

End MappingsProperties.

Lemma loaded_names_well_formed_witness :
  Mappings.load_validator_mappings
    (Mappings.Parsed
       (PDict [("validators",
                PList [PStr " ab12 : StakeLab "; PStr "no separator";
                       PStr ": nameless"; PInt 5])]))
  !! "AB12" = Some ("StakeLab", "ab12") /\
  "AB12" = Store.upper "ab12" /\ "StakeLab" <> "" /\ "ab12" <> "".
Proof.
  assert (H : Mappings.load_validator_mappings
                (Mappings.Parsed
                   (PDict [("validators",
                            PList [PStr " ab12 : StakeLab ";
                                   PStr "no separator";
                                   PStr ": nameless"; PInt 5])]))
              !! "AB12" = Some ("StakeLab", "ab12")) by reflexivity.
  split; [exact H|].
  exact (loaded_names_well_formed _ _ _ _ H).
Defined.

Lemma last_mapping_is_found_witness :
  Store._get_validator_name
    (Mappings.load_validator_mappings
       (Mappings.Parsed
          (PDict [("validators",
                   PList ([PStr "AB12:old name"]
                          ++ [PStr (" ab12 " ++ ":" ++ " StakeLab ")]))])))
    (PStr "Ab12")
  = Ret "StakeLab".
Proof.
  apply (last_mapping_is_found
           [("validators",
             PList ([PStr "AB12:old name"]
                    ++ [PStr (" ab12 " ++ ":" ++ " StakeLab ")]))]
           [PStr "AB12:old name"] " ab12 " " StakeLab " "Ab12").
  - reflexivity.
  - reflexivity.
  - discriminate.
  - discriminate.
  - reflexivity.
Defined.

Section FailoverProperties.

Import Fetch Failover.

#[local] Arguments String.append !s1 s2 : simpl nomatch.

Variable http_get : string -> http_outcome.
Variable json_error_is_request_exception : bool.

#[local] Abbreviation try_get :=
  (try_get http_get json_error_is_request_exception).
#[local] Abbreviation attempts :=
  (attempts http_get json_error_is_request_exception).
#[local] Abbreviation make_request :=
  (make_request http_get json_error_is_request_exception).

Lemma item_in_range {A} (l : list A) i :
  0 <= i < Z.of_nat (length l) ->
  exists x, item l i = Some x /\ In x l.
Proof.
  intros Hi. unfold item.
  replace ((0 <=? i) && (i <? Z.of_nat (length l))) with true
    by (symmetry; apply andb_true_iff; lia).
  destruct (nth_error l (Z.to_nat i)) as [x|] eqn:Hx.
  - exists x. split; [done|]. by apply nth_error_In in Hx.
  - apply nth_error_None in Hx. lia.
Qed.

Lemma switch_rpc_in_range self :
  index_in_range self ->
  switch_rpc self
  = (None, mkMonitor (rpc_endpoints self)
                     ((current_rpc_index self + 1)
                      mod Z.of_nat (length (rpc_endpoints self)))) /\
  index_in_range (snd (switch_rpc self)).
Proof.
  intros Hi. unfold index_in_range in *. unfold switch_rpc.
  set (n := Z.of_nat (length (rpc_endpoints self))) in *.
  destruct (n =? 0) eqn:Hn; [lia|].
  assert (Hm : 0 <= (current_rpc_index self + 1) mod n < n)
    by (apply Z.mod_pos_bound; lia).
  unfold get_active_rpc. cbn [rpc_endpoints current_rpc_index].
  destruct (item_in_range (rpc_endpoints self) _ Hm) as (x & -> & _).
  split; [reflexivity|]. cbn. exact Hm.
Qed.

Lemma fail_over_in_range url self :
  index_in_range self ->
  index_in_range (snd (fail_over url self)) /\
  rpc_endpoints (snd (fail_over url self)) = rpc_endpoints self.
Proof.
  intros Hi. unfold Failover.fail_over.
  destruct (get_active_rpc self); [|by split].
  destruct (switch_rpc_in_range self Hi) as [-> Hr].
  unfold switch_rpc in Hr. cbn [snd] in Hr.
  destruct (Z.of_nat (length (rpc_endpoints self)) =? 0) eqn:Hz;
    [unfold index_in_range in Hi; lia|].
  set (self' := mkMonitor _ _) in *.
  assert (Hr' : index_in_range self').
  { destruct (get_active_rpc self'); exact Hr. }
  destruct (host url); [|by split].
  destruct (get_active_rpc self') as [active|]; [|by split].
  destruct (host active); by split.
Qed.

Lemma attempts_in_range n : forall url self,
  index_in_range self ->
  index_in_range (snd (attempts n url self)) /\
  rpc_endpoints (snd (attempts n url self)) = rpc_endpoints self.
Proof.
  induction n as [|n IH]; intros url self Hi; cbn [Failover.attempts];
    [by split|].
  destruct (try_get url); try by split.
  destruct (fail_over_in_range url self Hi) as [Hr He].
  destruct (Failover.fail_over url self) as [[e|url'] self'];
    cbn [snd] in *; [by split|].
  destruct (IH url' self' Hr) as [Hr' He']. split; [done|].
  by rewrite He'.
Qed.

(** X18: whatever the endpoints answer, and however [make_request] ends,
    it leaves the list of endpoints as it was and an index that points
    into it. *)
Theorem make_request_keeps_index_in_range (url : string) (self : monitor) :
  index_in_range self ->
  index_in_range (snd (make_request url self)) /\
  rpc_endpoints (snd (make_request url self)) = rpc_endpoints self.
Proof. intros Hi. by apply attempts_in_range. Qed.

Lemma occurrences_app c s1 s2 :
  occurrences c (s1 ++ s2) = (occurrences c s1 + occurrences c s2)%nat.
Proof.
  induction s1 as [|a s1 IH]; cbn; [done|]. rewrite IH. lia.
Qed.

Lemma split_length c s :
  length (Timestamp.split c s) = S (occurrences c s).
Proof.
  induction s as [|a s IH]; cbn; [done|].
  destruct (Ascii.eqb a c); cbn; [by rewrite IH|].
  destruct (Timestamp.split c s) as [|h t]; cbn in *; lia.
Qed.

Lemma split_segments c s :
  Forall (fun seg => occurrences c seg = 0%nat) (Timestamp.split c s).
Proof.
  induction s as [|a s IH]; cbn; [by constructor|].
  destruct (Ascii.eqb a c) eqn:Ha; [by constructor|].
  destruct (Timestamp.split c s) as [|h t]; cbn.
  - constructor; [cbn; by rewrite Ha|done].
  - inversion IH as [|? ? Hh Ht]; subst.
    constructor; [cbn; by rewrite Ha|done].
Qed.

Lemma host_segment s h : host s = Some h -> occurrences "/" h = 0%nat.
Proof.
  unfold host. intros H. apply nth_error_In in H.
  pose proof (split_segments "/" s) as Hall.
  rewrite Forall_forall in Hall. apply Hall. by apply list_elem_of_In.
Qed.

Lemma host_is_Some s : is_Some (host s) <-> (2 <= occurrences "/" s)%nat.
Proof.
  unfold host. rewrite <- not_eq_None_Some.
  rewrite nth_error_None, split_length. lia.
Qed.

Lemma occurrences_join_after c new s :
  occurrences c new = 0%nat ->
  occurrences c (join_after new s) = occurrences c s.
Proof.
  intros Hn. induction s as [|a s IH]; cbn; [done|].
  by rewrite occurrences_app, Hn, IH.
Qed.

Lemma prefix_take old : forall s,
  String.prefix old s = true -> Timestamp.take (String.length old) s = old.
Proof.
  induction old as [|o old IH]; intros s.
  - by destruct s.
  - destruct s as [|a s]; [done|].
    cbn [String.prefix String.length Timestamp.take].
    destruct (ascii_dec o a) as [->|]; [|done].
    intros H. by rewrite (IH _ H).
Qed.

Lemma occurrences_replace_from c old new :
  old <> "" -> occurrences c old = 0%nat -> occurrences c new = 0%nat ->
  forall s skip,
    occurrences c (Timestamp.take skip s) = 0%nat ->
    occurrences c (replace_from old new skip s) = occurrences c s.
Proof.
  intros Hne Ho Hn. induction s as [|a s IH]; intros skip Hskip; [done|].
  cbn [replace_from]. destruct skip as [|k].
  - destruct (String.prefix old (String a s)) eqn:Hp.
    + destruct old as [|o old']; [done|].
      cbn [String.prefix] in Hp.
      destruct (ascii_dec o a) as [->|]; [|done].
      cbn in Ho. destruct (Ascii.eqb a c) eqn:Ha; [done|].
      rewrite occurrences_app, Hn. cbn [occurrences]. rewrite Ha.
      cbn [String.length]. rewrite Nat.sub_succ, Nat.sub_0_r.
      rewrite IH; [done|]. by rewrite (prefix_take _ _ Hp).
    + cbn [occurrences]. rewrite IH; [done|]. by destruct s.
  - cbn in Hskip. destruct (Ascii.eqb a c) eqn:Ha; [done|].
    cbn [occurrences]. rewrite Ha. by apply IH.
Qed.

Lemma occurrences_replace c old new s :
  occurrences c old = 0%nat -> occurrences c new = 0%nat ->
  occurrences c (replace old new s) = occurrences c s.
Proof.
  intros Ho Hn. unfold replace. destruct old as [|o old'].
  - by rewrite occurrences_app, Hn, occurrences_join_after.
  - apply occurrences_replace_from; first [done|by destruct s].
Qed.

(** With every endpoint down, [k] turns of the loop switch [k] times. *)
Lemma attempts_all_down n : forall url self,
  (forall u, try_get u = Caught) ->
  index_in_range self ->
  Forall (fun e => is_Some (host e)) (rpc_endpoints self) ->
  is_Some (host url) ->
  attempts n url self
  = (Returned PNone,
     mkMonitor (rpc_endpoints self)
               ((current_rpc_index self + Z.of_nat n)
                mod Z.of_nat (length (rpc_endpoints self)))).
Proof.
  induction n as [|n IH]; intros url self Hdown Hi Heps Hurl.
  - cbn [Failover.attempts]. rewrite Z.add_0_r.
    rewrite Z.mod_small by exact Hi. by destruct self.
  - cbn [Failover.attempts]. rewrite Hdown. unfold Failover.fail_over.
    destruct (item_in_range _ _ Hi) as (x & Hx & _).
    unfold get_active_rpc at 1. rewrite Hx.
    destruct (switch_rpc_in_range self Hi) as [-> Hr]. cbn [snd] in Hr.
    set (self' := mkMonitor _ _) in *.
    assert (Hr' : index_in_range self').
    { unfold switch_rpc in Hr.
      destruct (Z.of_nat (length (rpc_endpoints self)) =? 0) eqn:Hz;
        [unfold index_in_range in Hi; lia|].
      fold self' in Hr. destruct (get_active_rpc self'); exact Hr. }
    destruct Hurl as [old Hold]. rewrite Hold.
    destruct (item_in_range _ _ Hr') as (active & Hact & Hin).
    unfold get_active_rpc. rewrite Hact.
    rewrite Forall_forall in Heps.
    destruct (Heps active) as [new Hnew]; [by apply list_elem_of_In|].
    rewrite Hnew.
    rewrite IH; [|done|done|by apply Forall_forall| ].
    + cbn [rpc_endpoints current_rpc_index self']. do 2 f_equal.
      rewrite Z.add_mod_idemp_l by (unfold index_in_range in Hi; lia).
      f_equal. lia.
    + apply host_is_Some.
      rewrite occurrences_replace
        by (eapply host_segment; eassumption).
      apply host_is_Some. by eexists.
Qed.

(** X19: when every request fails, [make_request] gives up after one turn
    per endpoint: it returns [None], and the index, switched once per
    turn, is back where it was. This holds for endpoints and a URL that
    have a host part, two slashes before it. *)
Theorem all_endpoints_down_rotates_back (url : string) (self : monitor) :
  (forall u, try_get u = Caught) ->
  index_in_range self ->
  Forall (fun e => is_Some (host e)) (rpc_endpoints self) ->
  is_Some (host url) ->
  make_request url self = (Returned PNone, self).
Proof.
  intros Hdown Hi Heps Hurl. unfold Failover.make_request.
  rewrite attempts_all_down by done.
  replace (current_rpc_index self + Z.of_nat (length (rpc_endpoints self)))
    with (current_rpc_index self
          + 1 * Z.of_nat (length (rpc_endpoints self))) by lia.
  rewrite Z.mod_add by (unfold index_in_range in Hi; lia).
  rewrite Z.mod_small by exact Hi. by destruct self.
Qed.

Lemma find_validator_index_from_first validators : forall idx a r,
  find_validator_index_from idx a validators = Ret r ->
  match r with
  | Some i =>
      idx <= i < idx + Z.of_nat (length validators) /\
      exists v x,
        validators !! Z.to_nat (i - idx) = Some v /\
        get v "address" PNone = Ret x /\ eqb x a = true /\
        forall j v', (j < Z.to_nat (i - idx))%nat ->
                     validators !! j = Some v' ->
                     exists x', get v' "address" PNone = Ret x' /\
                                eqb x' a = false
  | None =>
      Forall (fun v => exists x, get v "address" PNone = Ret x /\
                                 eqb x a = false) validators
  end.
Proof.
  induction validators as [|v validators IH]; intros idx a r;
    cbn [find_validator_index_from].
  - intros [= <-]. constructor.
  - destruct (get v "address" PNone) as [x|e] eqn:Hx; [|done].
    cbn [mbind result_bind]. destruct (eqb x a) eqn:Heq.
    + intros [= <-]. rewrite length_cons. split; [lia|].
      exists v, x. rewrite Z.sub_diag. cbn. repeat split; try done.
      intros j v' Hj. lia.
    + intros H. apply IH in H. destruct r as [i|].
      * destruct H as (Hi & v1 & x1 & Hv1 & Hx1 & Heq1 & Hbefore).
        rewrite length_cons. split; [lia|].
        exists v1, x1.
        replace (Z.to_nat (i - idx)) with (S (Z.to_nat (i - (idx + 1))))
          by lia.
        repeat split; try done.
        intros [|j] v' Hj; cbn.
        -- intros [= <-]. by exists x.
        -- apply Hbefore. lia.
      * constructor; [by exists x|done].
Qed.

(** X20: [find_validator_index] gives the position of the first entry of
    the list whose address equals the one looked for, and [None] when no
    entry has it. *)
Theorem find_validator_index_is_first (validator_address : pyval)
  (validators : list pyval) (r : option Z) :
  find_validator_index validator_address validators = Ret r ->
  match r with
  | Some i =>
      0 <= i < Z.of_nat (length validators) /\
      exists v x,
        validators !! Z.to_nat i = Some v /\
        get v "address" PNone = Ret x /\ eqb x validator_address = true /\
        forall j v', (j < Z.to_nat i)%nat ->
                     validators !! j = Some v' ->
                     exists x', get v' "address" PNone = Ret x' /\
                                eqb x' validator_address = false
  | None =>
      Forall (fun v => exists x, get v "address" PNone = Ret x /\
                                 eqb x validator_address = false)
             validators
  end.
Proof.
  intros H. apply find_validator_index_from_first in H.
  destruct r as [i|]; [|exact H].
  rewrite Z.sub_0_r in H. exact H.
Qed.

End FailoverProperties.

Lemma make_request_keeps_index_in_range_witness :
  let self := Failover.mkMonitor Endpoints.two_endpoints 1 in
  Failover.make_request Endpoints.only_first_answers true
    "http://beta:26657/block" self
  = (Failover.Returned (PDict []),
     Failover.mkMonitor Endpoints.two_endpoints 0) /\
  Failover.index_in_range
    (snd (Failover.make_request Endpoints.only_first_answers true
            "http://beta:26657/block" self)).
Proof.
  split; [reflexivity|].
  apply (make_request_keeps_index_in_range Endpoints.only_first_answers true
           "http://beta:26657/block"
           (Failover.mkMonitor Endpoints.two_endpoints 1)).
  unfold Failover.index_in_range. cbn. lia.
Defined.

Lemma all_endpoints_down_rotates_back_witness :
  Failover.make_request Endpoints.all_down true "http://beta:26657/block"
    (Failover.mkMonitor Endpoints.two_endpoints 1)
  = (Failover.Returned PNone,
     Failover.mkMonitor Endpoints.two_endpoints 1).
Proof.
  apply (all_endpoints_down_rotates_back Endpoints.all_down true
           "http://beta:26657/block"
           (Failover.mkMonitor Endpoints.two_endpoints 1)).
  - intros u. reflexivity.
  - unfold Failover.index_in_range. cbn. lia.
  - repeat constructor; eexists; reflexivity.
  - eexists. reflexivity.
Defined.

Lemma find_validator_index_is_first_witness :
  Failover.find_validator_index (PStr "AB12") Endpoints.three_validators
  = Ret (Some 1) /\
  exists v x,
    Endpoints.three_validators !! Z.to_nat 1 = Some v /\
    get v "address" PNone = Ret x /\ eqb x (PStr "AB12") = true.
Proof.
  split; [reflexivity|].
  destruct (find_validator_index_is_first (PStr "AB12")
              Endpoints.three_validators (Some 1) eq_refl)
    as (_ & v & x & Hv & Hx & Heq & _).
  by exists v, x.
Defined.

Lemma units_behind_progress_are_left_witness :
  Store.unit_commits Watermark.accept_all ∅ Scenario.malformed_42_node
    Scenario.fixed_clock Db.Mysql 42 = false /\
  43 <= Store.get_last_processed_block Db.Mysql
          (Db.server_tables
             (snd (Store.ingest_blocks_in_order Watermark.accept_all ∅
                     Scenario.malformed_42_node Scenario.fixed_clock
                     Db.Mysql 2 40 45 Scenario.empty_server))).
Proof.
  split; [vm_compute; reflexivity|].
  apply (units_behind_progress_are_left Watermark.accept_all ∅
           Scenario.malformed_42_node Scenario.fixed_clock 2 40 45 43
           Scenario.empty_server); [lia|lia|vm_compute; reflexivity].
Defined.

Lemma sqlite_loop_restarts_from_one_witness :
  exists sv',
    ProgressLoop.cycle Db.Sqlite
      (fun a b sv =>
         snd (Store.ingest_blocks_in_order Watermark.accept_all ∅
                Scenario.healthy_node Scenario.fixed_clock Db.Sqlite 100
                a b sv))
      (ProgressLoop.Answer (ProgressLoop.abci_info 3)) Scenario.empty_server
    = ([ProgressLoop.QueryHeight; ProgressLoop.RunCoordinator 1 3],
       ProgressLoop.Looping, sv') /\
    Db.server_tables sv' = Db.server_tables Scenario.empty_server.
Proof.
  apply (sqlite_loop_restarts_from_one Watermark.accept_all ∅
           Scenario.healthy_node Scenario.fixed_clock 100 3
           (ProgressLoop.abci_info 3) Scenario.empty_server);
    [lia|reflexivity|lia].
Defined.
